(** * matrix-solver: Gaussian elimination with partial pivoting (src/solver.cpp)

    A shallow embedding of [solveMatrix] and the properties the specification
    states about it.

    - The scalar type of the C++ code is [double].  The embedding is written
      over a small interface [Scalar] (exactly the operations the code
      applies to a [double]) and instantiated with Rocq's primitive binary64
      floats, which is the arithmetic the program runs (IEEE 754, round to
      nearest even, every [-], [*] and [/] rounded on its own).  What the
      control flow alone decides is proved for every instance; what depends
      on the arithmetic is proved for binary64.
    - [double A[N][N]] is a list of rows and [double b[N]] a list; the two
      arrays are distinct objects.  Every read and every write goes through
      a bounds-checked accessor: an access outside the arrays makes the
      whole computation [None] (undefined behaviour in C++), so a result
      [Some _] certifies that every access was in bounds.
    - The loops have constant bounds and are folds over their index ranges;
      the early [return false] is the [Singular] outcome of a pivot step.
    - The result of a call is the returned [bool] and the final contents of
      the two arrays, which the caller sees because they are passed by
      pointer.
    - The module [Mem] is the same code with the two parameters as what
      they are in C++, pointers into a memory shared with the rest of the
      program; the call on the memory is proved to be the call on the
      contents of the two arrays, with every other cell left alone. *)

From Stdlib Require Import ZArith Floats QArith Qabs Qpower Field Lia Lqa.
From stdpp Require Import base option list.

(** ** Scalars *)

(** The operations [solveMatrix] applies to a [double]: the literals [0.0]
    and [1e-10], binary [-], [*], [/], [std::abs] and the comparison [<]
    ([x > y] is [y < x]). *)
Class Scalar (F : Type) := {
  fzero : F;
  threshold : F;
  fsub : F -> F -> F;
  fmul : F -> F -> F;
  fdiv : F -> F -> F;
  fabs : F -> F;
  flt : F -> F -> bool
}.

Definition fgt `{Scalar F} (x y : F) : bool := flt y x.

(** [constexpr int N = 10;] *)
Definition N : nat := 10.

(** ** The arrays and their checked accesses *)

Section Solver.
Context {F : Type} `{Scalar F}.

Record system := System { sysA : list (list F); sysb : list F }.

(** [A[i][j]] as an rvalue. *)
Definition getA (s : system) (i j : nat) : option F :=
  row ← sysA s !! i; row !! j.

(** [A[i][j] = v]. *)
Definition setA (s : system) (i j : nat) (v : F) : option system :=
  row ← sysA s !! i;
  _ ← row !! j;
  Some (System (<[i := <[j := v]> row]> (sysA s)) (sysb s)).

(** [b[i]] as an rvalue. *)
Definition getb (s : system) (i : nat) : option F := sysb s !! i.

(** [b[i] = v]. *)
Definition setb (s : system) (i : nat) (v : F) : option system :=
  _ ← sysb s !! i;
  Some (System (sysA s) (<[i := v]> (sysb s))).

(** ** Loops *)

(** [for (int k = lo; k < hi; k++)] visits [range lo hi]. *)
Definition range (lo hi : nat) : list nat := seq lo (hi - lo).

Fixpoint for_loop {St : Type} (idx : list nat) (body : nat -> St -> option St)
    (s : St) : option St :=
  match idx with
  | [] => Some s
  | k :: idx' => s' ← body k s; for_loop idx' body s'
  end.

(** ** Pivot search (lines 25-30) *)

Definition pivot_scan (s : system) (p i max_row : nat) : option nat :=
  aip ← getA s i p;
  amp ← getA s max_row p;
  Some (if fgt (fabs aip) (fabs amp) then i else max_row).

Definition find_pivot (s : system) (p : nat) : option nat :=
  for_loop (range (p + 1) N) (pivot_scan s p) p.

(** ** Row exchange (lines 38-41) *)

(** One iteration of [std::swap_ranges(A[p], A[p] + N, A[max_row])]. *)
Definition swap_entry (p max_row k : nat) (s : system) : option system :=
  x ← getA s p k;
  y ← getA s max_row k;
  s1 ← setA s p k y;
  setA s1 max_row k x.

Definition swap_ranges (p max_row : nat) (s : system) : option system :=
  for_loop (range 0 N) (swap_entry p max_row) s.

(** [std::swap(b[p], b[max_row])]. *)
Definition swap_b (p max_row : nat) (s : system) : option system :=
  x ← getb s p;
  y ← getb s max_row;
  s1 ← setb s p y;
  setb s1 max_row x.

Definition swap_rows (p max_row : nat) (s : system) : option system :=
  if decide (max_row ≠ p) then
    s1 ← swap_ranges p max_row s; swap_b p max_row s1
  else Some s.

(** ** Elimination (lines 44-56) *)

(** [A[i][j] -= factor * A[p][j];] *)
Definition elim_entry (p i : nat) (factor : F) (j : nat) (s : system)
    : option system :=
  aij ← getA s i j;
  apj ← getA s p j;
  setA s i j (fsub aij (fmul factor apj)).

Definition elim_row (p i : nat) (s : system) : option system :=
  aip ← getA s i p;
  app ← getA s p p;
  let factor := fdiv aip app in
  bi ← getb s i;
  bp ← getb s p;
  s1 ← setb s i (fsub bi (fmul factor bp));
  s2 ← for_loop (range (p + 1) N) (elim_entry p i factor) s1;
  setA s2 i p fzero.

Definition eliminate (p : nat) (s : system) : option system :=
  for_loop (range (p + 1) N) (elim_row p) s.

(** ** One pivot step and the forward phase (lines 23-57) *)

Inductive step_result :=
  | Singular (s : system)   (* [return false;] taken at this step *)
  | Next (s : system).      (* the loop goes on *)

Definition pivot_step (p : nat) (s : system) : option step_result :=
  max_row ← find_pivot s p;
  pv ← getA s max_row p;
  if flt (fabs pv) threshold then Some (Singular s)
  else
    s1 ← swap_rows p max_row s;
    s2 ← eliminate p s1;
    Some (Next s2).

Fixpoint forward (ps : list nat) (s : system) : option step_result :=
  match ps with
  | [] => Some (Next s)
  | p :: ps' =>
      r ← pivot_step p s;
      match r with
      | Singular s' => Some (Singular s')
      | Next s' => forward ps' s'
      end
  end.

(** ** Back substitution (lines 60-68) *)

(** [b[i] -= A[i][j] * b[j];] *)
Definition back_term (i j : nat) (s : system) : option system :=
  bi ← getb s i;
  aij ← getA s i j;
  bj ← getb s j;
  setb s i (fsub bi (fmul aij bj)).

Definition back_row (i : nat) (s : system) : option system :=
  s1 ← for_loop (range (i + 1) N) (back_term i) s;
  bi ← getb s1 i;
  aii ← getA s1 i i;
  setb s1 i (fdiv bi aii).

(** [for (int i = N - 1; i >= 0; i--)] *)
Definition back_substitute (s : system) : option system :=
  for_loop (rev (range 0 N)) back_row s.

(** ** [solveMatrix] *)

(** The result is the returned [bool] together with the final contents of
    [A] and [b]; [None] stands for an out-of-bounds access. *)
Definition solveMatrix (s : system) : option (bool * system) :=
  r ← forward (range 0 N) s;
  match r with
  | Singular s' => Some (false, s')
  | Next s' => s'' ← back_substitute s'; Some (true, s'')
  end.

End Solver.

Arguments system F : clear implicits.
Arguments step_result F : clear implicits.

(** ** The scalar instance *)

(** IEEE 754 binary64. *)
#[export] Instance float_scalar : Scalar float := {|
  fzero := 0%float;
  threshold := 0x1.b7cdfd9d7bdbbp-34%float;
  fsub := PrimFloat.sub;
  fmul := PrimFloat.mul;
  fdiv := PrimFloat.div;
  fabs := PrimFloat.abs;
  flt := PrimFloat.ltb
|}.

(** * The vocabulary of the statements *)

Section Views.
Context {F : Type} `{Scalar F}.
Implicit Types s : system F.

(** The arrays have the shape the signature promises: [A] is [N] rows of
    [N] entries, [b] has [N] entries. *)
Definition wf s : Prop :=
  length (sysA s) = N ∧ Forall (λ row, length row = N) (sysA s) ∧
  length (sysb s) = N.

(** Total views of the arrays, for the statements. *)
Definition ent s (i j : nat) : F := default fzero (getA s i j).
Definition rhs s (i : nat) : F := default fzero (getb s i).

(** One iteration of the scan of lines 26-30, on the total view. *)
Definition scan_pure s (p max_row i : nat) : nat :=
  if fgt (fabs (ent s i p)) (fabs (ent s max_row p)) then i else max_row.

(** The row the scan of column [p] ends on. *)
Definition pivot_row s (p : nat) : nat :=
  fold_left (scan_pure s p) (range (p + 1) N) p.

(** The row of the old [A] that sits at index [i] once the rows [p] and
    [max_row] are exchanged. *)
Definition swap_idx (p max_row i : nat) : nat :=
  if decide (i = p) then max_row else if decide (i = max_row) then p else i.

(** [factor] of line 45. *)
Definition factor s (p i : nat) : F := fdiv (ent s i p) (ent s p p).

(** Entry [j] of row [i] after row [i] has been reduced with pivot row [p]. *)
Definition elim_ent s (p i j : nat) : F :=
  if decide (j = p) then fzero
  else if decide (p < j < N)
       then fsub (ent s i j) (fmul (factor s p i) (ent s p j))
       else ent s i j.

(** [b[i]] after line 48. *)
Definition elim_rhs s (p i : nat) : F :=
  fsub (rhs s i) (fmul (factor s p i) (rhs s p)).

(** The test of line 33 on the entry the scan selected. *)
Definition near_zero_pivot s (p : nat) : bool :=
  flt (fabs (ent s (pivot_row s p) p)) threshold.

(** The value line 63 leaves in [b[i]] once the terms [j < k] are
    subtracted, with [x] the entries already solved. *)
Definition back_acc s (x : nat → F) (i k : nat) : F :=
  fold_left (λ acc j, fsub acc (fmul (ent s i j) (x j))) (range (i + 1) k) (rhs s i).

(** [b[i]] after line 67. *)
Definition back_val s (x : nat → F) (i : nat) : F :=
  fdiv (back_acc s x i N) (ent s i i).

(** Step [p] of the call on [s] starts in state [sp] and takes the
    [return false] of line 34: the scan selects [max_row] and
    [std::abs(A[max_row][p]) < 1e-10]. *)
Definition fails_at s (p : nat) (sp : system F) : Prop :=
  p < N ∧ forward (range 0 p) s = Some (Next sp) ∧
  ∃ max_row pv, find_pivot sp p = Some max_row ∧ getA sp max_row p = Some pv ∧
                flt (fabs pv) threshold = true.

(** The columns left of [k] are zero below the diagonal. *)
Definition lower_zero (k : nat) s : Prop :=
  ∀ q i, q < k → q < i < N → ent s i q = fzero.

(** After [k] steps the first [k] diagonal entries are entries that passed
    the test of line 33. *)
Definition diag_passed (k : nat) s : Prop :=
  ∀ i, i < k → flt (fabs (ent s i i)) threshold = false.

(** Two step results of the same kind that leave the same matrix. *)
Definition same_matrix (r1 r2 : step_result F) : Prop :=
  match r1, r2 with
  | Singular t1, Singular t2 | Next t1, Next t2 => sysA t1 = sysA t2
  | _, _ => False
  end.

End Views.

(** * The call on a flat memory *)

(** [solveMatrix] receives two pointers.  Here the memory is a sequence of
    cells holding a [double] each, an address is an index into it, and the
    parameters [A] and [b] are the addresses of the first cells of the two
    arrays: [A[i][j]] is the cell [A + i * N + j] (rows are contiguous) and
    [b[i]] the cell [b + i].  An index outside [0..N-1] or a cell outside
    the memory makes the computation [None]. *)
Module Mem.
Section Solver.
Context {F : Type} `{Scalar F}.

Definition mem := list F.

Section Call.
Variables A b : nat.

Definition cellA (i j : nat) : nat := A + i * N + j.
Definition cellb (i : nat) : nat := b + i.

Definition getA (h : mem) (i j : nat) : option F :=
  if decide (i < N ∧ j < N) then h !! cellA i j else None.

Definition setA (h : mem) (i j : nat) (v : F) : option mem :=
  if decide (i < N ∧ j < N)
  then _ ← h !! cellA i j; Some (<[cellA i j := v]> h)
  else None.

Definition getb (h : mem) (i : nat) : option F :=
  if decide (i < N) then h !! cellb i else None.

Definition setb (h : mem) (i : nat) (v : F) : option mem :=
  if decide (i < N)
  then _ ← h !! cellb i; Some (<[cellb i := v]> h)
  else None.

Definition pivot_scan (h : mem) (p i max_row : nat) : option nat :=
  aip ← getA h i p;
  amp ← getA h max_row p;
  Some (if fgt (fabs aip) (fabs amp) then i else max_row).

Definition find_pivot (h : mem) (p : nat) : option nat :=
  for_loop (range (p + 1) N) (pivot_scan h p) p.

Definition swap_entry (p max_row k : nat) (h : mem) : option mem :=
  x ← getA h p k;
  y ← getA h max_row k;
  h1 ← setA h p k y;
  setA h1 max_row k x.

Definition swap_ranges (p max_row : nat) (h : mem) : option mem :=
  for_loop (range 0 N) (swap_entry p max_row) h.

Definition swap_b (p max_row : nat) (h : mem) : option mem :=
  x ← getb h p;
  y ← getb h max_row;
  h1 ← setb h p y;
  setb h1 max_row x.

Definition swap_rows (p max_row : nat) (h : mem) : option mem :=
  if decide (max_row ≠ p) then
    h1 ← swap_ranges p max_row h; swap_b p max_row h1
  else Some h.

Definition elim_entry (p i : nat) (factor : F) (j : nat) (h : mem) : option mem :=
  aij ← getA h i j;
  apj ← getA h p j;
  setA h i j (fsub aij (fmul factor apj)).

Definition elim_row (p i : nat) (h : mem) : option mem :=
  aip ← getA h i p;
  app ← getA h p p;
  let factor := fdiv aip app in
  bi ← getb h i;
  bp ← getb h p;
  h1 ← setb h i (fsub bi (fmul factor bp));
  h2 ← for_loop (range (p + 1) N) (elim_entry p i factor) h1;
  setA h2 i p fzero.

Definition eliminate (p : nat) (h : mem) : option mem :=
  for_loop (range (p + 1) N) (elim_row p) h.

Inductive step_result :=
  | Singular (h : mem)
  | Next (h : mem).

Definition pivot_step (p : nat) (h : mem) : option step_result :=
  max_row ← find_pivot h p;
  pv ← getA h max_row p;
  if flt (fabs pv) threshold then Some (Singular h)
  else
    h1 ← swap_rows p max_row h;
    h2 ← eliminate p h1;
    Some (Next h2).

Fixpoint forward (ps : list nat) (h : mem) : option step_result :=
  match ps with
  | [] => Some (Next h)
  | p :: ps' =>
      r ← pivot_step p h;
      match r with
      | Singular h' => Some (Singular h')
      | Next h' => forward ps' h'
      end
  end.

Definition back_term (i j : nat) (h : mem) : option mem :=
  bi ← getb h i;
  aij ← getA h i j;
  bj ← getb h j;
  setb h i (fsub bi (fmul aij bj)).

Definition back_row (i : nat) (h : mem) : option mem :=
  h1 ← for_loop (range (i + 1) N) (back_term i) h;
  bi ← getb h1 i;
  aii ← getA h1 i i;
  setb h1 i (fdiv bi aii).

Definition back_substitute (h : mem) : option mem :=
  for_loop (rev (range 0 N)) back_row h.

(** The call: the returned [bool] and the memory it leaves. *)
Definition solveMatrix (h : mem) : option (bool * mem) :=
  r ← forward (range 0 N) h;
  match r with
  | Singular h' => Some (false, h')
  | Next h' => h'' ← back_substitute h'; Some (true, h'')
  end.

(** ** The two arrays in the memory *)

(** The cells of the array [A] and of the array [b]. *)
Definition inA (l : nat) : Prop := A ≤ l < A + N * N.
Definition inb (l : nat) : Prop := b ≤ l < b + N.

(** The two arrays are allocated and are distinct objects. *)
Definition separate (h : mem) : Prop :=
  A + N * N ≤ length h ∧ b + N ≤ length h ∧ (A + N * N ≤ b ∨ b + N ≤ A).

(** The arrays the two pointers designate hold the contents [s]. *)
Definition holds (h : mem) (s : system F) : Prop :=
  wf s ∧
  (∀ i j, i < N → j < N → h !! cellA i j = Some (ent s i j)) ∧
  (∀ i, i < N → h !! cellb i = Some (rhs s i)).

(** [h'] differs from [h] in cells of the two arrays only. *)
Definition frame (h h' : mem) : Prop :=
  length h' = length h ∧ ∀ l, ¬ inA l → ¬ inb l → h' !! l = h !! l.

(** The contents of the two arrays in [h]. *)
Definition read (h : mem) : system F :=
  System ((λ i, (λ j, default fzero (h !! cellA i j)) <$> seq 0 N) <$> seq 0 N)
         ((λ i, default fzero (h !! cellb i)) <$> seq 0 N).

(** [h] holds [s] and differs from the memory [h0] of the call in cells of
    the two arrays only. *)
Definition tracks (h0 h : mem) (s : system F) : Prop := holds h s ∧ frame h0 h.

End Call.

End Solver.
End Mem.

(** The outcome of a step on the memory and its outcome on the arrays. *)
Definition step_tracks {F : Type} `{Scalar F} (A b : nat) (h0 : Mem.mem)
    (rm : Mem.step_result) (r : step_result F) : Prop :=
  match rm, r with
  | Mem.Singular h, Singular s | Mem.Next h, Next s => Mem.tracks A b h0 h s
  | _, _ => False
  end.

(** ** Binary64 values *)

Section Keys.
Local Open Scope Z_scope.

(** Values that are not NaN are ordered as their keys are, by sign class,
    then exponent, then mantissa. *)
Definition sf_key (x : spec_float) : Z * Z * Z :=
  match x with
  | S754_zero _ | S754_nan => (0, 0, 0)
  | S754_infinity false => (2, 0, 0)
  | S754_infinity true => (-2, 0, 0)
  | S754_finite false m e => (1, e, Zpos m)
  | S754_finite true m e => (-1, - e, Zneg m)
  end.

(** The lexicographic order of the keys. *)
Definition key_lt (a b : Z * Z * Z) : Prop :=
  a.1.1 < b.1.1 ∨ (a.1.1 = b.1.1 ∧ (a.1.2 < b.1.2 ∨ (a.1.2 = b.1.2 ∧ a.2 < b.2))).

(** The key of a [double]. *)
Definition fkey (x : float) : Z * Z * Z := sf_key (Prim2SF x).

(** [1.0], bit by bit. *)
Definition sf_one : spec_float := S754_finite false 4503599627370496 (-52).

End Keys.

Section FloatViews.
Implicit Types s : system float.

(** Row [max_row] is the first row of [p..N-1] whose entry in column [p]
    has the largest magnitude. *)
Definition first_max s (p max_row : nat) : Prop :=
  (p ≤ max_row < N)%nat ∧
  (∀ i, (p ≤ i < N)%nat →
     PrimFloat.leb (abs (ent s i p)) (abs (ent s max_row p)) = true) ∧
  (∀ i, (p ≤ i < max_row)%nat →
     PrimFloat.ltb (abs (ent s i p)) (abs (ent s max_row p)) = true).

(** Equal as numbers: the same [double], or two zeros. *)
Definition feq (x v : float) : Prop :=
  x = v ∨ (is_zero x = true ∧ is_zero v = true).

(** No entry of [v] is an infinity or a NaN. *)
Definition all_finite (v : list float) : Prop :=
  Forall (λ x, is_finite x = true) v.

(** No entry of [A] is an infinity or a NaN. *)
Definition finite_matrix s : bool := forallb (forallb is_finite) (sysA s).

(** [A] is finite at the start of each of the steps [ps] the run reaches. *)
Fixpoint finite_steps (ps : list nat) s : bool :=
  match ps with
  | [] => true
  | p :: ps' =>
      finite_matrix s &&
      match pivot_step p s with
      | Some (Next s') => finite_steps ps' s'
      | _ => true
      end
  end.

(** Elimination does not overflow on [s]. *)
Definition no_overflow s : bool := finite_steps (range 0 N) s.

(** Row [r], not yet used as a pivot row, is zero from column [p] on. *)
Definition zero_row_from (p r : nat) s : Prop :=
  p ≤ r < N ∧ ∀ j, p ≤ j < N → is_zero (ent s r j) = true.

(** Two rows not yet used as pivot rows agree from column [p] on. *)
Definition same_rows_from (p r1 r2 : nat) s : Prop :=
  p ≤ r1 < N ∧ p ≤ r2 < N ∧ r1 ≠ r2 ∧ ∀ j, p ≤ j < N → ent s r1 j = ent s r2 j.

(** Among the rows not yet used as pivot rows there is a zero row or a pair
    of identical rows. *)
Definition degenerate_from (p : nat) s : Prop :=
  (∃ r, zero_row_from p r s) ∨ (∃ r1 r2, same_rows_from p r1 r2 s).

(** [A[0][0]] is NaN and, once a step is done, so are the rows [1..]: from
    the diagonal on in the rows already used as pivot rows and from column
    [k] on in the others. *)
Definition nan_block (k : nat) s : Prop :=
  is_nan (ent s 0 0) = true ∧
  ((1 ≤ k)%nat → ∀ i j, (1 ≤ i < N)%nat → (i `min` k ≤ j < N)%nat →
     is_nan (ent s i j) = true).

End FloatViews.

Section Residuals.
Local Open Scope float_scope.

(** The rational number a finite [double] stands for. *)
Definition exact (x : float) : Q :=
  match Prim2SF x with
  | S754_finite s m e => (inject_Z (cond_Zopp s (Zpos m)) * 2 ^ e)%Q
  | _ => 0%Q
  end.

(** [row . x], without rounding. *)
Definition exact_dot (row x : list float) : Q :=
  fold_left (λ acc ax, (acc + exact ax.1 * exact ax.2)%Q) (zip row x) 0%Q.

(** [A x - b], without rounding. *)
Definition exact_residual (A : list (list float)) (b x : list float) : list Q :=
  zip_with (λ row bi, (exact_dot row x - exact bi)%Q) A b.



End Residuals.

(** ** Rounding *)

Section RoundingViews.

(** The record [r] of a right shift locates the fraction [n / d]: its
    mantissa is the integer part and its two bits tell where the rest lies
    with respect to one half. *)
Definition rec_located (n d : Z) (r : shr_record) : Prop :=
  (0 ≤ shr_m r ∧ 0 < d ∧ 0 ≤ n - shr_m r * d < d ∧
   match shr_r r, shr_s r with
   | false, false => n - shr_m r * d = 0
   | false, true => 0 < 2 * (n - shr_m r * d) < d
   | true, false => 2 * (n - shr_m r * d) = d
   | true, true => d < 2 * (n - shr_m r * d)
   end)%Z.

(** The rational number a finite value stands for. *)
Definition sf_exact (x : spec_float) : Q :=
  match x with
  | S754_finite s m e => (inject_Z (cond_Zopp s (Zpos m)) * 2 ^ e)%Q
  | _ => 0%Q
  end.

(** Half an ulp of 1 and half the least positive [double]. *)
Definition u64 : Q := 2 ^ (-53).
Definition eta64 : Q := 2 ^ (-1075).

End RoundingViews.

(** ** The residual of a run in binary64 *)

Section ResidualViews.
Implicit Types s : system float.
Local Open Scope Q_scope.

(** [f lo + ... + f (hi - 1)]. *)
Definition qsum (f : nat → Q) (lo hi : nat) : Q :=
  fold_left (λ acc j, acc + f j) (range lo hi) 0.

(** The values of the entries. *)
Definition entQ s (i j : nat) : Q := exact (ent s i j).







End ResidualViews.

(** ** Concrete systems *)

Section Inputs.
Local Open Scope float_scope.

(** [2^1023]: a finite [double]; twice it is not. *)
Definition two_1023 : float := 0x1p+1023.

(** A matrix of finite entries with a zero row (row 9) and two identical
    rows (rows 1 and 2).  Step 0 makes [A[1][1]] and [A[2][1]] overflow to
    infinity, step 1 divides infinity by infinity. *)
Definition A_overflow : list (list float) :=
  [[ 1; two_1023; 0; 0; 0; 0; 0; 0; 0; 0];
   [-1; two_1023; 0; 0; 0; 0; 0; 0; 0; 0];
   [-1; two_1023; 0; 0; 0; 0; 0; 0; 0; 0];
   [ 0; 0; 5; 1; 0; 0; 0; 0; 0; 0];
   [ 0; 0; 0; 0; 1; 0; 0; 0; 0; 0];
   [ 0; 0; 0; 0; 0; 1; 0; 0; 0; 0];
   [ 0; 0; 0; 0; 0; 0; 1; 0; 0; 0];
   [ 0; 0; 0; 0; 0; 0; 0; 1; 0; 0];
   [ 0; 0; 0; 0; 0; 0; 0; 0; 1; 0];
   [ 0; 0; 0; 0; 0; 0; 0; 0; 0; 0]].

(** Right-hand sides. *)
Definition b_ones : list float := [1; 1; 1; 1; 1; 1; 1; 1; 1; 1].

Definition b_count : list float := [1; 2; 3; 4; 5; 6; 7; 8; 9; 10].

(** The 10x10 identity. *)
Definition identity_matrix : list (list float) :=
  [[1; 0; 0; 0; 0; 0; 0; 0; 0; 0];
   [0; 1; 0; 0; 0; 0; 0; 0; 0; 0];
   [0; 0; 1; 0; 0; 0; 0; 0; 0; 0];
   [0; 0; 0; 1; 0; 0; 0; 0; 0; 0];
   [0; 0; 0; 0; 1; 0; 0; 0; 0; 0];
   [0; 0; 0; 0; 0; 1; 0; 0; 0; 0];
   [0; 0; 0; 0; 0; 0; 1; 0; 0; 0];
   [0; 0; 0; 0; 0; 0; 0; 1; 0; 0];
   [0; 0; 0; 0; 0; 0; 0; 0; 1; 0];
   [0; 0; 0; 0; 0; 0; 0; 0; 0; 1]].

(** The matrix of the specification's scenario: 2 on the diagonal, 1 next
    to it. *)
Definition tridiagonal : list (list float) :=
  [[2; 1; 0; 0; 0; 0; 0; 0; 0; 0];
   [1; 2; 1; 0; 0; 0; 0; 0; 0; 0];
   [0; 1; 2; 1; 0; 0; 0; 0; 0; 0];
   [0; 0; 1; 2; 1; 0; 0; 0; 0; 0];
   [0; 0; 0; 1; 2; 1; 0; 0; 0; 0];
   [0; 0; 0; 0; 1; 2; 1; 0; 0; 0];
   [0; 0; 0; 0; 0; 1; 2; 1; 0; 0];
   [0; 0; 0; 0; 0; 0; 1; 2; 1; 0];
   [0; 0; 0; 0; 0; 0; 0; 1; 2; 1];
   [0; 0; 0; 0; 0; 0; 0; 0; 1; 2]].

(** A matrix whose first column is zero: step 0 returns. *)
Definition zero_column : list (list float) :=
  [[0; 1; 0; 0; 0; 0; 0; 0; 0; 0];
   [0; 2; 1; 0; 0; 0; 0; 0; 0; 0];
   [0; 1; 2; 1; 0; 0; 0; 0; 0; 0];
   [0; 0; 1; 2; 1; 0; 0; 0; 0; 0];
   [0; 0; 0; 1; 2; 1; 0; 0; 0; 0];
   [0; 0; 0; 0; 1; 2; 1; 0; 0; 0];
   [0; 0; 0; 0; 0; 1; 2; 1; 0; 0];
   [0; 0; 0; 0; 0; 0; 1; 2; 1; 0];
   [0; 0; 0; 0; 0; 0; 0; 1; 2; 1];
   [0; 0; 0; 0; 0; 0; 0; 0; 1; 2]].


(** The identity's right-hand side with an infinity in front. *)
Definition b_infinite : list float := [infinity; 1; 1; 1; 1; 1; 1; 1; 1; 1].

(** The tridiagonal matrix with its last row replaced by zeros. *)
Definition zero_last_row : list (list float) :=
  [[2; 1; 0; 0; 0; 0; 0; 0; 0; 0];
   [1; 2; 1; 0; 0; 0; 0; 0; 0; 0];
   [0; 1; 2; 1; 0; 0; 0; 0; 0; 0];
   [0; 0; 1; 2; 1; 0; 0; 0; 0; 0];
   [0; 0; 0; 1; 2; 1; 0; 0; 0; 0];
   [0; 0; 0; 0; 1; 2; 1; 0; 0; 0];
   [0; 0; 0; 0; 0; 1; 2; 1; 0; 0];
   [0; 0; 0; 0; 0; 0; 1; 2; 1; 0];
   [0; 0; 0; 0; 0; 0; 0; 1; 2; 1];
   [0; 0; 0; 0; 0; 0; 0; 0; 0; 0]].



(** Two memories holding the tridiagonal system and [b_count] at different
    addresses, among other cells. *)
Definition mem_one : list float :=
  [7; 7; 7] ++ concat tridiagonal ++ b_count ++ [9].

Definition mem_two : list float :=
  b_count ++ [5; 5] ++ concat tridiagonal.

(** The identity with a NaN in its first entry. *)
Definition nan_corner : list (list float) :=
  [[nan; 0; 0; 0; 0; 0; 0; 0; 0; 0];
   [0; 1; 0; 0; 0; 0; 0; 0; 0; 0];
   [0; 0; 1; 0; 0; 0; 0; 0; 0; 0];
   [0; 0; 0; 1; 0; 0; 0; 0; 0; 0];
   [0; 0; 0; 0; 1; 0; 0; 0; 0; 0];
   [0; 0; 0; 0; 0; 1; 0; 0; 0; 0];
   [0; 0; 0; 0; 0; 0; 1; 0; 0; 0];
   [0; 0; 0; 0; 0; 0; 0; 1; 0; 0];
   [0; 0; 0; 0; 0; 0; 0; 0; 1; 0];
   [0; 0; 0; 0; 0; 0; 0; 0; 0; 1]].

End Inputs.


(** * Reasoning about the checked arrays *)

Section Arrays.
Context {F : Type} `{Scalar F}.
Implicit Types s : system F.

Lemma wf_row s i : wf s → i < N → ∃ row, sysA s !! i = Some row ∧ length row = N.
Proof.
  intros (HA & Hrows & _) Hi.
  destruct (lookup_lt_is_Some_2 (sysA s) i) as [row Hrow]; [lia|].
  exists row; split; [done|].
  by apply (Forall_lookup_1 _ _ _ _ Hrows Hrow).
Qed.

Lemma getA_wf s i j : wf s → i < N → j < N → getA s i j = Some (ent s i j).
Proof.
  intros Hwf Hi Hj. unfold ent, getA.
  destruct (wf_row s i Hwf Hi) as (row & -> & Hlen). simpl.
  destruct (lookup_lt_is_Some_2 row j) as [x ->]; [lia|]. done.
Qed.

Lemma getb_wf s i : wf s → i < N → getb s i = Some (rhs s i).
Proof.
  intros (_ & _ & Hb) Hi. unfold rhs, getb.
  destruct (lookup_lt_is_Some_2 (sysb s) i) as [x ->]; [lia|]. done.
Qed.

Lemma ent_row s i j row : sysA s !! i = Some row → ent s i j = default fzero (row !! j).
Proof. intros Hrow. unfold ent, getA. by rewrite Hrow. Qed.

(** A write inside the bounds succeeds, keeps the shape and changes one
    entry. *)
Lemma setA_wf s i j v :
  wf s → i < N → j < N →
  ∃ s', setA s i j v = Some s' ∧ wf s' ∧ sysb s' = sysb s ∧
        (∀ i', i' ≠ i → sysA s' !! i' = sysA s !! i') ∧
        (∀ i' j', ent s' i' j' = if decide (i' = i ∧ j' = j) then v else ent s i' j').
Proof.
  intros Hwf Hi Hj.
  destruct (wf_row s i Hwf Hi) as (row & Hrow & Hlen).
  destruct Hwf as (HA & Hrows & Hb).
  destruct (lookup_lt_is_Some_2 row j) as [x Hx]; [lia|].
  eexists. split; [unfold setA; rewrite Hrow; simpl; rewrite Hx; reflexivity|].
  split; [|split; [done|split]].
  - repeat split; simpl; [by rewrite length_insert| |done].
    apply Forall_insert; [done|by rewrite length_insert].
  - intros i' Hne. simpl. by rewrite list_lookup_insert_ne.
  - intros i' j'. unfold ent, getA. simpl.
    destruct (decide (i' = i)) as [->|Hne].
    + rewrite list_lookup_insert_eq by lia. rewrite Hrow. simpl.
      destruct (decide (j' = j)) as [->|Hnj].
      * rewrite list_lookup_insert_eq by lia. by rewrite decide_True.
      * rewrite list_lookup_insert_ne by done. rewrite decide_False; [done|tauto].
    + rewrite list_lookup_insert_ne by done. rewrite decide_False; [done|tauto].
Qed.

Lemma setb_wf s i v :
  wf s → i < N →
  ∃ s', setb s i v = Some s' ∧ wf s' ∧ sysA s' = sysA s ∧
        (∀ i', rhs s' i' = if decide (i' = i) then v else rhs s i').
Proof.
  intros (HA & Hrows & Hb) Hi.
  destruct (lookup_lt_is_Some_2 (sysb s) i) as [x Hx]; [lia|].
  eexists. split; [unfold setb; rewrite Hx; reflexivity|].
  split; [|split; [done|]].
  - repeat split; simpl; [done|done|by rewrite length_insert].
  - intros i'. unfold rhs, getb. simpl.
    destruct (decide (i' = i)) as [->|Hne].
    + by rewrite list_lookup_insert_eq by lia.
    + by rewrite list_lookup_insert_ne.
Qed.

Lemma ent_sysA s s' i j : sysA s' = sysA s → ent s' i j = ent s i j.
Proof. intros HA. unfold ent, getA. by rewrite HA. Qed.

Lemma rhs_sysb s s' i : sysb s' = sysb s → rhs s' i = rhs s i.
Proof. intros Hb. unfold rhs, getb. by rewrite Hb. Qed.

(** Rows with the same entries are the same row. *)
Lemma row_ext s s' i i' :
  wf s → wf s' → i < N → i' < N →
  (∀ j, j < N → ent s i j = ent s' i' j) → sysA s !! i = sysA s' !! i'.
Proof.
  intros Hwf Hwf' Hi Hi' Hent.
  destruct (wf_row s i Hwf Hi) as (row & Hrow & Hlen).
  destruct (wf_row s' i' Hwf' Hi') as (row' & Hrow' & Hlen').
  rewrite Hrow, Hrow'. f_equal.
  apply list_eq_same_length with N; [done|done|].
  intros j x y Hj Hx Hy.
  specialize (Hent j Hj). rewrite (ent_row _ _ _ _ Hrow), (ent_row _ _ _ _ Hrow') in Hent.
  rewrite Hx, Hy in Hent. done.
Qed.

Lemma rhs_ext s s' i i' :
  wf s → wf s' → i < N → i' < N → rhs s i = rhs s' i' → sysb s !! i = sysb s' !! i'.
Proof.
  intros Hwf Hwf' Hi Hi'.
  pose proof (getb_wf s i Hwf Hi) as H1. pose proof (getb_wf s' i' Hwf' Hi') as H2.
  unfold getb in *. rewrite H1, H2. by intros ->.
Qed.

(** ** Loop rules *)

Lemma range_cons lo hi : lo < hi → range lo hi = lo :: range (S lo) hi.
Proof.
  intros Hlt. unfold range.
  replace (hi - lo) with (S (hi - S lo)) by lia. done.
Qed.

Lemma range_nil lo hi : hi ≤ lo → range lo hi = [].
Proof. intros Hle. unfold range. by replace (hi - lo) with 0 by lia. Qed.

Lemma range_snoc lo hi : lo ≤ hi → range lo (S hi) = range lo hi ++ [hi].
Proof.
  intros Hle. unfold range.
  replace (S hi - lo) with (S (hi - lo)) by lia.
  rewrite seq_S. do 2 f_equal. lia.
Qed.

Lemma range_split lo mid hi :
  lo ≤ mid → mid ≤ hi → range lo hi = range lo mid ++ range mid hi.
Proof.
  intros H1 H2. unfold range.
  replace (hi - lo) with ((mid - lo) + (hi - mid)) by lia.
  rewrite seq_app. do 2 f_equal. lia.
Qed.

(** An upward loop keeps an invariant indexed by the next index to visit. *)
Lemma for_loop_inv {St} (I : nat → St → Prop) (body : nat → St → option St) lo hi st :
  lo ≤ hi → I lo st →
  (∀ k st, lo ≤ k < hi → I k st → ∃ st', body k st = Some st' ∧ I (S k) st') →
  ∃ st', for_loop (range lo hi) body st = Some st' ∧ I hi st'.
Proof.
  intros Hle. remember (hi - lo) as d eqn:Hd.
  revert lo st Hle Hd. induction d as [|d IH]; intros lo st Hle Hd Hinit Hbody.
  - assert (lo = hi) as -> by lia. rewrite range_nil by lia. eauto.
  - rewrite range_cons by lia. simpl.
    destruct (Hbody lo st) as (st1 & -> & H1); [lia|done|]. simpl.
    apply IH; [lia|lia|done|]. intros k st2 Hk. apply Hbody. lia.
Qed.

(** The downward loop [for (i = n - 1; i >= 0; i--)]: the invariant is
    indexed by the number of indices still to visit. *)
Lemma for_loop_down_inv {St} (I : nat → St → Prop) (body : nat → St → option St) n st :
  I n st →
  (∀ k st, k < n → I (S k) st → ∃ st', body k st = Some st' ∧ I k st') →
  ∃ st', for_loop (rev (range 0 n)) body st = Some st' ∧ I 0 st'.
Proof.
  revert st. induction n as [|n IH]; intros st Hinit Hbody.
  - simpl. eauto.
  - rewrite range_snoc by lia. rewrite rev_app_distr. simpl.
    destruct (Hbody n st) as (st1 & -> & H1); [lia|done|]. simpl.
    apply IH; [done|]. intros k st2 Hk. apply Hbody. lia.
Qed.

End Arrays.

(** Shape of a concrete system, by computation. *)
Lemma wf_concrete `{Scalar F} (A : list (list F)) (b : list F) :
  length A = N → forallb (λ row, length row =? N) A = true → length b = N →
  wf (System A b).
Proof.
  intros HA Hrows Hb. split; [done|]. split; [|done].
  apply Forall_forall. intros row Hin. simpl in *.
  rewrite forallb_forall in Hrows. apply Nat.eqb_eq, Hrows.
  by apply list_elem_of_In.
Defined.

Ltac wf_concrete := apply wf_concrete; reflexivity.

(** * What each phase computes *)

Section Phases.
Context {F : Type} `{Scalar F}.
Implicit Types s : system F.

(** ** Pivot search *)

Lemma scan_upto_bounds s p k :
  p < k → p ≤ fold_left (scan_pure s p) (range (p + 1) k) p < k.
Proof.
  induction k as [|k IH]; [lia|]. intros Hk.
  destruct (decide (p = k)) as [->|Hne].
  - rewrite range_nil by lia. simpl. lia.
  - rewrite range_snoc by lia. rewrite fold_left_app. simpl.
    assert (p < k) as Hlt by lia. specialize (IH Hlt).
    set (m := fold_left _ _ _) in *. unfold scan_pure.
    destruct (fgt _ _); lia.
Qed.

Lemma pivot_row_bounds s p : p < N → p ≤ pivot_row s p < N.
Proof. apply scan_upto_bounds. Qed.

Lemma find_pivot_wf s p :
  wf s → p < N → find_pivot s p = Some (pivot_row s p).
Proof.
  intros Hwf Hp. unfold find_pivot, pivot_row.
  destruct (for_loop_inv
    (λ k m, m = fold_left (scan_pure s p) (range (p + 1) k) p)
    (pivot_scan s p) (p + 1) N p) as (m & Hm & ->); [lia| |  |done].
  - by rewrite range_nil by lia.
  - intros k m Hk ->.
    pose proof (scan_upto_bounds s p k) as Hb.
    eexists. split.
    + unfold pivot_scan. rewrite getA_wf by (done || lia). simpl.
      rewrite getA_wf by (done || lia). simpl. reflexivity.
    + rewrite range_snoc by lia. rewrite fold_left_app. done.
Qed.

(** ** Row exchange *)

Lemma swap_entry_spec s p m k :
  wf s → p < N → m < N → k < N → m ≠ p →
  ∃ s', swap_entry p m k s = Some s' ∧ wf s' ∧ sysb s' = sysb s ∧
    (∀ i, i ≠ p → i ≠ m → sysA s' !! i = sysA s !! i) ∧
    (∀ i j, ent s' i j =
       if decide (j = k) then ent s (swap_idx p m i) j else ent s i j).
Proof.
  intros Hwf Hp Hm Hk Hne. unfold swap_entry.
  rewrite !getA_wf by done. simpl.
  destruct (setA_wf s p k (ent s m k)) as (s1 & -> & Hwf1 & Hb1 & Hr1 & He1);
    [done..|]. simpl.
  destruct (setA_wf s1 m k (ent s p k)) as (s2 & -> & Hwf2 & Hb2 & Hr2 & He2);
    [done..|].
  eexists. split; [done|]. split; [done|]. split; [congruence|]. split.
  - intros i Hip Him. rewrite Hr2, Hr1; done.
  - intros i j. rewrite He2, He1. unfold swap_idx.
    repeat case_decide; destruct_and?; subst; try done; try tauto.
Qed.

Lemma swap_ranges_spec s p m :
  wf s → p < N → m < N → m ≠ p →
  ∃ s', swap_ranges p m s = Some s' ∧ wf s' ∧ sysb s' = sysb s ∧
    (∀ i, i ≠ p → i ≠ m → sysA s' !! i = sysA s !! i) ∧
    (∀ i j, j < N → ent s' i j = ent s (swap_idx p m i) j).
Proof.
  intros Hwf Hp Hm Hne. unfold swap_ranges.
  destruct (for_loop_inv
    (λ k st, wf st ∧ sysb st = sysb s ∧
       (∀ i, i ≠ p → i ≠ m → sysA st !! i = sysA s !! i) ∧
       ∀ i j, ent st i j =
         if decide (j < k) then ent s (swap_idx p m i) j else ent s i j)
    (swap_entry p m) 0 N s) as (s' & Hs' & Hwf' & Hb' & Hr' & He'); [lia| | |].
  - do 3 (split; [done|]). intros i j. by rewrite decide_False by lia.
  - intros k st Hk (Hwfk & Hbk & Hrk & Hek).
    destruct (swap_entry_spec st p m k) as (st' & -> & Hwf1 & Hb1 & Hr1 & He1);
      [done|done|done|lia|done|].
    eexists. split; [done|]. split; [done|]. split; [congruence|]. split.
    + intros i Hip Him. rewrite Hr1, Hrk; done.
    + intros i j. rewrite He1, !Hek. unfold swap_idx.
      repeat case_decide; subst; try done; try lia.
  - exists s'. do 4 (split; [done|]).
    intros i j Hj. rewrite He'. by rewrite decide_True.
Qed.

Lemma swap_b_spec s p m :
  wf s → p < N → m < N →
  ∃ s', swap_b p m s = Some s' ∧ wf s' ∧ sysA s' = sysA s ∧
    ∀ i, rhs s' i = rhs s (swap_idx p m i).
Proof.
  intros Hwf Hp Hm. unfold swap_b.
  rewrite !getb_wf by done. simpl.
  destruct (setb_wf s p (rhs s m)) as (s1 & -> & Hwf1 & HA1 & He1); [done..|].
  simpl.
  destruct (setb_wf s1 m (rhs s p)) as (s2 & -> & Hwf2 & HA2 & He2); [done..|].
  eexists. split; [done|]. split; [done|]. split; [congruence|].
  intros i. rewrite He2, He1. unfold swap_idx.
  repeat case_decide; subst; try done.
Qed.

Lemma swap_idx_same p i : swap_idx p p i = i.
Proof. unfold swap_idx. repeat case_decide; congruence. Qed.

Lemma swap_idx_lt p m i : p < N → m < N → i < N → swap_idx p m i < N.
Proof. unfold swap_idx. repeat case_decide; lia. Qed.

Lemma swap_idx_ge p m i : p ≤ m → p ≤ i → p ≤ swap_idx p m i.
Proof. unfold swap_idx. repeat case_decide; lia. Qed.

Lemma swap_idx_other p m i : i ≠ p → i ≠ m → swap_idx p m i = i.
Proof. unfold swap_idx. intros. by rewrite !decide_False. Qed.

Lemma swap_idx_invol p m i : swap_idx p m (swap_idx p m i) = i.
Proof. unfold swap_idx. repeat case_decide; congruence. Qed.

Lemma ent_oob_i s i j : wf s → N ≤ i → ent s i j = fzero.
Proof.
  intros (HA & _) Hi. unfold ent, getA.
  rewrite (lookup_ge_None_2 (sysA s) i) by lia. done.
Qed.

Lemma ent_oob_j s i j : wf s → N ≤ j → ent s i j = fzero.
Proof.
  intros Hwf Hj. destruct (decide (i < N)) as [Hi|Hi].
  - destruct (wf_row s i Hwf Hi) as (row & Hrow & Hlen).
    rewrite (ent_row _ _ _ _ Hrow), (lookup_ge_None_2 row j) by lia. done.
  - apply ent_oob_i; [done|lia].
Qed.

Lemma swap_rows_spec s p m :
  wf s → p < N → m < N →
  ∃ s', swap_rows p m s = Some s' ∧ wf s' ∧
    (∀ i j, ent s' i j = ent s (swap_idx p m i) j) ∧
    (∀ i, rhs s' i = rhs s (swap_idx p m i)) ∧
    (∀ i, i ≠ p → i ≠ m → sysA s' !! i = sysA s !! i).
Proof.
  intros Hwf Hp Hm. unfold swap_rows. case_decide as Hne.
  - destruct (swap_ranges_spec s p m) as (s1 & -> & Hwf1 & Hb1 & Hr1 & He1);
      [done..|]. simpl.
    destruct (swap_b_spec s1 p m) as (s2 & -> & Hwf2 & HA2 & He2); [done..|].
    eexists. split; [done|]. split; [done|]. split; [|split].
    + intros i j. rewrite (ent_sysA _ _ _ _ HA2).
      destruct (decide (j < N)) as [Hj|Hj]; [by apply He1|].
      rewrite !ent_oob_j by (done || lia). done.
    + intros i. rewrite He2. by apply rhs_sysb.
    + intros i Hip Him. rewrite HA2. by apply Hr1.
  - assert (m = p) as -> by (destruct (decide (m = p)); [done|tauto]).
    exists s. do 2 (split; [done|]).
    split; [|split]; intros; by rewrite ?swap_idx_same.
Qed.

(** ** Elimination *)

Lemma elim_ent_congr s s' p i j :
  (∀ j, ent s' i j = ent s i j) → (∀ j, ent s' p j = ent s p j) →
  elim_ent s' p i j = elim_ent s p i j.
Proof. intros Hi Hp. unfold elim_ent, factor. by rewrite !Hi, !Hp. Qed.

Lemma elim_rhs_congr s s' p i :
  (∀ j, ent s' i j = ent s i j) → (∀ j, ent s' p j = ent s p j) →
  rhs s' i = rhs s i → rhs s' p = rhs s p →
  elim_rhs s' p i = elim_rhs s p i.
Proof. intros Hi Hp Hbi Hbp. unfold elim_rhs, factor. by rewrite !Hi, !Hp, Hbi, Hbp. Qed.

Lemma elim_row_spec s p i :
  wf s → p < i → i < N →
  ∃ s', elim_row p i s = Some s' ∧ wf s' ∧
    (∀ i', i' ≠ i → sysA s' !! i' = sysA s !! i') ∧
    (∀ i' j, ent s' i' j = if decide (i' = i) then elim_ent s p i j else ent s i' j) ∧
    (∀ i', rhs s' i' = if decide (i' = i) then elim_rhs s p i else rhs s i').
Proof.
  intros Hwf Hpi Hi. unfold elim_row.
  rewrite !getA_wf by (done || lia). simpl.
  rewrite !getb_wf by (done || lia). simpl.
  fold (factor s p i).
  destruct (setb_wf s i (fsub (rhs s i) (fmul (factor s p i) (rhs s p))))
    as (s1 & -> & Hwf1 & HA1 & Hb1); [done..|]. simpl.
  destruct (for_loop_inv
    (λ k st, wf st ∧ sysb st = sysb s1 ∧
       (∀ i', i' ≠ i → sysA st !! i' = sysA s !! i') ∧
       ∀ i' j, ent st i' j =
         if decide (i' = i ∧ p < j < k)
         then fsub (ent s i j) (fmul (factor s p i) (ent s p j))
         else ent s i' j)
    (elim_entry p i (factor s p i)) (p + 1) N s1)
    as (s2 & -> & Hwf2 & Hb2 & Hr2 & He2); [lia| | |].
  - split; [done|]. split; [done|]. split; [by rewrite HA1|].
    intros i' j. rewrite decide_False by lia. by apply ent_sysA.
  - intros k st Hk (Hwfk & Hbk & Hrk & Hek). unfold elim_entry.
    rewrite !getA_wf by (done || lia). simpl.
    destruct (setA_wf st i k (fsub (ent st i k) (fmul (factor s p i) (ent st p k))))
      as (st' & -> & Hwf' & Hb' & Hr' & He'); [done || lia..|].
    eexists. split; [done|]. split; [done|]. split; [congruence|]. split.
    + intros i' Hne. rewrite Hr', Hrk; done.
    + intros i' j. rewrite He', !Hek.
      repeat case_decide; destruct_and?; subst; try done; try lia.
  - simpl.
    destruct (setA_wf s2 i p fzero) as (s3 & -> & Hwf3 & Hb3 & Hr3 & He3);
      [done || lia..|].
    eexists. split; [done|]. split; [done|]. split; [|split].
    + intros i' Hne. rewrite Hr3, Hr2; done.
    + intros i' j. rewrite He3, He2. unfold elim_ent.
      repeat case_decide; destruct_and?; subst; try done; try lia.
    + intros i'. rewrite (rhs_sysb s1 s3) by congruence. apply Hb1.
Qed.

Lemma eliminate_spec s p :
  wf s → p < N →
  ∃ s', eliminate p s = Some s' ∧ wf s' ∧
    (∀ i, i ≤ p → sysA s' !! i = sysA s !! i) ∧
    (∀ i j, ent s' i j = if decide (p < i < N) then elim_ent s p i j else ent s i j) ∧
    (∀ i, rhs s' i = if decide (p < i < N) then elim_rhs s p i else rhs s i).
Proof.
  intros Hwf Hp. unfold eliminate.
  destruct (for_loop_inv
    (λ k st, wf st ∧
       (∀ i, i ≤ p → sysA st !! i = sysA s !! i) ∧
       (∀ i j, ent st i j = if decide (p < i < k) then elim_ent s p i j else ent s i j) ∧
       (∀ i, rhs st i = if decide (p < i < k) then elim_rhs s p i else rhs s i))
    (elim_row p) (p + 1) N s) as (s' & Hs' & Hwf' & Hr' & He' & Hb'); [lia| | |].
  - split; [done|]. split; [done|]. split; intros; by rewrite decide_False by lia.
  - intros k st Hk (Hwfk & Hrk & Hek & Hbk).
    destruct (elim_row_spec st p k) as (st' & -> & Hwf1 & Hr1 & He1 & Hb1);
      [done|lia|lia|].
    assert (∀ j, ent st k j = ent s k j) as Hk1
      by (intros j; rewrite Hek; by rewrite decide_False by lia).
    assert (∀ j, ent st p j = ent s p j) as Hk2
      by (intros j; rewrite Hek; by rewrite decide_False by lia).
    assert (rhs st k = rhs s k) as Hk3 by (rewrite Hbk; by rewrite decide_False by lia).
    assert (rhs st p = rhs s p) as Hk4 by (rewrite Hbk; by rewrite decide_False by lia).
    eexists. split; [done|]. split; [done|]. split; [|split].
    + intros i Hle. rewrite Hr1 by lia. by apply Hrk.
    + intros i j. rewrite He1, Hek, (elim_ent_congr s st) by done.
      repeat case_decide; subst; try done; try lia.
    + intros i. rewrite Hb1, Hbk, (elim_rhs_congr s st) by done.
      repeat case_decide; subst; try done; try lia.
  - exists s'. done.
Qed.

End Phases.

(** * The pivot steps and the two phases *)

Section Steps.
Context {F : Type} `{Scalar F}.
Implicit Types s : system F.

Lemma pivot_step_singular s p :
  wf s → p < N → near_zero_pivot s p = true →
  pivot_step p s = Some (Singular s).
Proof.
  intros Hwf Hp Hnz. unfold pivot_step.
  rewrite find_pivot_wf by done. simpl.
  pose proof (pivot_row_bounds s p Hp).
  rewrite getA_wf by (done || lia). simpl.
  unfold near_zero_pivot in Hnz. by rewrite Hnz.
Qed.

(** A step that does not return: the rows [p] and [pivot_row] are exchanged,
    then every row below [p] is reduced. *)
Lemma pivot_step_next s p :
  wf s → p < N → near_zero_pivot s p = false →
  ∃ s1 s2,
    swap_rows p (pivot_row s p) s = Some s1 ∧ eliminate p s1 = Some s2 ∧
    pivot_step p s = Some (Next s2) ∧ wf s1 ∧ wf s2 ∧
    (∀ i j, ent s1 i j = ent s (swap_idx p (pivot_row s p) i) j) ∧
    (∀ i, rhs s1 i = rhs s (swap_idx p (pivot_row s p) i)) ∧
    (∀ i j, ent s2 i j = if decide (p < i < N) then elim_ent s1 p i j else ent s1 i j) ∧
    (∀ i, rhs s2 i = if decide (p < i < N) then elim_rhs s1 p i else rhs s1 i).
Proof.
  intros Hwf Hp Hnz. unfold pivot_step.
  rewrite find_pivot_wf by done. simpl.
  pose proof (pivot_row_bounds s p Hp) as Hm.
  rewrite getA_wf by (done || lia). simpl.
  unfold near_zero_pivot in Hnz. rewrite Hnz.
  destruct (swap_rows_spec s p (pivot_row s p)) as (s1 & Hs1 & Hwf1 & He1 & Hb1 & _);
    [done|done|lia|].
  destruct (eliminate_spec s1 p) as (s2 & Hs2 & Hwf2 & _ & He2 & Hb2); [done..|].
  exists s1, s2. rewrite Hs1. simpl. rewrite Hs2. simpl. done.
Qed.

Lemma pivot_step_total s p :
  wf s → p < N →
  (near_zero_pivot s p = true ∧ pivot_step p s = Some (Singular s)) ∨
  (near_zero_pivot s p = false ∧ ∃ s', pivot_step p s = Some (Next s') ∧ wf s').
Proof.
  intros Hwf Hp. destruct (near_zero_pivot s p) eqn:Hnz.
  - left. split; [done|]. by apply pivot_step_singular.
  - right. split; [done|].
    destruct (pivot_step_next s p) as (s1 & s2 & _ & _ & Hstep & _ & Hwf2 & _);
      [done..|]. eauto.
Qed.

Lemma pivot_step_Singular_inv s p s' :
  pivot_step p s = Some (Singular s') → s' = s.
Proof.
  unfold pivot_step. intros Hstep.
  destruct (find_pivot s p) as [m|]; simpl in Hstep; [|done].
  destruct (getA s m p) as [pv|]; simpl in Hstep; [|done].
  destruct (flt (fabs pv) threshold); [congruence|].
  destruct (swap_rows p m s) as [s1|]; simpl in Hstep; [|done].
  destruct (eliminate p s1) as [s2|]; simpl in Hstep; done.
Qed.

Lemma forward_app l1 l2 s :
  forward (l1 ++ l2) s =
  r ← forward l1 s;
  match r with Singular s' => Some (Singular s') | Next s' => forward l2 s' end.
Proof.
  revert s. induction l1 as [|p l1 IH]; intros s; simpl; [done|].
  destruct (pivot_step p s) as [[s'|s']|]; simpl; [done| |done]. apply IH.
Qed.

Lemma forward_snoc k s :
  forward (range 0 (S k)) s =
  r ← forward (range 0 k) s;
  match r with
  | Singular s' => Some (Singular s')
  | Next s' => pivot_step k s'
  end.
Proof.
  rewrite range_snoc by lia. rewrite forward_app.
  destruct (forward (range 0 k) s) as [[s'|s']|]; simpl; [done| |done].
  destruct (pivot_step k s') as [[s''|s'']|]; done.
Qed.

(** The forward phase never leaves the arrays, and keeps their shape. *)
Lemma forward_wf s k :
  wf s → k ≤ N →
  ∃ r, forward (range 0 k) s = Some r ∧
       match r with Singular s' | Next s' => wf s' end.
Proof.
  intros Hwf. induction k as [|k IH]; intros Hk.
  - exists (Next s). done.
  - destruct IH as ([s'|s'] & Hr & Hwf'); [lia| |].
    + exists (Singular s'). rewrite forward_snoc, Hr. done.
    + rewrite forward_snoc, Hr. simpl.
      destruct (pivot_step_total s' k) as [[_ Hs]|[_ (s'' & Hs & Hwf'')]];
        [done|lia| |]; rewrite Hs; eauto.
Qed.

(** An invariant of the steps that do not return holds after any number of
    them. *)
Lemma forward_inv (I : nat → system F → Prop) s :
  wf s → I 0 s →
  (∀ k st st', k < N → wf st → I k st →
     pivot_step k st = Some (Next st') → I (S k) st') →
  ∀ k sk, k ≤ N → forward (range 0 k) s = Some (Next sk) → wf sk ∧ I k sk.
Proof.
  intros Hwf H0 Hstep. induction k as [|k IH]; intros sk Hk Hrun.
  - simpl in Hrun. by simplify_eq.
  - rewrite forward_snoc in Hrun.
    destruct (forward (range 0 k) s) as [[s'|s']|] eqn:Hr; simpl in Hrun; [done| |done].
    destruct (IH s') as [Hwf' HI]; [lia|done|].
    split.
    + destruct (pivot_step_total s' k) as [[_ Hs]|[_ (s'' & Hs & Hwf'')]];
        [done|lia| |]; congruence.
    + by apply (Hstep k s' sk); [lia|..].
Qed.

(** ** Back substitution *)

Lemma back_acc_ext s x y i k :
  (∀ j, i < j < k → x j = y j) → back_acc s x i k = back_acc s y i k.
Proof.
  intros Hxy. unfold back_acc.
  induction k as [|k IH]; [done|].
  destruct (decide (i + 1 ≤ k)) as [Hle|Hgt].
  - rewrite range_snoc by lia. rewrite !fold_left_app. simpl.
    rewrite IH by (intros; apply Hxy; lia). rewrite Hxy by lia. done.
  - by rewrite !range_nil by lia.
Qed.

Lemma back_acc_val_ext s x y i :
  (∀ j, i < j < N → x j = y j) → back_val s x i = back_val s y i.
Proof. intros Hxy. unfold back_val. by rewrite (back_acc_ext s x y). Qed.

Lemma back_row_spec s i :
  wf s → i < N →
  ∃ s', back_row i s = Some s' ∧ wf s' ∧ sysA s' = sysA s ∧
    ∀ i', rhs s' i' = if decide (i' = i) then back_val s (rhs s) i else rhs s i'.
Proof.
  intros Hwf Hi. unfold back_row.
  destruct (for_loop_inv
    (λ k st, wf st ∧ sysA st = sysA s ∧
       ∀ i', rhs st i' = if decide (i' = i) then back_acc s (rhs s) i k else rhs s i')
    (back_term i) (i + 1) N s) as (s1 & -> & Hwf1 & HA1 & Hb1); [lia| | |].
  - split; [done|]. split; [done|]. intros i'. unfold back_acc.
    rewrite range_nil by lia. simpl. by case_decide; subst.
  - intros k st Hk (Hwfk & HAk & Hbk). unfold back_term.
    rewrite !getb_wf by (done || lia). simpl.
    rewrite !getA_wf by (done || lia). simpl.
    destruct (setb_wf st i (fsub (rhs st i) (fmul (ent st i k) (rhs st k))))
      as (st' & -> & Hwf' & HA' & Hb'); [done..|].
    eexists. split; [done|]. split; [done|]. split; [congruence|].
    intros i'. rewrite Hb', (ent_sysA s st) by done.
    destruct (decide (i' = i)) as [->|Hne];
      [|rewrite Hbk; by rewrite decide_False].
    rewrite (Hbk i), (Hbk k).
    rewrite (decide_True (P := i = i)), (decide_False (P := k = i)) by lia.
    unfold back_acc. rewrite (range_snoc (i + 1) k) by lia.
    by rewrite fold_left_app.
  - simpl. rewrite getb_wf, getA_wf by done. simpl.
    destruct (setb_wf s1 i (fdiv (rhs s1 i) (ent s1 i i)))
      as (s2 & -> & Hwf2 & HA2 & Hb2); [done..|].
    eexists. split; [done|]. split; [done|]. split; [congruence|].
    intros i'. rewrite Hb2, (ent_sysA s s1) by done.
    destruct (decide (i' = i)) as [->|Hne]; [|rewrite Hb1; by rewrite decide_False].
    rewrite Hb1. by rewrite decide_True.
Qed.

Lemma back_val_congr s s' x y i :
  (∀ j, ent s' i j = ent s i j) → rhs s' i = rhs s i →
  (∀ j, i < j < N → x j = y j) → back_val s' x i = back_val s y i.
Proof.
  intros HE Hb Hxy. unfold back_val. rewrite HE. f_equal.
  rewrite (back_acc_ext s' x y) by done.
  unfold back_acc. rewrite Hb. generalize (rhs s i).
  induction (range (i + 1) N) as [|j l IH]; intros a; simpl; [done|].
  by rewrite HE, IH.
Qed.

(** Back substitution never leaves the arrays, does not touch [A], and
    leaves in [b] the vector [x] with
    [x i = (b i - A i (i+1) * x (i+1) - ... - A i (N-1) * x (N-1)) / A i i]. *)
Lemma back_substitute_spec s :
  wf s →
  ∃ s', back_substitute s = Some s' ∧ wf s' ∧ sysA s' = sysA s ∧
    ∀ i, i < N → rhs s' i = back_val s (rhs s') i.
Proof.
  intros Hwf. unfold back_substitute.
  destruct (for_loop_down_inv
    (λ k st, wf st ∧ sysA st = sysA s ∧
       (∀ i, i < k → rhs st i = rhs s i) ∧
       (∀ i, k ≤ i < N → rhs st i = back_val s (rhs st) i))
    back_row N s) as (s' & -> & Hwf' & HA' & _ & Hb'); [| |].
  - split; [done|]. split; [done|]. split; [done|]. intros i Hi. lia.
  - intros k st Hk (Hwfk & HAk & Hlo & Hhi).
    destruct (back_row_spec st k) as (st' & -> & Hwf1 & HA1 & Hb1); [done..|].
    eexists. split; [done|]. split; [done|]. split; [congruence|]. split.
    + intros i Hi. rewrite Hb1. rewrite decide_False by lia. apply Hlo. lia.
    + intros i Hi. rewrite Hb1.
      assert (∀ j, i < j < N → rhs st j = rhs st' j) as Hx.
      { intros j Hj. rewrite Hb1. by rewrite decide_False by lia. }
      destruct (decide (i = k)) as [->|Hne].
      * apply back_val_congr; [intros; by apply ent_sysA|apply Hlo; lia|done].
      * rewrite Hhi by lia. by apply back_acc_val_ext.
  - exists s'. split; [done|]. split; [done|]. split; [done|].
    intros i Hi. apply Hb'. lia.
Qed.

End Steps.

(** * Properties of [solveMatrix] that hold for every scalar type *)

Section Contract.
Context {F : Type} `{Scalar F}.
Implicit Types s : system F.

Lemma solveMatrix_Next s sN :
  wf s → forward (range 0 N) s = Some (Next sN) →
  ∃ s', back_substitute sN = Some s' ∧ solveMatrix s = Some (true, s') ∧
        wf sN ∧ wf s' ∧ sysA s' = sysA sN ∧
        ∀ i, i < N → rhs s' i = back_val sN (rhs s') i.
Proof.
  intros Hwf Hrun.
  destruct (forward_wf s N Hwf) as (r & Hr & Hwfr); [lia|].
  rewrite Hrun in Hr. simplify_eq.
  destruct (back_substitute_spec sN Hwfr) as (s' & Hs' & Hwf' & HA' & Hb').
  exists s'. unfold solveMatrix. rewrite Hrun. simpl. rewrite Hs'. done.
Qed.

Lemma solveMatrix_true_inv s s' :
  solveMatrix s = Some (true, s') →
  ∃ sN, forward (range 0 N) s = Some (Next sN) ∧ back_substitute sN = Some s'.
Proof.
  unfold solveMatrix. intros Hsolve.
  destruct (forward (range 0 N) s) as [[sN|sN]|]; simpl in Hsolve; [done| |done].
  destruct (back_substitute sN) as [s''|] eqn:Hback; simpl in Hsolve; [|done].
  simplify_eq. eauto.
Qed.

Lemma solveMatrix_false_inv s s' :
  solveMatrix s = Some (false, s') → forward (range 0 N) s = Some (Singular s').
Proof.
  unfold solveMatrix. intros Hsolve.
  destruct (forward (range 0 N) s) as [[sN|sN]|]; simpl in Hsolve; [|  |done].
  - by simplify_eq.
  - destruct (back_substitute sN); simpl in Hsolve; done.
Qed.

Lemma solveMatrix_total s :
  wf s → ∃ ok s', solveMatrix s = Some (ok, s') ∧ wf s'.
Proof.
  intros Hwf.
  destruct (forward_wf s N Hwf) as ([s'|sN] & Hr & Hwfr); [lia| |].
  - exists false, s'. unfold solveMatrix. rewrite Hr. done.
  - destruct (solveMatrix_Next s sN) as (s' & _ & Hs & _ & Hwf' & _); [done..|].
    eauto.
Qed.

(** The first step that returns, if any. *)
Lemma forward_Singular_inv s k s' :
  forward (range 0 k) s = Some (Singular s') →
  ∃ p, p < k ∧ forward (range 0 p) s = Some (Next s') ∧
       pivot_step p s' = Some (Singular s').
Proof.
  induction k as [|k IH]; intros Hrun; [done|].
  rewrite forward_snoc in Hrun.
  destruct (forward (range 0 k) s) as [[sk|sk]|] eqn:Hr; simpl in Hrun; [| |done].
  - simplify_eq. destruct IH as (p & Hp & Hrun & Hstep); [done|].
    exists p. split; [lia|done].
  - exists k. split; [lia|].
    pose proof (pivot_step_Singular_inv sk k s' Hrun) as ->. done.
Qed.

Lemma forward_Singular_intro s p sp :
  p < N → forward (range 0 p) s = Some (Next sp) →
  pivot_step p sp = Some (Singular sp) →
  forward (range 0 N) s = Some (Singular sp).
Proof.
  intros Hp Hrun Hstep.
  rewrite (range_split 0 (S p) N), forward_app, forward_snoc by lia.
  rewrite Hrun. simpl. rewrite Hstep. done.
Qed.

Lemma fails_at_step s p sp :
  fails_at s p sp → pivot_step p sp = Some (Singular sp).
Proof.
  intros (Hp & Hrun & m & pv & Hm & Hpv & Hlt).
  unfold pivot_step. rewrite Hm. simpl. rewrite Hpv. simpl. by rewrite Hlt.
Qed.

Lemma step_Singular_fails s p sp :
  p < N → forward (range 0 p) s = Some (Next sp) →
  pivot_step p sp = Some (Singular sp) → fails_at s p sp.
Proof.
  intros Hp Hrun Hstep. split; [done|]. split; [done|].
  unfold pivot_step in Hstep.
  destruct (find_pivot sp p) as [m|] eqn:Hm; simpl in Hstep; [|done].
  destruct (getA sp m p) as [pv|] eqn:Hpv; simpl in Hstep; [|done].
  exists m, pv. destruct (flt (fabs pv) threshold) eqn:Hlt; [done|].
  destruct (swap_rows p m sp) as [s1|]; simpl in Hstep; [|done].
  destruct (eliminate p s1) as [s2|]; simpl in Hstep; done.
Qed.

(** C2: the call returns [false] exactly when some pivot step finds the
    selected entry below the threshold; the arrays are then as that step
    found them (nothing of the step has been applied), the only signal is the
    returned [bool], and in every other case the call returns [true]. *)
Theorem solveMatrix_false_iff s :
  wf s →
  (∀ s', solveMatrix s = Some (false, s') ↔ ∃ p, fails_at s p s') ∧
  ((∃ s', solveMatrix s = Some (true, s')) ↔ ¬ ∃ p sp, fails_at s p sp) ∧
  (∃ ok s', solveMatrix s = Some (ok, s')).
Proof.
  intros Hwf.
  assert (∀ s', solveMatrix s = Some (false, s') ↔ ∃ p, fails_at s p s') as Hfalse.
  { intros s'. split.
    - intros Hsolve%solveMatrix_false_inv.
      destruct (forward_Singular_inv s N s' Hsolve) as (p & Hp & Hrun & Hstep).
      exists p. by apply step_Singular_fails.
    - intros (p & Hfail). unfold solveMatrix.
      rewrite (forward_Singular_intro s p s'); [done|apply Hfail..|].
      by apply (fails_at_step s p). }
  split; [done|]. split.
  - split.
    + intros (s' & Htrue) (p & sp & Hfail).
      assert (solveMatrix s = Some (false, sp)) as Hf by (apply Hfalse; eauto).
      congruence.
    + intros Hnone.
      destruct (solveMatrix_total s Hwf) as ([|] & s' & Hs & _); [eauto|].
      destruct Hnone. apply Hfalse in Hs as (p & Hfail). eauto.
  - destruct (solveMatrix_total s Hwf) as (ok & s' & Hs & _). eauto.
Qed.

(** C4: when the selected row [max_row] differs from [p], the whole rows
    [p] and [max_row] of [A] (all [N] columns) and the entries [b[p]] and
    [b[max_row]] are exchanged and nothing else changes; when [max_row] is
    [p] nothing changes at all.  Every pivot step that goes on performs
    exactly this exchange with the row its scan selected. *)
Theorem swap_rows_exchange s p max_row :
  wf s → p < N → max_row < N →
  (∃ s', swap_rows p max_row s = Some s' ∧
     (max_row ≠ p →
        sysA s' !! p = sysA s !! max_row ∧ sysA s' !! max_row = sysA s !! p ∧
        sysb s' !! p = sysb s !! max_row ∧ sysb s' !! max_row = sysb s !! p ∧
        ∀ i, i ≠ p → i ≠ max_row →
             sysA s' !! i = sysA s !! i ∧ sysb s' !! i = sysb s !! i) ∧
     (max_row = p → s' = s)) ∧
  (∀ s2, pivot_step p s = Some (Next s2) →
     ∃ m s1, find_pivot s p = Some m ∧ p ≤ m < N ∧
             swap_rows p m s = Some s1 ∧ eliminate p s1 = Some s2).
Proof.
  intros Hwf Hp Hm. split.
  - destruct (swap_rows_spec s p max_row) as (s' & Hs' & Hwf' & He & Hb & Hr);
      [done..|].
    exists s'. split; [done|]. split.
    + intros Hne.
      assert (swap_idx p max_row p = max_row) as Hpp
        by (unfold swap_idx; by rewrite decide_True).
      assert (swap_idx p max_row max_row = p) as Hmm
        by (unfold swap_idx; rewrite decide_False by done; by rewrite decide_True).
      split; [|split; [|split; [|split]]].
      * apply row_ext; try done. intros j _. by rewrite He, Hpp.
      * apply row_ext; try done. intros j _. by rewrite He, Hmm.
      * apply rhs_ext; try done. by rewrite Hb, Hpp.
      * apply rhs_ext; try done. by rewrite Hb, Hmm.
      * intros i Hip Him. split; [by apply Hr|].
        destruct (decide (i < N)) as [Hi|Hi].
        -- apply rhs_ext; try done. by rewrite Hb, swap_idx_other.
        -- destruct Hwf as (_ & _ & Hlb), Hwf' as (_ & _ & Hlb').
           rewrite !lookup_ge_None_2 by lia. done.
    + intros ->. unfold swap_rows in Hs'.
      rewrite decide_False in Hs' by tauto. congruence.
  - intros s2 Hstep.
    destruct (pivot_step_total s p Hwf Hp) as [[_ Hs]|[Hnz _]]; [congruence|].
    destruct (pivot_step_next s p Hwf Hp Hnz) as (s1 & s2' & Hs1 & Hs2 & Hs & _).
    exists (pivot_row s p), s1. rewrite find_pivot_wf by done.
    pose proof (pivot_row_bounds s p Hp). split; [done|]. split; [done|].
    split; [done|]. congruence.
Qed.

(** What a step that goes on does to the arrays, in one statement. *)
Lemma pivot_step_Next_inv s p s' :
  wf s → p < N → pivot_step p s = Some (Next s') →
  near_zero_pivot s p = false ∧
  ∃ s1, swap_rows p (pivot_row s p) s = Some s1 ∧ eliminate p s1 = Some s' ∧
    wf s1 ∧ wf s' ∧
    (∀ i j, ent s1 i j = ent s (swap_idx p (pivot_row s p) i) j) ∧
    (∀ i, rhs s1 i = rhs s (swap_idx p (pivot_row s p) i)) ∧
    (∀ i j, ent s' i j = if decide (p < i < N) then elim_ent s1 p i j else ent s1 i j) ∧
    (∀ i, rhs s' i = if decide (p < i < N) then elim_rhs s1 p i else rhs s1 i).
Proof.
  intros Hwf Hp Hstep.
  destruct (pivot_step_total s p Hwf Hp) as [[_ Hs]|[Hnz _]]; [congruence|].
  split; [done|].
  destruct (pivot_step_next s p Hwf Hp Hnz) as (s1 & s2 & Hs1 & Hs2 & Hs & Hrest).
  assert (s2 = s') as -> by congruence. exists s1. done.
Qed.

(** ** The triangular shape *)

Lemma pivot_step_lower_zero s k s' :
  wf s → k < N → lower_zero k s → pivot_step k s = Some (Next s') →
  lower_zero (S k) s'.
Proof.
  intros Hwf Hk Hlow Hstep q i Hq Hi.
  destruct (pivot_step_Next_inv s k s' Hwf Hk Hstep)
    as (_ & s1 & _ & _ & Hwf1 & Hwf' & He1 & _ & He' & _).
  pose proof (pivot_row_bounds s k Hk) as Hm.
  assert (q < k → ent s1 i q = fzero) as Hold.
  { intros Hqk. rewrite He1. apply Hlow; [done|].
    unfold swap_idx. repeat case_decide; lia. }
  rewrite He'. case_decide as Hik.
  - unfold elim_ent. case_decide as Hqk; [done|].
    rewrite decide_False by lia. apply Hold. lia.
  - apply Hold. lia.
Qed.

Lemma forward_lower_zero s k sk :
  wf s → k ≤ N → forward (range 0 k) s = Some (Next sk) → lower_zero k sk.
Proof.
  intros Hwf Hk Hrun.
  apply (forward_inv lower_zero s Hwf) with (k := k) (sk := sk); [|  |done..].
  - intros q i Hq. lia.
  - intros k0 st st' Hk0 Hwfst. by apply pivot_step_lower_zero.
Qed.

(** C5: whenever the call returns [true], every entry of [A] below the
    diagonal is exactly the constant [0.0] that line 55 stores. *)
Theorem solveMatrix_upper_triangular s s' :
  wf s → solveMatrix s = Some (true, s') →
  ∀ i p, p < i → i < N → getA s' i p = Some fzero.
Proof.
  intros Hwf Hsolve i p Hpi Hi.
  destruct (solveMatrix_true_inv s s' Hsolve) as (sN & Hrun & Hback).
  destruct (solveMatrix_Next s sN Hwf Hrun) as (s'' & Hback' & _ & HwfN & Hwf' & HA & _).
  assert (s'' = s') as -> by congruence.
  rewrite getA_wf by (done || lia). f_equal.
  rewrite (ent_sysA sN s') by done.
  apply (forward_lower_zero s N sN); (done || lia).
Qed.

(** C9: on arrays of the declared shape the call always returns, and never
    reads or writes outside them; in particular a step that finds a
    near-zero pivot makes the call return [false] in the ordinary way, with
    the arrays (still of the declared shape) as that step found them. *)
Theorem solveMatrix_failure_safe s :
  wf s →
  (∃ ok s', solveMatrix s = Some (ok, s') ∧ wf s') ∧
  ∀ p sp, fails_at s p sp → solveMatrix s = Some (false, sp) ∧ wf sp.
Proof.
  intros Hwf. split; [by apply solveMatrix_total|].
  intros p sp Hfail. pose proof Hfail as (Hp & Hrun & _).
  destruct (forward_wf s p Hwf) as (r & Hr & Hwfr); [lia|].
  rewrite Hrun in Hr. simplify_eq. split; [|done].
  unfold solveMatrix.
  rewrite (forward_Singular_intro s p sp); [done..|].
  by apply (fails_at_step s p).
Qed.

(** ** Rows that are done stay as they are *)

Lemma ent_lookup_eq s s' i :
  sysA s' !! i = sysA s !! i → ∀ j, ent s' i j = ent s i j.
Proof. intros Hrow j. unfold ent, getA. by rewrite Hrow. Qed.

Lemma pivot_step_keeps_rows s p s' :
  wf s → p < N → pivot_step p s = Some (Next s') →
  ∀ q, q < p → sysA s' !! q = sysA s !! q ∧ sysb s' !! q = sysb s !! q.
Proof.
  intros Hwf Hp Hstep q Hq.
  destruct (pivot_step_Next_inv s p s' Hwf Hp Hstep)
    as (_ & s1 & Hs1 & Hs' & Hwf1 & Hwf' & _ & Hb1 & _ & Hb').
  pose proof (pivot_row_bounds s p Hp) as Hm.
  destruct (swap_rows_spec s p (pivot_row s p)) as (s1' & Hs1' & _ & _ & _ & Hr1);
    [done|done|lia|].
  destruct (eliminate_spec s1 p) as (s2' & Hs2' & _ & Hr2 & _); [done..|].
  assert (s1' = s1) as -> by congruence. assert (s2' = s') as -> by congruence.
  split.
  - rewrite Hr2 by lia. apply Hr1; lia.
  - apply rhs_ext; try done; try lia.
    rewrite Hb'. rewrite decide_False by lia. rewrite Hb1.
    by rewrite swap_idx_other by lia.
Qed.

(** The diagonal entry a step leaves in row [p] is the entry its scan
    selected, which passed the test of line 33. *)
Lemma pivot_step_diag s p s' :
  wf s → p < N → pivot_step p s = Some (Next s') →
  ent s' p p = ent s (pivot_row s p) p ∧
  flt (fabs (ent s' p p)) threshold = false.
Proof.
  intros Hwf Hp Hstep.
  destruct (pivot_step_Next_inv s p s' Hwf Hp Hstep)
    as (Hnz & s1 & _ & _ & _ & _ & He1 & _ & He' & _).
  assert (ent s' p p = ent s (pivot_row s p) p) as Heq.
  { rewrite He'. rewrite decide_False by lia. rewrite He1.
    unfold swap_idx. by rewrite decide_True. }
  split; [done|]. by rewrite Heq.
Qed.

Lemma forward_keeps_rows s k k' sk sk' :
  wf s → k ≤ k' → k' ≤ N →
  forward (range 0 k) s = Some (Next sk) →
  forward (range 0 k') s = Some (Next sk') →
  ∀ q, q < k → sysA sk' !! q = sysA sk !! q ∧ sysb sk' !! q = sysb sk !! q.
Proof.
  intros Hwf Hle Hk' Hrun. revert sk'.
  induction k' as [|k' IH]; intros sk' Hrun' q Hq; [lia|].
  destruct (decide (k = S k')) as [->|Hne]; [by simplify_eq|].
  rewrite forward_snoc in Hrun'.
  destruct (forward (range 0 k') s) as [[sm|sm]|] eqn:Hr; simpl in Hrun'; [done| |done].
  destruct (IH ltac:(lia) ltac:(lia) sm eq_refl q Hq) as [HA Hb].
  destruct (forward_wf s k' Hwf) as (r & Hr' & Hwfm); [lia|].
  rewrite Hr in Hr'. simplify_eq.
  destruct (pivot_step_keeps_rows sm k' sk' Hwfm ltac:(lia) Hrun' q ltac:(lia))
    as [HA' Hb'].
  split; congruence.
Qed.

Lemma forward_diag_passed s k sk :
  wf s → k ≤ N → forward (range 0 k) s = Some (Next sk) → diag_passed k sk.
Proof.
  intros Hwf Hk Hrun.
  apply (forward_inv diag_passed s Hwf) with (k := k) (sk := sk); [| |done..].
  - intros i Hi. lia.
  - intros k0 st st' Hk0 Hwfst Hdiag Hstep i Hi.
    destruct (decide (i = k0)) as [->|Hne].
    + by apply (pivot_step_diag st k0 st').
    + destruct (pivot_step_keeps_rows st k0 st' Hwfst Hk0 Hstep i) as [HA _]; [lia|].
      rewrite (ent_lookup_eq st st' i HA). apply Hdiag. lia.
Qed.

End Contract.

(** * Facts about binary64 arithmetic *)

(** Derived from the bit-level specification of the primitive operations
    ([Prim2SF] and the [_spec] equations of the standard library). *)
Module Binary64.

Local Open Scope Z_scope.

(** ** Classes of values *)

Lemma SFcompare_refl x : x ≠ S754_nan → SFcompare x x = Some Eq.
Proof.
  destruct x as [[|]|[|]| |[|] m e]; simpl; try done; intros _.
  - by rewrite Z.compare_refl, Pos.compare_cont_refl.
  - by rewrite Z.compare_refl, Pos.compare_cont_refl.
Qed.

Lemma is_nan_spec x :
  is_nan x = match Prim2SF x with S754_nan => true | _ => false end.
Proof.
  unfold is_nan. rewrite FloatAxioms.eqb_spec. unfold SFeqb.
  destruct (Prim2SF x) eqn:Hx; try (rewrite SFcompare_refl; done). done.
Qed.

Lemma is_infinity_spec x :
  is_infinity x = match Prim2SF x with S754_infinity _ => true | _ => false end.
Proof.
  unfold is_infinity. rewrite FloatAxioms.eqb_spec, FloatAxioms.abs_spec.
  change (Prim2SF infinity) with (S754_infinity false).
  by destruct (Prim2SF x) as [[|]|[|]| |[|] m e].
Qed.

Lemma is_zero_spec x :
  is_zero x = match Prim2SF x with S754_zero _ => true | _ => false end.
Proof.
  unfold is_zero. rewrite FloatAxioms.eqb_spec.
  change (Prim2SF zero) with (S754_zero false).
  by destruct (Prim2SF x) as [[|]|[|]| |[|] m e].
Qed.

Lemma is_finite_spec x :
  is_finite x =
  match Prim2SF x with S754_zero _ | S754_finite _ _ _ => true | _ => false end.
Proof.
  unfold is_finite. rewrite is_nan_spec, is_infinity_spec.
  by destruct (Prim2SF x).
Qed.

Lemma is_finite_not_nan x : is_finite x = true → is_nan x = false.
Proof. rewrite is_finite_spec, is_nan_spec. by destruct (Prim2SF x). Qed.

Lemma is_nan_abs x : is_nan (abs x) = is_nan x.
Proof. rewrite !is_nan_spec, FloatAxioms.abs_spec. by destruct (Prim2SF x). Qed.

(** ** The order of the comparisons *)

Lemma SFcompare_key x y :
  x ≠ S754_nan → y ≠ S754_nan →
  match SFcompare x y with
  | Some Lt => key_lt (sf_key x) (sf_key y)
  | Some Eq => sf_key x = sf_key y
  | Some Gt => key_lt (sf_key y) (sf_key x)
  | None => False
  end.
Proof.
  intros Hx Hy.
  destruct x as [[|]|[|]| |[|] m1 e1], y as [[|]|[|]| |[|] m2 e2];
    try done; unfold key_lt; simpl; try lia;
    rewrite Pos.compare_cont_spec; simpl;
    destruct (Z.compare_spec e1 e2), (Pos.compare_spec m1 m2);
    simpl; subst; try done; lia.
Qed.

Lemma key_eq_not_lt a : ¬ key_lt a a.
Proof. unfold key_lt. lia. Qed.

Lemma SFltb_key x y :
  x ≠ S754_nan → y ≠ S754_nan →
  SFltb x y = true ↔ key_lt (sf_key x) (sf_key y).
Proof.
  intros Hx Hy. pose proof (SFcompare_key x y Hx Hy) as Hc. unfold SFltb.
  destruct (SFcompare x y) as [[| |]|]; try done; split; try done.
  - rewrite Hc. intros []%key_eq_not_lt.
  - unfold key_lt in *. lia.
Qed.

Lemma SFleb_key x y :
  x ≠ S754_nan → y ≠ S754_nan →
  SFleb x y = true ↔ ¬ key_lt (sf_key y) (sf_key x).
Proof.
  intros Hx Hy. pose proof (SFcompare_key x y Hx Hy) as Hc. unfold SFleb.
  destruct (SFcompare x y) as [[| |]|]; try done; split; try done.
  - intros _. rewrite Hc. apply key_eq_not_lt.
  - unfold key_lt in *. lia.
Qed.

Lemma Prim2SF_not_nan x : is_nan x = false → Prim2SF x ≠ S754_nan.
Proof. rewrite is_nan_spec. by destruct (Prim2SF x). Qed.

Lemma ltb_key x y :
  is_nan x = false → is_nan y = false →
  PrimFloat.ltb x y = true ↔ key_lt (fkey x) (fkey y).
Proof.
  intros Hx%Prim2SF_not_nan Hy%Prim2SF_not_nan.
  rewrite FloatAxioms.ltb_spec. by apply SFltb_key.
Qed.

Lemma leb_key x y :
  is_nan x = false → is_nan y = false →
  PrimFloat.leb x y = true ↔ ¬ key_lt (fkey y) (fkey x).
Proof.
  intros Hx%Prim2SF_not_nan Hy%Prim2SF_not_nan.
  rewrite FloatAxioms.leb_spec. by apply SFleb_key.
Qed.

(** A failed [x < y] on numbers means [y <= x]. *)
Lemma ltb_false_leb x y :
  is_nan x = false → is_nan y = false →
  PrimFloat.ltb x y = false → PrimFloat.leb y x = true.
Proof.
  intros Hx Hy Hlt. apply leb_key; [done..|].
  intros Hk. apply (ltb_key x y Hx Hy) in Hk. congruence.
Qed.

End Binary64.

(** ** Operations that are exact *)

Module Binary64Arith.
Import Binary64.
Local Open Scope Z_scope.

Abbreviation bounded64 := (bounded prec emax).
Abbreviation round64 := (binary_round_aux prec emax).

Lemma digits2_pos_shift m n :
  Zpos (digits2_pos (Pos.iter xO m n)) = Zpos (digits2_pos m) + Zpos n.
Proof.
  induction n as [|n IH] using Pos.peano_ind.
  - simpl. lia.
  - rewrite Pos.iter_succ. simpl. lia.
Qed.

Lemma iter_shr_1_shift n : ∀ m,
  SpecFloat.iter_pos shr_1 n (Build_shr_record (Zpos (Pos.iter xO m n)) false false) =
  Build_shr_record (Zpos m) false false.
Proof.
  induction n as [n IH|n IH|]; intros m; simpl.
  - by rewrite !IH.
  - by rewrite !IH.
  - done.
Qed.

(** Rounding a value that fits the format gives the value. *)
Lemma round_exact s m e :
  bounded64 m e = true → round64 s (Zpos m) e loc_Exact = S754_finite s m e.
Proof.
  unfold bounded, canonical_mantissa.
  intros [Hc He]%andb_true_iff. apply Z.eqb_eq in Hc.
  unfold binary_round_aux, shr_fexp, Zdigits2, shr_record_of_loc.
  rewrite Hc, Z.sub_diag. unfold shr, shr_m, loc_of_shr_record, round_nearest_even.
  rewrite Hc, Z.sub_diag. by rewrite He.
Qed.

Lemma round_shifted s m e n :
  bounded64 m e = true →
  round64 s (Zpos (Pos.iter xO m n)) (e - Zpos n) loc_Exact = S754_finite s m e.
Proof.
  intros Hb. pose proof Hb as Hb'. unfold bounded, canonical_mantissa in Hb'.
  apply andb_true_iff in Hb' as [Hc He]. apply Z.eqb_eq in Hc.
  unfold binary_round_aux at 1. unfold shr_fexp at 1.
  unfold Zdigits2, shr_record_of_loc.
  rewrite digits2_pos_shift.
  replace (fexp prec emax (Zpos (digits2_pos m) + Zpos n + (e - Zpos n)) - (e - Zpos n))
    with (Zpos n) by (replace (Zpos (digits2_pos m) + Zpos n + (e - Zpos n))
                        with (Zpos (digits2_pos m) + e) by lia; lia).
  unfold shr. rewrite iter_shr_1_shift.
  replace (e - Zpos n + Zpos n) with e by lia.
  unfold shr_m at 1, loc_of_shr_record, round_nearest_even.
  unfold shr_fexp, Zdigits2, shr_record_of_loc.
  rewrite Hc, Z.sub_diag. unfold shr, shr_m. by rewrite He.
Qed.

Lemma div_eucl_mul a b : 0 < b → Z.div_eucl (a * b) b = (a, 0).
Proof.
  intros Hb. pose proof (Z.div_mul a b ltac:(lia)) as Hq.
  pose proof (Z.mod_mul a b ltac:(lia)) as Hr.
  unfold Z.div, Z.modulo in *. by destruct (Z.div_eucl (a * b) b); simplify_eq/=.
Qed.

Lemma Prim2SF_one : Prim2SF 1 = sf_one.
Proof. reflexivity. Qed.

(** [x / 1] is [x]. *)
Lemma SFdiv_one s m e :
  bounded64 m e = true → SF64div (S754_finite s m e) sf_one = S754_finite s m e.
Proof.
  intros Hb. pose proof Hb as Hb'. unfold bounded, canonical_mantissa in Hb'.
  apply andb_true_iff in Hb' as [Hc He]. apply Z.eqb_eq in Hc.
  unfold SF64div, SFdiv, sf_one, SFdiv_core_binary.
  set (d := Zpos (digits2_pos m)) in *.
  change (Zdigits2 (Zpos m)) with d.
  change (Zdigits2 4503599627370496) with 53.
  assert (1 ≤ d) as Hd by (unfold d; lia).
  set (e' := Z.min _ _).
  assert ((e' = e - 1 ∧ e - -52 - e' = 53) ∨ (e' = e ∧ e - -52 - e' = 52))
    as [[He' ->]|[He' ->]].
  { unfold e', fexp, SpecFloat.emin, prec, emax in *. lia. }
  - rewrite Z.shiftl_mul_pow2 by lia.
    replace (Zpos m * 2 ^ 53) with (Zpos m~0 * 4503599627370496) by lia.
    rewrite div_eucl_mul by lia.
    change (new_location 4503599627370496 0) with loc_Exact.
    rewrite He'. rewrite xorb_false_r.
    change (m~0)%positive with (Pos.iter xO m 1).
    by apply round_shifted.
  - rewrite Z.shiftl_mul_pow2 by lia.
    replace (Zpos m * 2 ^ 52) with (Zpos m * 4503599627370496) by lia.
    rewrite div_eucl_mul by lia.
    change (new_location 4503599627370496 0) with loc_Exact.
    rewrite He'. rewrite xorb_false_r.
    by apply round_exact.
Qed.

Lemma valid_finite x s m e :
  Prim2SF x = S754_finite s m e → bounded64 m e = true.
Proof. intros Hx. pose proof (Prim2SF_valid x) as Hv. by rewrite Hx in Hv. Qed.

Lemma div_one x : is_finite x = true → PrimFloat.div x 1 = x.
Proof.
  rewrite is_finite_spec. intros Hfin. apply Prim2SF_inj.
  rewrite div_spec, Prim2SF_one.
  destruct (Prim2SF x) as [s|s| |s m e] eqn:Hx; try done.
  - by destruct s.
  - apply SFdiv_one. by apply (valid_finite x s).
Qed.

(** [0 * x] is a zero when [x] is finite. *)
Lemma mul_zero_l x :
  is_finite x = true → is_zero (PrimFloat.mul 0 x) = true.
Proof.
  rewrite is_finite_spec, is_zero_spec, mul_spec.
  change (Prim2SF 0) with (S754_zero false).
  by destruct (Prim2SF x).
Qed.

(** Subtracting a zero from a finite [y] gives [y], or a zero when [y] is
    one. *)
Lemma sub_zero_r y z :
  is_finite y = true → is_zero z = true →
  PrimFloat.sub y z = y ∨
  (is_zero y = true ∧ is_zero (PrimFloat.sub y z) = true).
Proof.
  rewrite is_finite_spec, !is_zero_spec, sub_spec.
  intros Hy Hz.
  destruct (Prim2SF y) as [sy|sy| |sy my ey] eqn:HY; try done;
    destruct (Prim2SF z) as [sz|sz| |sz mz ez] eqn:HZ; try done.
  - right. split; [done|]. by destruct sy, sz.
  - left. apply Prim2SF_inj. by rewrite sub_spec, HY, HZ.
Qed.

(** [x / x] is [1] for a finite [x] that is not a zero. *)
Lemma SFdiv_self s m e : SF64div (S754_finite s m e) (S754_finite s m e) = sf_one.
Proof.
  unfold SF64div, SFdiv, SFdiv_core_binary.
  rewrite !Z.sub_diag.
  change (Z.min (fexp prec emax 0) 0) with (-53).
  change (0 - -53) with 53.
  rewrite Z.shiftl_mul_pow2 by lia.
  replace (Zpos m * 2 ^ 53) with (9007199254740992 * Zpos m) by lia.
  rewrite div_eucl_mul by lia.
  assert (new_location (Zpos m) 0 = loc_Exact) as ->
    by (unfold new_location; by destruct (Z.even (Zpos m))).
  rewrite xorb_nilpotent. reflexivity.
Qed.

Lemma div_self x :
  is_finite x = true → is_zero x = false → PrimFloat.div x x = 1%float.
Proof.
  rewrite is_finite_spec, is_zero_spec. intros Hfin Hnz. apply Prim2SF_inj.
  rewrite div_spec, Prim2SF_one.
  destruct (Prim2SF x) as [s|s| |s m e]; try done. apply SFdiv_self.
Qed.

(** [1 * y] is [y] for a finite [y]. *)
Lemma SFmul_one s m e :
  bounded64 m e = true → SF64mul sf_one (S754_finite s m e) = S754_finite s m e.
Proof.
  intros Hb. unfold SF64mul, SFmul, sf_one.
  change (4503599627370496 * m)%positive with (Pos.iter xO m 52).
  replace (-52 + e) with (e - 52) by lia.
  change (xorb false s) with s. by apply round_shifted.
Qed.

Lemma mul_one_l y : is_finite y = true → PrimFloat.mul 1 y = y.
Proof.
  rewrite is_finite_spec. intros Hfin. apply Prim2SF_inj.
  rewrite mul_spec, Prim2SF_one.
  destruct (Prim2SF y) as [s|s| |s m e] eqn:Hy; try done.
  apply SFmul_one. by apply (valid_finite y s).
Qed.

(** [y - y] is a zero for a finite [y]. *)
Lemma sub_self y : is_finite y = true → is_zero (PrimFloat.sub y y) = true.
Proof.
  rewrite is_finite_spec, is_zero_spec, sub_spec. intros Hfin.
  destruct (Prim2SF y) as [s|s| |s m e]; try done.
  - by destruct s.
  - unfold SF64sub, SFsub. by rewrite Z.sub_diag.
Qed.

(** A zero divided by a finite number that is not a zero is a zero. *)
Lemma div_zero_l z x :
  is_zero z = true → is_finite x = true → is_zero x = false →
  is_zero (PrimFloat.div z x) = true.
Proof.
  rewrite is_finite_spec, !is_zero_spec, div_spec.
  by destruct (Prim2SF z), (Prim2SF x).
Qed.

(** A zero times a finite number is a zero. *)
Lemma mul_zero_finite z y :
  is_zero z = true → is_finite y = true → is_zero (PrimFloat.mul z y) = true.
Proof.
  rewrite is_finite_spec, !is_zero_spec, mul_spec.
  by destruct (Prim2SF z), (Prim2SF y).
Qed.

(** The difference of two zeros is a zero. *)
Lemma sub_zero_zero a b :
  is_zero a = true → is_zero b = true → is_zero (PrimFloat.sub a b) = true.
Proof.
  rewrite !is_zero_spec, sub_spec.
  by destruct (Prim2SF a) as [[|]|?| |? ? ?], (Prim2SF b) as [[|]|?| |? ? ?].
Qed.

(** A zero is below the threshold of line 33. *)
Lemma zero_near_zero x :
  is_zero x = true → PrimFloat.ltb (abs x) threshold = true.
Proof.
  rewrite is_zero_spec, FloatAxioms.ltb_spec, FloatAxioms.abs_spec.
  by destruct (Prim2SF x).
Qed.

End Binary64Arith.

(** * Properties of the binary64 program *)

Section Float.
Implicit Types s : system float.

(** The [double] that the literal [1e-10] denotes is the one nearest to
    [10^-10]: its two neighbours are farther away. *)
Lemma threshold_nearest :
  let c := (1 # 10000000000)%Q in
  (Qabs (exact threshold - c) < Qabs (exact (next_up threshold) - c))%Q ∧
  (Qabs (exact threshold - c) < Qabs (exact (next_down threshold) - c))%Q.
Proof. split; vm_compute; reflexivity. Qed.

Lemma key_lt_trans a b c :
  key_lt a b → key_lt b c → key_lt a c.
Proof. unfold key_lt. lia. Qed.

Lemma key_le_lt_trans a b c :
  ¬ key_lt b a → key_lt b c → key_lt a c.
Proof. unfold key_lt. lia. Qed.

Lemma key_lt_not_gt a b : key_lt a b → ¬ key_lt b a.
Proof. unfold key_lt. lia. Qed.

(** The scan of column [p] up to row [k], on a column without NaN: the row
    it holds has a magnitude no smaller than every row seen and strictly
    larger than every row before it. *)
Lemma scan_first_max s p k :
  (∀ i, (p ≤ i < N)%nat → is_nan (ent s i p) = false) →
  (p < k)%nat → (k ≤ N)%nat →
  let K i := fkey (abs (ent s i p)) in
  let m := fold_left (scan_pure s p) (range (p + 1) k) p in
  (∀ i, (p ≤ i < k)%nat → ¬ key_lt (K m) (K i)) ∧
  (∀ i, (p ≤ i < m)%nat → key_lt (K i) (K m)).
Proof.
  intros Hnan Hpk Hk K. induction k as [|k IH]; [lia|].
  destruct (decide (p = k)) as [->|Hne].
  - rewrite range_nil by lia. simpl. split.
    + intros i Hi. assert (i = k) as -> by lia. apply Binary64.key_eq_not_lt.
    + intros i Hi. lia.
  - rewrite range_snoc by lia. rewrite fold_left_app. simpl.
    destruct IH as [IH1 IH2]; [lia|lia|].
    pose proof (scan_upto_bounds s p k ltac:(lia)) as Hb.
    set (m := fold_left _ _ _) in *.
    unfold scan_pure, fgt. simpl.
    destruct (PrimFloat.ltb (abs (ent s m p)) (abs (ent s k p))) eqn:Hlt.
    + apply Binary64.ltb_key in Hlt;
        [|rewrite Binary64.is_nan_abs; apply Hnan; lia..].
      fold (K m) (K k) in Hlt. split.
      * intros i Hi. destruct (decide (i = k)) as [->|Hik];
          [apply Binary64.key_eq_not_lt|].
        apply key_lt_not_gt. apply key_le_lt_trans with (K m); [|done].
        apply IH1. lia.
      * intros i Hi. destruct (decide (i < m)%nat) as [Him|Him].
        -- apply key_lt_trans with (K m); [|done]. apply IH2. lia.
        -- apply key_le_lt_trans with (K m); [|done]. apply IH1. lia.
    + split; [|done].
      intros i Hi. destruct (decide (i = k)) as [->|Hik]; [|apply IH1; lia].
      intros Hgt. apply Binary64.ltb_key in Hgt;
        [|rewrite Binary64.is_nan_abs; apply Hnan; lia..].
      congruence.
Qed.

(** C3, for a column without NaN: at a pivot step whose column holds no NaN
    in the rows [p..N-1], the scan selects the first row, in index order,
    whose entry has the largest magnitude: every row of the range is [<=] it
    and every earlier row of the range is strictly smaller. *)
Theorem find_pivot_first_max s p :
  wf s → (p < N)%nat →
  (∀ i, (p ≤ i < N)%nat → is_nan (ent s i p) = false) →
  ∃ max_row, find_pivot s p = Some max_row ∧ first_max s p max_row.
Proof.
  intros Hwf Hp Hnan. exists (pivot_row s p).
  pose proof (pivot_row_bounds s p Hp) as Hb.
  split; [by apply find_pivot_wf|]. split; [done|].
  destruct (scan_first_max s p N Hnan) as [H1 H2]; [lia|lia|].
  fold (pivot_row s p) in H1, H2.
  split; intros i Hi.
  - apply Binary64.leb_key; [rewrite Binary64.is_nan_abs; apply Hnan; lia..|].
    by apply H1.
  - apply Binary64.ltb_key; [rewrite Binary64.is_nan_abs; apply Hnan; lia..|].
    by apply H2.
Qed.

(** C10, with NaN accounted for: the rows a pivot step has finished, and
    their entries of [b], are the same after every later step; so when the
    call reaches back substitution every division of line 67 is by a diagonal
    entry that passed the test of line 33: the entry is NaN or its magnitude
    is at least [1e-10], never a zero or a number below the threshold. *)
Theorem diagonal_divisors s :
  wf s →
  (∀ k k' sk sk', (k ≤ k')%nat → (k' ≤ N)%nat →
     forward (range 0 k) s = Some (Next sk) →
     forward (range 0 k') s = Some (Next sk') →
     ∀ p, (p < k)%nat →
       sysA sk' !! p = sysA sk !! p ∧ sysb sk' !! p = sysb sk !! p) ∧
  (∀ sN, forward (range 0 N) s = Some (Next sN) →
     ∃ s', solveMatrix s = Some (true, s') ∧ sysA s' = sysA sN ∧
       ∀ i, (i < N)%nat →
         let d := ent sN i i in
         rhs s' i = PrimFloat.div (back_acc sN (rhs s') i N) d ∧
         PrimFloat.ltb (abs d) threshold = false ∧
         (is_nan d = true ∨ PrimFloat.leb threshold (abs d) = true)).
Proof.
  intros Hwf. split.
  - intros k k' sk sk' Hle Hk' Hrun Hrun'. by apply (forward_keeps_rows s k k').
  - intros sN Hrun.
    destruct (solveMatrix_Next s sN Hwf Hrun) as (s' & _ & Hs & _ & _ & HA & Hb).
    exists s'. split; [done|]. split; [done|].
    intros i Hi d. split; [by apply Hb|].
    pose proof (forward_diag_passed s N sN Hwf ltac:(lia) Hrun i Hi) as Hd.
    simpl in Hd. fold d in Hd. split; [done|].
    destruct (is_nan d) eqn:Hnan; [by left|right].
    apply Binary64.ltb_false_leb; [by rewrite Binary64.is_nan_abs|done|done].
Qed.

End Float.

(** * The identity system *)

Section Identity.
Import Binary64 Binary64Arith.
Implicit Types s : system float.

Lemma is_zero_finite x : is_zero x = true → is_finite x = true.
Proof. rewrite is_zero_spec, is_finite_spec. by destruct (Prim2SF x). Qed.

Lemma feq_finite x v : feq x v → is_finite v = true → is_finite x = true.
Proof. intros [->|[Hx _]] Hv; [done|by apply is_zero_finite]. Qed.

Lemma feq_eqb x v : feq x v → is_finite v = true → PrimFloat.eqb x v = true.
Proof.
  intros Hxv Hv. rewrite FloatAxioms.eqb_spec. unfold SFeqb.
  destruct Hxv as [->|[Hx Hz]].
  - rewrite SFcompare_refl; [done|].
    apply Prim2SF_not_nan. by apply is_finite_not_nan.
  - rewrite is_zero_spec in Hx, Hz.
    by destruct (Prim2SF x), (Prim2SF v).
Qed.

(** [y - 0 * x] is [y] as a number. *)
Lemma feq_sub_zero_mul y x v :
  feq y v → is_finite v = true → is_finite x = true →
  feq (PrimFloat.sub y (PrimFloat.mul 0 x)) v.
Proof.
  intros Hyv Hv Hx.
  pose proof (feq_finite y v Hyv Hv) as Hy.
  destruct (sub_zero_r y (PrimFloat.mul 0 x) Hy (mul_zero_l x Hx)) as [->|[Hy0 Hz]];
    [done|].
  right. split; [done|]. destruct Hyv as [<-|[_ Hv0]]; done.
Qed.

Lemma feq_div_one y v :
  feq y v → is_finite v = true → feq (PrimFloat.div y 1) v.
Proof.
  intros Hyv Hv. rewrite div_one; [done|]. by apply (feq_finite y v).
Qed.

Lemma sysA_ext s s' :
  wf s → wf s' → (∀ i j, i < N → j < N → ent s i j = ent s' i j) →
  sysA s = sysA s'.
Proof.
  intros Hwf Hwf' Hent.
  pose proof Hwf as (HA & _). pose proof Hwf' as (HA' & _).
  apply list_eq_same_length with N; [done|done|].
  intros i x y Hi Hx Hy.
  pose proof (row_ext s s' i i Hwf Hwf' Hi Hi (λ j Hj, Hent i j Hi Hj)) as Hrow.
  congruence.
Qed.

Lemma identity_ent b i j :
  i < N → j < N →
  ent (System identity_matrix b) i j = if decide (i = j) then 1%float else 0%float.
Proof.
  intros Hi Hj.
  do 10 (destruct i as [|i];
    [do 10 (destruct j as [|j]; [reflexivity|]); unfold N in *; lia|]).
  unfold N in *; lia.
Qed.

Lemma identity_pivot b k :
  k < N →
  pivot_row (System identity_matrix b) k = k ∧
  near_zero_pivot (System identity_matrix b) k = false.
Proof.
  intros Hk.
  do 10 (destruct k as [|k]; [by vm_compute|]). unfold N in *; lia.
Qed.

(** A pivot step on the identity leaves [A] as it is and subtracts
    [0 * b[k]] from the entries of [b] below [k]. *)
Lemma identity_step b k s' :
  length b = N → k < N →
  pivot_step k (System identity_matrix b) = Some (Next s') →
  sysA s' = identity_matrix ∧
  ∀ i, rhs s' i =
       if decide (k < i < N)
       then PrimFloat.sub (rhs (System identity_matrix b) i)
              (PrimFloat.mul 0 (rhs (System identity_matrix b) k))
       else rhs (System identity_matrix b) i.
Proof.
  intros Hb Hk Hstep.
  set (s := System identity_matrix b) in *.
  assert (wf s) as Hwf by (by apply wf_concrete).
  destruct (pivot_step_Next_inv s k s' Hwf Hk Hstep)
    as (_ & s1 & _ & _ & Hwf1 & Hwf' & He1 & Hb1 & He' & Hb').
  destruct (identity_pivot b k Hk) as [Hrow _]. fold s in Hrow.
  rewrite Hrow in He1, Hb1.
  assert (∀ i j, ent s1 i j = ent s i j) as HE1
    by (intros; by rewrite He1, swap_idx_same).
  assert (∀ i, rhs s1 i = rhs s i) as HB1
    by (intros; by rewrite Hb1, swap_idx_same).
  assert (∀ i, k < i < N → factor s1 k i = 0%float) as Hfac.
  { intros i Hi. unfold factor. rewrite !HE1. unfold s.
    rewrite !identity_ent by lia.
    rewrite decide_False by lia. by rewrite decide_True. }
  split.
  - change identity_matrix with (sysA s). apply sysA_ext; [done..|].
    intros i j Hi Hj. rewrite He'. case_decide as Hik; [|apply HE1].
    unfold elim_ent. rewrite Hfac by done. rewrite !HE1. unfold s.
    rewrite !identity_ent by lia.
    repeat case_decide; subst; try lia; by vm_compute.
  - intros i. rewrite Hb'. case_decide as Hik; [|apply HB1].
    unfold elim_rhs. rewrite Hfac by done. by rewrite !HB1.
Qed.

Lemma all_finite_rhs A v i : all_finite v → i < length v → is_finite (rhs (System A v) i) = true.
Proof.
  intros Hfin Hi. unfold rhs, getb. simpl.
  destruct (lookup_lt_is_Some_2 v i Hi) as [x Hx]. rewrite Hx. simpl.
  by apply (Forall_lookup_1 _ _ _ _ Hfin Hx).
Qed.

Lemma identity_forward v k sk :
  length v = N → all_finite v → k ≤ N →
  forward (range 0 k) (System identity_matrix v) = Some (Next sk) →
  wf sk ∧ sysA sk = identity_matrix ∧
  ∀ i, i < N → feq (rhs sk i) (rhs (System identity_matrix v) i).
Proof.
  intros Hlen Hfin Hk Hrun.
  set (s0 := System identity_matrix v) in *.
  assert (wf s0) as Hwf by (by apply wf_concrete).
  assert (∀ i, i < N → is_finite (rhs s0 i) = true) as Hv
    by (intros; apply all_finite_rhs; [done|lia]).
  destruct (forward_inv
    (λ _ st, sysA st = identity_matrix ∧ ∀ i, i < N → feq (rhs st i) (rhs s0 i))
    s0 Hwf) with (k := k) (sk := sk) as (Hwfk & HA & Hb); [| |done..|done].
  - split; [done|]. intros i _. by left.
  - intros k0 st st' Hk0 Hwfst [HAst Hbst] Hstep.
    destruct st as [A b]. simpl in HAst. subst A.
    destruct (identity_step b k0 st') as [HA' Hb']; [apply Hwfst|done..|].
    split; [done|]. intros i Hi. rewrite Hb'.
    case_decide; [|by apply Hbst].
    apply feq_sub_zero_mul; [by apply Hbst|by apply Hv|].
    apply (feq_finite _ (rhs s0 k0)); [by apply Hbst|by apply Hv].
Qed.

(** The terms back substitution subtracts on the identity are all
    [0 * x j]. *)
Lemma identity_back_acc b (x : nat → float) v i k :
  i < N → k ≤ N → is_finite v = true →
  feq (rhs (System identity_matrix b) i) v →
  (∀ j, i < j < N → is_finite (x j) = true) →
  feq (back_acc (System identity_matrix b) x i k) v.
Proof.
  intros Hi Hk Hv Hinit Hx. unfold back_acc.
  induction k as [|k IH].
  - by rewrite range_nil by lia.
  - destruct (decide (i + 1 ≤ k)) as [Hle|Hgt].
    + rewrite range_snoc by lia. rewrite fold_left_app. simpl.
      rewrite identity_ent by lia. rewrite decide_False by lia.
      apply feq_sub_zero_mul; [apply IH; lia|done|apply Hx; lia].
    + by rewrite range_nil by lia.
Qed.

(** C7, for a finite vector: on the identity matrix and a vector [v] of
    finite entries the call returns [true], leaves [A] the identity and
    leaves in [b] a vector equal to [v] as numbers: every entry compares
    equal to the entry of [v], and is the same [double] unless that entry is
    a zero. *)
Theorem solveMatrix_identity (v : list float) :
  length v = N → all_finite v →
  ∃ x, solveMatrix (System identity_matrix v) = Some (true, System identity_matrix x) ∧
       length x = N ∧
       ∀ i vi xi, v !! i = Some vi → x !! i = Some xi →
         PrimFloat.eqb xi vi = true ∧ (xi = vi ∨ is_zero vi = true).
Proof.
  intros Hlen Hfin.
  set (s0 := System identity_matrix v).
  assert (wf s0) as Hwf by (by apply wf_concrete).
  destruct (forward_wf s0 N Hwf) as (r & Hrun & Hwfr); [lia|].
  assert (∃ sN, r = Next sN) as [sN ->].
  { destruct r as [sp|sN]; [|eauto].
    destruct (forward_Singular_inv s0 N sp Hrun) as (p & Hp & Hrunp & Hstep).
    destruct (identity_forward v p sp Hlen Hfin) as (Hwfp & HAp & _); [lia|done|].
    destruct sp as [A b]. simpl in HAp. subst A.
    destruct (identity_pivot b p Hp) as [_ Hnz].
    destruct (pivot_step_total (System identity_matrix b) p Hwfp Hp)
      as [[Hnz' _]|[_ (s' & Hs' & _)]]; congruence. }
  destruct (identity_forward v N sN Hlen Hfin) as (HwfN & HAN & HbN); [lia|done|].
  destruct (solveMatrix_Next s0 sN Hwf Hrun) as (s' & _ & Hs & _ & Hwf' & HA' & Hb').
  assert (∀ i, i < N → is_finite (rhs s0 i) = true) as Hv
    by (intros; apply all_finite_rhs; [done|lia]).
  assert (∀ d i, N - i ≤ d → i < N → feq (rhs s' i) (rhs s0 i)) as Hsol.
  { induction d as [|d IH]; intros i Hd Hi; [lia|].
    rewrite Hb' by done. unfold back_val.
    destruct sN as [A b]. simpl in HAN. subst A.
    rewrite identity_ent by done. rewrite decide_True by done.
    apply feq_div_one; [|by apply Hv].
    apply identity_back_acc; [done|lia|by apply Hv|by apply HbN|].
    intros j Hj. apply (feq_finite _ (rhs s0 j)); [apply IH; lia|apply Hv; lia]. }
  destruct s' as [A x]. simpl in HA'. rewrite HAN in HA'. subst A.
  exists x. split; [done|]. split; [apply Hwf'|].
  intros i vi xi Hvi Hxi.
  assert (i < N) as Hi by (rewrite <- Hlen; by eapply lookup_lt_Some).
  specialize (Hsol N i ltac:(lia) Hi). specialize (Hv i Hi).
  unfold rhs, getb in Hsol, Hv. simpl in Hsol, Hv. rewrite Hvi in Hsol, Hv.
  rewrite Hxi in Hsol. simpl in Hsol, Hv.
  split; [by apply feq_eqb|]. destruct Hsol as [->|[_ Hz]]; eauto.
Qed.

End Identity.

(** * Zero rows and identical rows *)

Section Singular.
Import Binary64 Binary64Arith.
Implicit Types s : system float.

Lemma finite_matrix_ent s i j :
  wf s → finite_matrix s = true → i < N → j < N → is_finite (ent s i j) = true.
Proof.
  intros Hwf Hfin Hi Hj.
  destruct (wf_row s i Hwf Hi) as (row & Hrow & Hlen).
  rewrite (ent_row s i j row Hrow).
  destruct (lookup_lt_is_Some_2 row j) as [x Hx]; [lia|]. rewrite Hx. simpl.
  unfold finite_matrix in Hfin. rewrite forallb_forall in Hfin.
  specialize (Hfin row). rewrite forallb_forall in Hfin.
  apply Hfin; apply list_elem_of_In; by eapply list_elem_of_lookup_2.
Qed.

Lemma finite_steps_head k s :
  k < N → finite_steps (range k N) s = true → finite_matrix s = true.
Proof.
  intros Hk. rewrite range_cons by done. simpl. by intros [? _]%andb_true_iff.
Qed.

Lemma finite_steps_next k s s' :
  k < N → finite_steps (range k N) s = true →
  pivot_step k s = Some (Next s') → finite_steps (range (S k) N) s' = true.
Proof.
  intros Hk Hfin Hstep. rewrite range_cons in Hfin by done. simpl in Hfin.
  rewrite Hstep in Hfin. by apply andb_true_iff in Hfin as [_ ?].
Qed.

Lemma swap_idx_pivot p m i : swap_idx p m i = p → i = m.
Proof. unfold swap_idx. repeat case_decide; congruence. Qed.

Lemma swap_idx_inj p m i i' : swap_idx p m i = swap_idx p m i' → i = i'.
Proof. intros Heq. by rewrite <- (swap_idx_invol p m i), Heq, swap_idx_invol. Qed.

(** One step that goes on keeps a zero row or a pair of identical rows
    among the rows still to be used. *)
Lemma pivot_step_degenerate s p s' :
  wf s → p < N → finite_matrix s = true → degenerate_from p s →
  pivot_step p s = Some (Next s') → degenerate_from (S p) s'.
Proof.
  intros Hwf Hp Hfin Hdeg Hstep.
  destruct (pivot_step_Next_inv s p s' Hwf Hp Hstep)
    as (Hnz & s1 & _ & _ & Hwf1 & Hwf' & He1 & _ & He' & _).
  pose proof (pivot_row_bounds s p Hp) as Hm.
  set (m := pivot_row s p) in *.
  assert (∀ j, ent s1 p j = ent s m j) as Hprow
    by (intros j; rewrite He1; unfold swap_idx; by rewrite decide_True).
  assert (∀ j, j < N → is_finite (ent s1 p j) = true) as Hpfin
    by (intros j Hj; rewrite Hprow; apply finite_matrix_ent; (done || lia)).
  assert (is_zero (ent s1 p p) = false) as Hpnz.
  { destruct (is_zero (ent s1 p p)) eqn:Hz; [|done].
    apply zero_near_zero in Hz. rewrite Hprow in Hz.
    unfold near_zero_pivot in Hnz. fold m in Hnz.
    change (PrimFloat.ltb (abs (ent s m p)) threshold = false) in Hnz.
    congruence. }
  (* a row of [s], other than the selected one, at its place after the swap *)
  assert (∀ r, p ≤ r < N → r ≠ m →
            p < swap_idx p m r < N ∧ ∀ j, ent s1 (swap_idx p m r) j = ent s r j)
    as Hmove.
  { intros r Hr Hrm. split.
    - pose proof (swap_idx_ge p m r ltac:(lia) ltac:(lia)).
      pose proof (swap_idx_lt p m r Hp ltac:(lia) ltac:(lia)).
      destruct (decide (swap_idx p m r = p)) as [Heq%swap_idx_pivot|]; [done|lia].
    - intros j. by rewrite He1, swap_idx_invol. }
  (* a row equal to the pivot row is reduced to zeros *)
  assert (∀ r', p < r' < N → (∀ j, p ≤ j < N → ent s1 r' j = ent s1 p j) →
            zero_row_from (S p) r' s') as Hcancel.
  { intros r' Hr' Hsame. split; [lia|]. intros j Hj.
    rewrite He'. rewrite decide_True by done.
    unfold elim_ent. rewrite decide_False by lia. rewrite decide_True by lia.
    unfold factor. rewrite !Hsame by lia. simpl.
    rewrite div_self by (done || apply Hpfin; lia).
    rewrite mul_one_l by (apply Hpfin; lia).
    apply sub_self. apply Hpfin. lia. }
  destruct Hdeg as [(r & Hr & Hzero)|(r1 & r2 & Hr1 & Hr2 & Hne & Hsame)].
  - (* a zero row *)
    assert (r ≠ m) as Hrm.
    { intros Heq. specialize (Hzero p ltac:(lia)).
      rewrite Heq, <- Hprow in Hzero. congruence. }
    destruct (Hmove r Hr Hrm) as [Hr' Hrow]. left. exists (swap_idx p m r).
    split; [lia|]. intros j Hj.
    rewrite He'. rewrite decide_True by done.
    unfold elim_ent. rewrite decide_False by lia. rewrite decide_True by lia.
    unfold factor. rewrite !Hrow. simpl.
    apply sub_zero_zero; [apply Hzero; lia|].
    apply mul_zero_finite; [|apply Hpfin; lia].
    apply div_zero_l; [apply Hzero; lia|apply Hpfin; lia|done].
  - (* two identical rows *)
    destruct (decide (r1 = m)) as [->|Hr1m]; [|destruct (decide (r2 = m)) as [->|Hr2m]].
    + destruct (Hmove r2 Hr2 ltac:(done)) as [Hr' Hrow]. left.
      exists (swap_idx p m r2). apply Hcancel; [done|].
      intros j Hj. rewrite Hrow, Hprow. symmetry. by apply Hsame.
    + destruct (Hmove r1 Hr1 ltac:(done)) as [Hr' Hrow]. left.
      exists (swap_idx p m r1). apply Hcancel; [done|].
      intros j Hj. rewrite Hrow, Hprow. by apply Hsame.
    + destruct (Hmove r1 Hr1 Hr1m) as [Hr1' Hrow1].
      destruct (Hmove r2 Hr2 Hr2m) as [Hr2' Hrow2].
      right. exists (swap_idx p m r1), (swap_idx p m r2).
      split; [lia|]. split; [lia|]. split; [by intros ?%swap_idx_inj|].
      intros j Hj. rewrite !He'. rewrite !decide_True by done.
      unfold elim_ent, factor. rewrite !Hrow1, !Hrow2.
      by rewrite !Hsame by lia.
Qed.

(** C6, without overflow: when [A] has a row of zeros or two identical rows
    and elimination does not overflow (the entries of [A] are finite at the
    start of every pivot step), the call returns [false], whatever [b]
    holds. *)
Theorem solveMatrix_singular (A : list (list float)) (b : list float) :
  wf (System A b) → no_overflow (System A b) = true →
  (∃ r, r < N ∧ ∀ j, j < N → is_zero (ent (System A b) r j) = true) ∨
  (∃ r1 r2, r1 < N ∧ r2 < N ∧ r1 ≠ r2 ∧ A !! r1 = A !! r2) →
  ∃ s', solveMatrix (System A b) = Some (false, s').
Proof.
  intros Hwf Hfin Hdeg. set (s := System A b) in *.
  assert (degenerate_from 0 s) as Hdeg0.
  { destruct Hdeg as [(r & Hr & Hz)|(r1 & r2 & Hr1 & Hr2 & Hne & Hrows)].
    - left. exists r. split; [lia|]. intros j Hj. apply Hz. lia.
    - right. exists r1, r2. split; [lia|]. split; [lia|]. split; [done|].
      intros j _. unfold ent, getA, s. simpl. by rewrite Hrows. }
  destruct (forward_wf s N Hwf) as ([s'|sN] & Hrun & _); [lia| |].
  - exists s'. unfold solveMatrix. by rewrite Hrun.
  - exfalso.
    destruct (forward_inv
      (λ k st, degenerate_from k st ∧ finite_steps (range k N) st = true) s Hwf)
      with (k := N) (sk := sN) as (_ & HdegN & _); [done| |done|done|].
    + intros k st st' Hk Hwfst [Hd Hf] Hstep. split.
      * apply (pivot_step_degenerate st k st'); try done.
        by apply (finite_steps_head k).
      * by apply (finite_steps_next k st).
    + destruct HdegN as [(r & Hr & _)|(r1 & r2 & Hr1 & _)]; lia.
Qed.

End Singular.

(** * The call on the memory *)

Section MemoryModel.
Context {F : Type} `{Scalar F}.
Implicit Types s : system F.
Implicit Types h : Mem.mem (F := F).

Lemma getA_Some_inv s i j v :
  wf s → getA s i j = Some v → i < N ∧ j < N ∧ ent s i j = v.
Proof.
  intros (HA & Hrows & _) Hget. unfold ent. rewrite Hget. unfold getA in Hget.
  destruct (sysA s !! i) as [row|] eqn:Hrow; [|done]. simpl in Hget.
  pose proof (lookup_lt_Some _ _ _ Hrow) as Hi.
  pose proof (lookup_lt_Some _ _ _ Hget) as Hj.
  pose proof (Forall_lookup_1 _ _ _ _ Hrows Hrow) as Hlen. simpl in Hlen.
  split; [lia|]. split; [lia|done].
Qed.

Lemma getb_Some_inv s i v : wf s → getb s i = Some v → i < N ∧ rhs s i = v.
Proof.
  intros (_ & _ & Hb) Hget. unfold rhs. rewrite Hget. unfold getb in Hget.
  pose proof (lookup_lt_Some _ _ _ Hget). split; [lia|done].
Qed.

Lemma setA_Some_inv s i j v s' : wf s → setA s i j v = Some s' → i < N ∧ j < N.
Proof.
  intros Hwf Hset. unfold setA in Hset.
  destruct (sysA s !! i) as [row|] eqn:Hrow; [|done]. simpl in Hset.
  destruct (row !! j) as [x|] eqn:Hx; [|done].
  destruct (getA_Some_inv s i j x Hwf) as (? & ? & _); [|done].
  unfold getA. by rewrite Hrow.
Qed.

Lemma setb_Some_inv s i v s' : wf s → setb s i v = Some s' → i < N.
Proof.
  intros Hwf Hset. unfold setb in Hset.
  destruct (sysb s !! i) as [x|] eqn:Hx; [|done].
  by destruct (getb_Some_inv s i x Hwf Hx).
Qed.

Lemma for_loop_sim {St Mt : Type} (R : Mt → St → Prop) idx
    (bm : nat → Mt → option Mt) (bs : nat → St → option St) :
  (∀ k m x x', R m x → bs k x = Some x' → ∃ m', bm k m = Some m' ∧ R m' x') →
  ∀ m x x', R m x → for_loop idx bs x = Some x' →
    ∃ m', for_loop idx bm m = Some m' ∧ R m' x'.
Proof.
  intros Hbody. induction idx as [|k idx IH]; intros m x x' HR Hrun; simpl in *.
  - exists m. by simplify_eq.
  - destruct (bs k x) as [x1|] eqn:Hx1; [|done]. simpl in Hrun.
    destruct (Hbody k m x x1 HR Hx1) as (m1 & -> & HR1). simpl. by eapply IH.
Qed.

Lemma for_loop_ext {St : Type} idx (f g : nat → St → option St) st :
  (∀ k x, f k x = g k x) → for_loop idx f st = for_loop idx g st.
Proof.
  intros Hfg. revert st. induction idx as [|k idx IH]; intros st; [done|].
  simpl. rewrite Hfg. destruct (g k st); simpl; [apply IH|done].
Qed.

Section Call.
Variables A b : nat.
Hypothesis Hsep : A + N * N ≤ b ∨ b + N ≤ A.
Variable h0 : Mem.mem (F := F).

Local Abbreviation R := (Mem.tracks A b h0).

Lemma mem_getA h s i j v :
  Mem.holds A b h s → getA s i j = Some v → Mem.getA A h i j = Some v.
Proof.
  intros (Hwf & HA & _) Hget.
  destruct (getA_Some_inv s i j v Hwf Hget) as (Hi & Hj & <-).
  unfold Mem.getA. rewrite decide_True by done. by apply HA.
Qed.

Lemma mem_getb h s i v :
  Mem.holds A b h s → getb s i = Some v → Mem.getb b h i = Some v.
Proof.
  intros (Hwf & _ & Hb) Hget.
  destruct (getb_Some_inv s i v Hwf Hget) as (Hi & <-).
  unfold Mem.getb. rewrite decide_True by done. by apply Hb.
Qed.

Lemma mem_setA h s i j v s' :
  R h s → setA s i j v = Some s' →
  ∃ h', Mem.setA A h i j v = Some h' ∧ R h' s'.
Proof.
  intros [(Hwf & HA & Hb) (Hlen & Hfr)] Hset.
  destruct (setA_Some_inv s i j v s' Hwf Hset) as [Hi Hj].
  destruct (setA_wf s i j v Hwf Hi Hj) as (s'' & Hs'' & Hwf' & Hsb & _ & He).
  assert (s'' = s') as -> by congruence.
  unfold Mem.setA. rewrite decide_True by done. rewrite (HA i j Hi Hj). simpl.
  eexists. split; [done|].
  assert (Mem.cellA A i j < length h) as Hin
    by (eapply lookup_lt_Some; by apply HA).
  split; [split; [done|split]|split].
  - intros i' j' Hi' Hj'. rewrite He. case_decide as Hij.
    + destruct Hij as [-> ->]. by rewrite list_lookup_insert_eq.
    + rewrite list_lookup_insert_ne; [by apply HA|].
      unfold Mem.cellA, N in *. lia.
  - intros i' Hi'. rewrite (rhs_sysb s s') by done.
    rewrite list_lookup_insert_ne; [by apply Hb|].
    unfold Mem.cellA, Mem.cellb, N in *. lia.
  - by rewrite length_insert.
  - intros l HlA Hlb. rewrite list_lookup_insert_ne; [by apply Hfr|].
    unfold Mem.inA, Mem.cellA, N in *. lia.
Qed.

Lemma mem_setb h s i v s' :
  R h s → setb s i v = Some s' →
  ∃ h', Mem.setb b h i v = Some h' ∧ R h' s'.
Proof.
  intros [(Hwf & HA & Hb) (Hlen & Hfr)] Hset.
  pose proof (setb_Some_inv s i v s' Hwf Hset) as Hi.
  destruct (setb_wf s i v Hwf Hi) as (s'' & Hs'' & Hwf' & HsA & He).
  assert (s'' = s') as -> by congruence.
  unfold Mem.setb. rewrite decide_True by done. rewrite (Hb i Hi). simpl.
  eexists. split; [done|].
  assert (Mem.cellb b i < length h) as Hin
    by (eapply lookup_lt_Some; by apply Hb).
  split; [split; [done|split]|split].
  - intros i' j' Hi' Hj'. rewrite (ent_sysA s s') by done.
    rewrite list_lookup_insert_ne; [by apply HA|].
    unfold Mem.cellA, Mem.cellb, N in *. lia.
  - intros i' Hi'. rewrite He. case_decide as Hii.
    + subst i'. by rewrite list_lookup_insert_eq.
    + rewrite list_lookup_insert_ne; [by apply Hb|].
      unfold Mem.cellb in *. lia.
  - by rewrite length_insert.
  - intros l HlA Hlb. rewrite list_lookup_insert_ne; [by apply Hfr|].
    unfold Mem.inb, Mem.cellb, N in *. lia.
Qed.

Lemma mem_find_pivot h s p m :
  Mem.holds A b h s → find_pivot s p = Some m → Mem.find_pivot A h p = Some m.
Proof.
  intros Hh Hrun. unfold find_pivot, Mem.find_pivot in *.
  destruct (for_loop_sim eq (range (p + 1) N) (Mem.pivot_scan A h p) (pivot_scan s p))
    with (m := p) (x := p) (x' := m) as (m' & Hm' & ->); [|done|done|done].
  intros k c ? m1 <- Hscan. exists m1. split; [|done].
  unfold pivot_scan in Hscan. unfold Mem.pivot_scan.
  destruct (getA s k p) as [aip|] eqn:Haip; [|done]. simpl in Hscan.
  destruct (getA s c p) as [amp|] eqn:Hamp; [|done]. simpl in Hscan.
  rewrite (mem_getA h s k p aip Hh Haip). simpl.
  by rewrite (mem_getA h s c p amp Hh Hamp).
Qed.

(** A tactic for the straight-line pieces: read the array-level run one
    access at a time and replay it on the memory. *)
Ltac replay_get Hh :=
  match goal with
  | Hrun : context [getA ?s ?i ?j] |- _ =>
      let v := fresh "v" in let Hv := fresh "Hv" in
      destruct (getA s i j) as [v|] eqn:Hv; [|done]; simpl in Hrun;
      rewrite (mem_getA _ s i j v Hh Hv); simpl
  | Hrun : context [getb ?s ?i] |- _ =>
      let v := fresh "v" in let Hv := fresh "Hv" in
      destruct (getb s i) as [v|] eqn:Hv; [|done]; simpl in Hrun;
      rewrite (mem_getb _ s i v Hh Hv); simpl
  end.

Lemma mem_swap_entry p m k h s s' :
  R h s → swap_entry p m k s = Some s' →
  ∃ h', Mem.swap_entry A p m k h = Some h' ∧ R h' s'.
Proof.
  intros HR Hrun. pose proof HR as [Hh _].
  unfold swap_entry in Hrun. unfold Mem.swap_entry.
  do 2 replay_get Hh.
  destruct (setA s p k v0) as [s1|] eqn:Hs1; [|done]. simpl in Hrun.
  destruct (mem_setA h s p k v0 s1 HR Hs1) as (h1 & -> & HR1). simpl.
  by apply (mem_setA h1 s1).
Qed.

Lemma mem_swap_ranges p m h s s' :
  R h s → swap_ranges p m s = Some s' →
  ∃ h', Mem.swap_ranges A p m h = Some h' ∧ R h' s'.
Proof.
  apply (for_loop_sim R). intros k ? ? ?. apply mem_swap_entry.
Qed.

Lemma mem_swap_b p m h s s' :
  R h s → swap_b p m s = Some s' →
  ∃ h', Mem.swap_b b p m h = Some h' ∧ R h' s'.
Proof.
  intros HR Hrun. pose proof HR as [Hh _].
  unfold swap_b in Hrun. unfold Mem.swap_b.
  do 2 replay_get Hh.
  destruct (setb s p v0) as [s1|] eqn:Hs1; [|done]. simpl in Hrun.
  destruct (mem_setb h s p v0 s1 HR Hs1) as (h1 & -> & HR1). simpl.
  by apply (mem_setb h1 s1).
Qed.

Lemma mem_swap_rows p m h s s' :
  R h s → swap_rows p m s = Some s' →
  ∃ h', Mem.swap_rows A b p m h = Some h' ∧ R h' s'.
Proof.
  intros HR Hrun. unfold swap_rows in Hrun. unfold Mem.swap_rows.
  case_decide; [|exists h; by simplify_eq].
  destruct (swap_ranges p m s) as [s1|] eqn:Hs1; [|done]. simpl in Hrun.
  destruct (mem_swap_ranges p m h s s1 HR Hs1) as (h1 & -> & HR1). simpl.
  by apply (mem_swap_b p m h1 s1).
Qed.

Lemma mem_elim_entry p i f j h s s' :
  R h s → elim_entry p i f j s = Some s' →
  ∃ h', Mem.elim_entry A p i f j h = Some h' ∧ R h' s'.
Proof.
  intros HR Hrun. pose proof HR as [Hh _].
  unfold elim_entry in Hrun. unfold Mem.elim_entry.
  do 2 replay_get Hh. by apply (mem_setA h s).
Qed.

Lemma mem_elim_row p i h s s' :
  R h s → elim_row p i s = Some s' →
  ∃ h', Mem.elim_row A b p i h = Some h' ∧ R h' s'.
Proof.
  intros HR Hrun. pose proof HR as [Hh _].
  unfold elim_row in Hrun. unfold Mem.elim_row.
  do 4 replay_get Hh.
  match type of Hrun with context [setb s i ?x] =>
    destruct (setb s i x) as [s1|] eqn:Hs1; [|done];
    destruct (mem_setb h s i x s1 HR Hs1) as (h1 & -> & HR1) end.
  simpl in *.
  match type of Hrun with context [for_loop ?idx ?body s1] =>
    destruct (for_loop idx body s1) as [s2|] eqn:Hs2; [|done] end.
  simpl in Hrun.
  destruct (for_loop_sim R _ (Mem.elim_entry A p i (fdiv v v0)) _
              (λ k _ _ _, mem_elim_entry p i _ k _ _ _) h1 s1 s2 HR1 Hs2)
    as (h2 & -> & HR2).
  simpl. by apply (mem_setA h2 s2).
Qed.

Lemma mem_eliminate p h s s' :
  R h s → eliminate p s = Some s' →
  ∃ h', Mem.eliminate A b p h = Some h' ∧ R h' s'.
Proof.
  apply (for_loop_sim R). intros k ? ? ?. apply mem_elim_row.
Qed.

Lemma mem_pivot_step p h s r :
  R h s → pivot_step p s = Some r →
  ∃ rm, Mem.pivot_step A b p h = Some rm ∧ step_tracks A b h0 rm r.
Proof.
  intros HR Hrun. pose proof HR as [Hh _].
  unfold pivot_step in Hrun. unfold Mem.pivot_step.
  destruct (find_pivot s p) as [m|] eqn:Hm; [|done]. simpl in Hrun.
  rewrite (mem_find_pivot h s p m Hh Hm). simpl.
  replay_get Hh.
  destruct (flt (fabs v) threshold).
  - exists (Mem.Singular h). by simplify_eq.
  - destruct (swap_rows p m s) as [s1|] eqn:Hs1; [|done]. simpl in Hrun.
    destruct (mem_swap_rows p m h s s1 HR Hs1) as (h1 & -> & HR1). simpl.
    destruct (eliminate p s1) as [s2|] eqn:Hs2; [|done]. simpl in Hrun.
    destruct (mem_eliminate p h1 s1 s2 HR1 Hs2) as (h2 & -> & HR2). simpl.
    exists (Mem.Next h2). by simplify_eq.
Qed.

Lemma mem_forward ps h s r :
  R h s → forward ps s = Some r →
  ∃ rm, Mem.forward A b ps h = Some rm ∧ step_tracks A b h0 rm r.
Proof.
  revert h s. induction ps as [|p ps IH]; intros h s HR Hrun; simpl in *.
  - exists (Mem.Next h). by simplify_eq.
  - destruct (pivot_step p s) as [r1|] eqn:Hr1; [|done]. simpl in Hrun.
    destruct (mem_pivot_step p h s r1 HR Hr1) as (rm1 & -> & Hrm1). simpl.
    destruct rm1 as [h1|h1], r1 as [s1|s1]; try done.
    + exists (Mem.Singular h1). by simplify_eq.
    + by apply (IH h1 s1).
Qed.

Lemma mem_back_term i j h s s' :
  R h s → back_term i j s = Some s' →
  ∃ h', Mem.back_term A b i j h = Some h' ∧ R h' s'.
Proof.
  intros HR Hrun. pose proof HR as [Hh _].
  unfold back_term in Hrun. unfold Mem.back_term.
  do 3 replay_get Hh. by apply (mem_setb h s).
Qed.

Lemma mem_back_row i h s s' :
  R h s → back_row i s = Some s' →
  ∃ h', Mem.back_row A b i h = Some h' ∧ R h' s'.
Proof.
  intros HR Hrun. unfold back_row in Hrun. unfold Mem.back_row.
  destruct (for_loop (range (i + 1) N) (back_term i) s) as [s1|] eqn:Hs1; [|done].
  simpl in Hrun.
  destruct (for_loop_sim R _ (Mem.back_term A b i) _
              (λ k _ _ _, mem_back_term i k _ _ _) h s s1 HR Hs1)
    as (h1 & -> & HR1).
  simpl. pose proof HR1 as [Hh1 _].
  do 2 replay_get Hh1. by apply (mem_setb h1 s1).
Qed.

Lemma mem_back_substitute h s s' :
  R h s → back_substitute s = Some s' →
  ∃ h', Mem.back_substitute A b h = Some h' ∧ R h' s'.
Proof.
  apply (for_loop_sim R). intros k ? ? ?. apply mem_back_row.
Qed.

Lemma mem_solveMatrix h s ok s' :
  R h s → solveMatrix s = Some (ok, s') →
  ∃ h', Mem.solveMatrix A b h = Some (ok, h') ∧ R h' s'.
Proof.
  intros HR Hrun. unfold solveMatrix in Hrun. unfold Mem.solveMatrix.
  destruct (forward (range 0 N) s) as [r|] eqn:Hr; [|done]. simpl in Hrun.
  destruct (mem_forward _ h s r HR Hr) as (rm & -> & Hrm). simpl.
  destruct rm as [h1|h1], r as [s1|s1]; try done.
  - exists h1. by simplify_eq.
  - destruct (back_substitute s1) as [s2|] eqn:Hs2; [|done]. simpl in Hrun.
    destruct (mem_back_substitute h1 s1 s2 Hrm Hs2) as (h2 & -> & HR2). simpl.
    exists h2. by simplify_eq.
Qed.

End Call.

Lemma read_holds A b h : Mem.separate A b h → Mem.holds A b h (Mem.read A b h).
Proof.
  intros (HA & Hb & _).
  assert (∀ i j, i < N → j < N →
            ent (Mem.read A b h) i j = default fzero (h !! Mem.cellA A i j)) as Hent.
  { intros i j Hi Hj. unfold ent, getA, Mem.read. cbn [sysA].
    rewrite list_lookup_fmap, lookup_seq_lt by done. cbn [fmap option_fmap option_map mbind option_bind].
    by rewrite list_lookup_fmap, lookup_seq_lt by done. }
  assert (∀ i, i < N → rhs (Mem.read A b h) i = default fzero (h !! Mem.cellb b i))
    as Hrhs.
  { intros i Hi. unfold rhs, getb, Mem.read. cbn [sysb].
    by rewrite list_lookup_fmap, lookup_seq_lt by done. }
  split; [|split].
  - unfold wf, Mem.read. cbn [sysA sysb]. split; [|split].
    + by rewrite length_fmap, length_seq.
    + apply Forall_fmap, Forall_forall. intros i _. cbn [compose].
      by rewrite length_fmap, length_seq.
    + by rewrite length_fmap, length_seq.
  - intros i j Hi Hj. rewrite Hent by done.
    destruct (h !! Mem.cellA A i j) as [x|] eqn:Hx; [done|].
    apply lookup_ge_None_1 in Hx. unfold Mem.cellA, N in *. lia.
  - intros i Hi. rewrite Hrhs by done.
    destruct (h !! Mem.cellb b i) as [x|] eqn:Hx; [done|].
    apply lookup_ge_None_1 in Hx. unfold Mem.cellb, N in *. lia.
Qed.

(** The call on the memory is the call on the contents of the two arrays:
    it returns the same flag, leaves the final contents in the two arrays
    and leaves every other cell as it was. *)
Lemma mem_solveMatrix_read A b h :
  Mem.separate A b h →
  ∃ ok s' h', solveMatrix (Mem.read A b h) = Some (ok, s') ∧
              Mem.solveMatrix A b h = Some (ok, h') ∧
              Mem.holds A b h' s' ∧ Mem.frame A b h h'.
Proof.
  intros Hsep. pose proof (read_holds A b h Hsep) as Hh.
  destruct (solveMatrix_total (Mem.read A b h)) as (ok & s' & Hrun & _); [apply Hh|].
  destruct (mem_solveMatrix A b (proj2 (proj2 Hsep)) h h (Mem.read A b h) ok s')
    as (h' & Hh' & Hholds & Hframe); [|done|by exists ok, s', h'].
  split; [done|]. split; [done|]. intros l _ _. done.
Qed.

Lemma read_ext A1 b1 A2 b2 (h1 h2 : Mem.mem (F := F)) :
  (∀ i j, i < N → j < N → h1 !! Mem.cellA A1 i j = h2 !! Mem.cellA A2 i j) →
  (∀ i, i < N → h1 !! Mem.cellb b1 i = h2 !! Mem.cellb b2 i) →
  Mem.read A1 b1 h1 = Mem.read A2 b2 h2.
Proof.
  intros HA Hb. unfold Mem.read. f_equal.
  - apply list_fmap_ext. intros ? i [-> Hi]%lookup_seq.
    apply list_fmap_ext. intros ? j [-> Hj]%lookup_seq. simpl. by rewrite HA.
  - apply list_fmap_ext. intros ? i [-> Hi]%lookup_seq. simpl. by rewrite Hb.
Qed.

(** C8: two calls on identical copies of [A] and [b] return the same flag
    and leave identical contents in the two arrays, wherever the copies lie
    in memory and whatever the rest of the memory holds; each call leaves
    every cell outside its two arrays as it was.  So the result depends on
    the contents of the two arrays only, and nothing else is read or
    written. *)
Theorem solveMatrix_deterministic A1 b1 A2 b2 (h1 h2 : Mem.mem (F := F)) :
  Mem.separate A1 b1 h1 → Mem.separate A2 b2 h2 →
  (∀ i j, i < N → j < N → h1 !! Mem.cellA A1 i j = h2 !! Mem.cellA A2 i j) →
  (∀ i, i < N → h1 !! Mem.cellb b1 i = h2 !! Mem.cellb b2 i) →
  ∃ ok h1' h2',
    Mem.solveMatrix A1 b1 h1 = Some (ok, h1') ∧
    Mem.solveMatrix A2 b2 h2 = Some (ok, h2') ∧
    (∀ i j, i < N → j < N → h1' !! Mem.cellA A1 i j = h2' !! Mem.cellA A2 i j) ∧
    (∀ i, i < N → h1' !! Mem.cellb b1 i = h2' !! Mem.cellb b2 i) ∧
    Mem.frame A1 b1 h1 h1' ∧ Mem.frame A2 b2 h2 h2'.
Proof.
  intros Hsep1 Hsep2 HA Hb.
  destruct (mem_solveMatrix_read A1 b1 h1 Hsep1)
    as (ok1 & s1 & h1' & Hs1 & Hm1 & (_ & HA1 & Hb1) & Hf1).
  destruct (mem_solveMatrix_read A2 b2 h2 Hsep2)
    as (ok2 & s2 & h2' & Hs2 & Hm2 & (_ & HA2 & Hb2) & Hf2).
  rewrite (read_ext A1 b1 A2 b2 h1 h2 HA Hb) in Hs1.
  assert (ok1 = ok2 ∧ s1 = s2) as [-> ->] by (split; congruence).
  exists ok2, h1', h2'.
  split; [done|]. split; [done|]. split; [|split; [|done]].
  - intros i j Hi Hj. by rewrite HA1, HA2.
  - intros i Hi. by rewrite Hb1, Hb2.
Qed.

End MemoryModel.

(** * Rounding errors of binary64 *)

(** Derived from the definitions of [SpecFloat]: the shifts of
    [binary_round_aux] keep track of the part cut off, and rounding to
    nearest moves a value by at most half a unit of the last place. *)
Module Rounding.
Import Binary64 Binary64Arith.
Local Open Scope Z_scope.

Lemma shr_1_located n d r : rec_located n d r → rec_located n (2 * d) (shr_1 r).
Proof.
  destruct r as [m r s]. unfold rec_located. simpl.
  destruct m as [|[p|p|]|p]; destruct r, s; simpl; lia.
Qed.

Lemma pow2_xO k : 2 ^ Zpos k~0 = 2 ^ Zpos k * 2 ^ Zpos k.
Proof.
  assert (Zpos k~0 = Zpos k + Zpos k) as -> by lia.
  by rewrite Z.pow_add_r by lia.
Qed.

Lemma pow2_xI k : 2 ^ Zpos k~1 = 2 * (2 ^ Zpos k * 2 ^ Zpos k).
Proof.
  assert (Zpos k~1 = 1 + (Zpos k + Zpos k)) as -> by lia.
  by rewrite !Z.pow_add_r by lia.
Qed.

Lemma iter_shr_1_located k : ∀ n d r,
  rec_located n d r →
  rec_located n (d * 2 ^ Zpos k) (SpecFloat.iter_pos shr_1 k r).
Proof.
  induction k as [k IH|k IH|]; intros n d r Hr; simpl SpecFloat.iter_pos.
  - rewrite pow2_xI.
    replace (d * (2 * (2 ^ Zpos k * 2 ^ Zpos k))) with (2 * d * 2 ^ Zpos k * 2 ^ Zpos k)
      by lia.
    by apply IH, IH, shr_1_located.
  - rewrite pow2_xO.
    replace (d * (2 ^ Zpos k * 2 ^ Zpos k)) with (d * 2 ^ Zpos k * 2 ^ Zpos k) by lia.
    by apply IH, IH.
  - replace (d * 2 ^ 1) with (2 * d) by lia. by apply shr_1_located.
Qed.

(** Rounding to nearest, ties to even, moves by at most one half. *)
Lemma round_nearest_even_located n d r :
  rec_located n d r →
  let m' := round_nearest_even (shr_m r) (loc_of_shr_record r) in
  shr_m r ≤ m' ≤ shr_m r + 1 ∧ 2 * Z.abs (m' * d - n) ≤ d ∧
  (loc_of_shr_record r = loc_Exact → m' * d = n).
Proof.
  destruct r as [m r s]. unfold rec_located. simpl.
  destruct r, s; simpl; try destruct (Z.even m); intros; split; try split; try done; lia.
Qed.

(** The number of binary digits. *)
Lemma digits2_pos_bounds p :
  2 ^ (Zpos (digits2_pos p) - 1) ≤ Zpos p < 2 ^ Zpos (digits2_pos p).
Proof.
  induction p as [p IH|p IH|]; simpl digits2_pos.
  - rewrite Pos2Z.inj_succ. replace (Z.succ (Zpos (digits2_pos p)) - 1)
      with (1 + (Zpos (digits2_pos p) - 1)) by lia.
    rewrite Z.pow_succ_r, Z.pow_add_r by lia. lia.
  - rewrite Pos2Z.inj_succ. replace (Z.succ (Zpos (digits2_pos p)) - 1)
      with (1 + (Zpos (digits2_pos p) - 1)) by lia.
    rewrite Z.pow_succ_r, Z.pow_add_r by lia. lia.
  - simpl. lia.
Qed.

Lemma Zdigits2_bounds m :
  0 < m → 2 ^ (Zdigits2 m - 1) ≤ m < 2 ^ Zdigits2 m.
Proof. destruct m as [|p|p]; try lia. intros _. apply digits2_pos_bounds. Qed.

Lemma Zdigits2_nonneg m : 0 ≤ Zdigits2 m.
Proof. destruct m; simpl; lia. Qed.

Lemma Zdigits2_le m k : 0 ≤ m → 0 ≤ k → m < 2 ^ k → Zdigits2 m ≤ k.
Proof.
  intros Hm Hk Hlt. destruct (Z.eq_dec m 0) as [->|Hne]; [simpl; lia|].
  pose proof (Zdigits2_bounds m ltac:(lia)) as [Hlo _].
  destruct (Z.le_gt_cases (Zdigits2 m) k) as [|Hgt]; [done|].
  assert (2 ^ k ≤ 2 ^ (Zdigits2 m - 1)) by (apply Z.pow_le_mono_r; lia). lia.
Qed.

Lemma Zdigits2_ge m k : 0 ≤ k → 2 ^ k ≤ m → k + 1 ≤ Zdigits2 m.
Proof.
  intros Hk Hle. assert (0 < m) as Hm by (pose proof (Z.pow_pos_nonneg 2 k); lia).
  pose proof (Zdigits2_bounds m Hm) as [_ Hhi].
  destruct (Z.le_gt_cases (k + 1) (Zdigits2 m)) as [|Hgt]; [done|].
  pose proof (Zdigits2_nonneg m).
  assert (2 ^ Zdigits2 m ≤ 2 ^ k) by (apply Z.pow_le_mono_r; lia). lia.
Qed.

Abbreviation fexp64 := (fexp prec emax).

Lemma fexp64_eq z : fexp64 z = Z.max (z - 53) (-1074).
Proof. reflexivity. Qed.

Lemma shr_m_of_loc m l : shr_m (shr_record_of_loc m l) = m.
Proof. by destruct l as [|[| |]]. Qed.

Lemma loc_of_shr_of_loc m l : loc_of_shr_record (shr_record_of_loc m l) = l.
Proof. by destruct l as [|[| |]]. Qed.

(** The first shift of [binary_round_aux]: the mantissa it leaves has at
    most 53 digits, and either nothing was cut off, or the value is at least
    [2^52] units of the new exponent, or the new exponent is the least one. *)
Lemma shr_fexp_located m e l n d :
  rec_located n d (shr_record_of_loc m l) →
  l = loc_Exact ∨ e ≤ fexp64 (Zdigits2 m + e) →
  ∃ r1 e1,
    shr_fexp prec emax m e l = (r1, e1) ∧ e ≤ e1 ∧ -1074 ≤ e1 ∧
    rec_located n (d * 2 ^ (e1 - e)) r1 ∧ shr_m r1 < 2 ^ 53 ∧
    ((e1 = e ∧ l = loc_Exact ∧ r1 = shr_record_of_loc m l) ∨
     2 ^ 52 ≤ shr_m r1 ∨
     (e1 = -1074 ∧ (e < -1074 ∨ l ≠ loc_Exact))).
Proof.
  intros Hloc Hl. pose proof Hloc as (Hm & Hd & Hn & _).
  rewrite shr_m_of_loc in Hm, Hn.
  unfold shr_fexp. set (dm := Zdigits2 m).
  pose proof (Zdigits2_nonneg m) as Hdm0. fold dm in Hdm0.
  assert (m < 2 ^ dm) as Hmhi.
  { destruct (Z.eq_dec m 0) as [->|]; [apply Z.pow_pos_nonneg; lia|].
    apply Zdigits2_bounds. lia. }
  assert (0 < m → 2 ^ (dm - 1) ≤ m) as Hmlo by (intros; by apply Zdigits2_bounds).
  fold dm in Hl. rewrite fexp64_eq in *.
  assert (Z.max (dm + e - 53) (-1074) - e ≤ 0 →
          ∃ r1 e1, (shr_record_of_loc m l, e) = (r1, e1) ∧ e ≤ e1 ∧ -1074 ≤ e1 ∧
            rec_located n (d * 2 ^ (e1 - e)) r1 ∧ shr_m r1 < 2 ^ 53 ∧
            ((e1 = e ∧ l = loc_Exact ∧ r1 = shr_record_of_loc m l) ∨
             2 ^ 52 ≤ shr_m r1 ∨ (e1 = -1074 ∧ (e < -1074 ∨ l ≠ loc_Exact)))) as Hstay.
  { intros Hle. exists (shr_record_of_loc m l), e.
    split; [done|]. split; [lia|]. split; [lia|].
    rewrite Z.sub_diag, Z.mul_1_r, shr_m_of_loc. split; [done|].
    assert (dm ≤ 53) as Hdm by lia.
    assert (2 ^ dm ≤ 2 ^ 53) by (apply Z.pow_le_mono_r; lia).
    split; [lia|].
    destruct l as [|c]; [by left|].
    destruct Hl as [Hl|Hl]; [done|].
    destruct (Z.eq_dec e (-1074)) as [->|He].
    - right. right. split; [done|]. by right.
    - right. left. assert (dm = 53) as Hdm53 by lia.
      assert (0 < m).
      { destruct (Z.eq_dec m 0) as [->|]; [|lia]. by compute in Hdm53. }
      specialize (Hmlo ltac:(done)). by rewrite Hdm53 in Hmlo. }
  destruct (Z.max (dm + e - 53) (-1074) - e) as [|kp|kn] eqn:Hk; unfold shr;
    [apply Hstay; lia| |apply Hstay; lia]. clear Hstay.
  exists (SpecFloat.iter_pos shr_1 kp (shr_record_of_loc m l)), (e + Zpos kp).
  pose proof (iter_shr_1_located kp n d _ Hloc) as Hloc1.
  set (r1 := SpecFloat.iter_pos shr_1 kp _) in *.
  replace (e + Zpos kp - e) with (Zpos kp) by lia.
  set (P := 2 ^ Zpos kp) in *.
  assert (0 < P) as HP by (apply Z.pow_pos_nonneg; lia).
  destruct Hloc1 as (Hm1 & HD & Hn1 & Hbits).
  assert (shr_m r1 * P ≤ m) as Hlo1 by nia.
  assert (m < (shr_m r1 + 1) * P) as Hhi1 by nia.
  split; [done|]. split; [lia|]. split; [lia|]. split; [done|].
  destruct (Z.le_gt_cases (-1074) (dm + e - 53)) as [Hnorm|Hsub].
  - assert (dm = 53 + Zpos kp) as Hdm by lia.
    assert (2 ^ dm = 2 ^ 53 * P) as Hpow by (rewrite Hdm, Z.pow_add_r by lia; done).
    assert (2 ^ (dm - 1) = 2 ^ 52 * P) as Hpow'.
    { replace (dm - 1) with (52 + Zpos kp) by lia. by rewrite Z.pow_add_r by lia. }
    assert (0 < m).
    { destruct (Z.eq_dec m 0) as [->|]; [|lia]. compute in Hdm. lia. }
    specialize (Hmlo ltac:(done)). rewrite Hpow' in Hmlo. rewrite Hpow in Hmhi.
    split; [nia|]. right. left. nia.
  - assert (dm < 53 + Zpos kp) as Hdm by lia.
    assert (2 ^ dm ≤ 2 ^ (53 + Zpos kp)) as Hpow by (apply Z.pow_le_mono_r; lia).
    rewrite Z.pow_add_r in Hpow by lia. fold P in Hpow.
    split; [nia|]. right. right. split; [lia|]. left. lia.
Qed.

(** The value [binary_round_aux] returns for the fraction [n / d] at
    exponent [e]: [m2] units of exponent [e1], at most half a unit away. *)
Lemma round64_spec sx m e l n d :
  rec_located n d (shr_record_of_loc m l) →
  l = loc_Exact ∨ e ≤ fexp64 (Zdigits2 m + e) →
  ∃ m2 e1,
    e ≤ e1 ∧ 0 ≤ m2 ∧
    2 * Z.abs (m2 * (d * 2 ^ (e1 - e)) - n) ≤ d * 2 ^ (e1 - e) ∧
    (m2 * (d * 2 ^ (e1 - e)) = n ∨
     (2 ^ 52 ≤ m2 ∧ 2 ^ 52 * (d * 2 ^ (e1 - e)) ≤ n) ∨
     (e1 = -1074 ∧ (e < -1074 ∨ l ≠ loc_Exact))) ∧
    match round64 sx m e l with
    | S754_zero s => s = sx ∧ m2 = 0
    | S754_finite s m3 e3 => s = sx ∧ e1 ≤ e3 ∧ Zpos m3 * 2 ^ (e3 - e1) = m2
    | S754_infinity s => s = sx ∧ 0 < m2
    | S754_nan => False
    end.
Proof.
  intros Hloc Hl.
  destruct (shr_fexp_located m e l n d Hloc Hl)
    as (r1 & e1 & Hshr & Hee1 & He1 & Hloc1 & Hm1 & Hcase).
  unfold binary_round_aux. rewrite Hshr.
  pose proof (round_nearest_even_located _ _ _ Hloc1) as (Hm2 & Herr & Hexact).
  set (m2 := round_nearest_even (shr_m r1) (loc_of_shr_record r1)) in *.
  set (D := d * 2 ^ (e1 - e)) in *.
  pose proof Hloc1 as (Hm1' & HD & Hn1 & _).
  exists m2, e1. split; [done|]. split; [lia|]. split; [done|]. split.
  { destruct Hcase as [(-> & -> & ->)|[Hbig|Hsub]].
    - left. apply Hexact. by rewrite loc_of_shr_of_loc.
    - right. left. split; [lia|]. nia.
    - by right; right. }
  unfold shr_fexp. rewrite fexp64_eq.
  destruct (Z.eq_dec m2 (2 ^ 53)) as [Heq|Hne].
  - change (2 ^ 53) with 9007199254740992 in Heq. rewrite Heq.
    change (Zdigits2 9007199254740992) with 54.
    replace (Z.max (54 + e1 - 53) (-1074) - e1) with 1 by lia.
    cbn [shr SpecFloat.iter_pos shr_record_of_loc shr_1 shr_m].
    destruct (_ <=? _); (split; [done|]); [|done].
    split; [lia|]. replace (e1 + 1 - e1) with 1 by lia. done.
  - assert (m2 < 2 ^ 53) as Hlt by lia.
    pose proof (Zdigits2_le m2 53 ltac:(lia) ltac:(lia) Hlt) as Hd2.
    destruct (Z.max (Zdigits2 m2 + e1 - 53) (-1074) - e1) as [|kp|kn] eqn:Hk;
      [|lia|]; unfold shr, shr_record_of_loc, shr_m.
    + destruct m2 as [|p|p]; [done| |lia].
      destruct (_ <=? _); (split; [done|]); [|done].
      split; [lia|]. rewrite Z.sub_diag. lia.
    + destruct m2 as [|p|p]; [done| |lia].
      destruct (_ <=? _); (split; [done|]); [|done].
      split; [lia|]. rewrite Z.sub_diag. lia.
Qed.

End Rounding.

Module RoundingQ.
Import Binary64 Binary64Arith Rounding.
Local Open Scope Q_scope.

Lemma exact_sf x : exact x = sf_exact (Prim2SF x).
Proof. reflexivity. Qed.

Lemma pow2_pos (e : Z) : 0 < 2 ^ e.
Proof. by apply Qpower_0_lt. Qed.

Lemma pow2_add (a b : Z) : 2 ^ (a + b) == 2 ^ a * 2 ^ b.
Proof. by apply Qpower_plus. Qed.

Lemma pow2_inject (k : Z) : (0 ≤ k)%Z → inject_Z (2 ^ k) == 2 ^ k.
Proof. intros Hk. by rewrite Zpower_Qpower. Qed.

Lemma cond_sign (s : bool) (a : Z) (E : Q) :
  inject_Z (cond_Zopp s a) * E == (if s then - (inject_Z a * E) else inject_Z a * E).
Proof. destruct s; simpl; [|reflexivity]. rewrite inject_Z_opp. ring. Qed.

(** What [binary_round_aux] returns for the fraction [n / d] at exponent
    [e], when it does not overflow: a value of the sign asked for whose
    magnitude [R] is the magnitude [V] of the fraction, or within [u] of it
    relatively, or within [eta] of it absolutely. *)
Lemma round64_error sx m e l n d :
  rec_located n d (shr_record_of_loc m l) →
  l = loc_Exact ∨ (e ≤ fexp64 (Zdigits2 m + e))%Z →
  let V := inject_Z n * (2 ^ e / inject_Z d) in
  let r := round64 sx m e l in
  match r with
  | S754_zero _ | S754_finite _ _ _ =>
      ∃ R, 0 <= R ∧ sf_exact r == (if sx then - R else R) ∧
        (R == V ∨
         (Qabs (R - V) <= u64 * V ∧ Qabs (R - V) <= u64 * R) ∨
         (Qabs (R - V) <= eta64 ∧ ((e < -1074)%Z ∨ l ≠ loc_Exact)))
  | S754_infinity _ => True
  | S754_nan => False
  end.
Proof.
  intros Hloc Hl V r.
  destruct (round64_spec sx m e l n d Hloc Hl)
    as (m2 & e1 & Hee1 & Hm2 & Herr & Hcase & Hres).
  fold r in Hres. clearbody r. destruct Hloc as (_ & Hd & _).
  set (K := (2 ^ (e1 - e))%Z) in *.
  assert (0 < K)%Z as HK by (apply Z.pow_pos_nonneg; lia).
  set (T := 2 ^ e / inject_Z d).
  assert (0 < inject_Z d) as Hdq by (change 0 with (inject_Z 0); by rewrite <- Zlt_Qlt).
  assert (0 < T) as HT.
  { unfold T. apply Qlt_shift_div_l; [done|]. rewrite Qmult_0_l. apply pow2_pos. }
  set (X := 2 ^ e1).
  assert (inject_Z (d * K) * T == X) as HX.
  { unfold T, X, K. rewrite inject_Z_mult, pow2_inject by lia.
    replace e1 with ((e1 - e) + e)%Z at 2 by lia. rewrite pow2_add.
    field. intros Hz. rewrite Hz in Hdq. by apply Qlt_irrefl in Hdq. }
  assert (0 < X) as HXpos by apply pow2_pos.
  set (R := inject_Z m2 * X).
  assert (0 <= R) as HR.
  { unfold R. apply Qmult_le_0_compat; [|lra].
    change 0 with (inject_Z 0). by rewrite <- Zle_Qle. }
  assert (R - V == inject_Z (m2 * (d * K) - n) * T) as Hdiff.
  { unfold R, V. fold T. rewrite <- HX. unfold Zminus.
    rewrite inject_Z_plus, inject_Z_opp, !inject_Z_mult. ring. }
  assert (Qabs (R - V) <= (1 # 2) * X) as Hhalf.
  { rewrite Hdiff. apply Qabs_Qle_condition.
    assert (- (d * K) ≤ 2 * (m2 * (d * K) - n) ≤ d * K)%Z as [Hlo Hhi] by lia.
    rewrite Zle_Qle in Hlo, Hhi.
    rewrite inject_Z_mult in Hlo, Hhi. rewrite inject_Z_opp in Hlo.
    rewrite inject_Z_mult in Hlo, Hhi.
    rewrite <- HX. rewrite inject_Z_mult.
    set (a := inject_Z (m2 * (d * K) - n)) in *.
    set (dk := inject_Z d * inject_Z K) in *.
    change (inject_Z 2) with 2 in *.
    split; nra. }
  assert (sf_exact r == (if sx then - R else R) ∨
          match r with S754_zero _ | S754_finite _ _ _ => False | _ => True end) as Hsign.
  { destruct r as [s|s| |s m3 e3]; try by right.
    - left. destruct Hres as [-> ->]. unfold R. simpl. destruct sx; ring.
    - left. destruct Hres as (-> & He3 & Hm3). simpl sf_exact.
      rewrite cond_sign.
      assert (inject_Z (Zpos m3) * 2 ^ e3 == R) as HmR;
        [|destruct sx; rewrite HmR; reflexivity].
      unfold R, X. rewrite <- Hm3, inject_Z_mult, pow2_inject by lia.
      replace e3 with ((e3 - e1) + e1)%Z at 1 by lia. rewrite pow2_add. ring. }
  assert (R == V ∨
         (Qabs (R - V) <= u64 * V ∧ Qabs (R - V) <= u64 * R) ∨
         (Qabs (R - V) <= eta64 ∧ ((e < -1074)%Z ∨ l ≠ loc_Exact))) as Hbound.
  { destruct Hcase as [Hex|[[Hbig Hn]|[-> Hsub]]].
    - left. assert (R - V == 0) as Hz; [|lra].
      rewrite Hdiff. fold K in Hex. rewrite Hex, Z.sub_diag. ring.
    - right. left.
      assert (2 ^ 52 * X <= R) as HRbig.
      { unfold R. apply Qmult_le_compat_r; [|lra].
        rewrite Zle_Qle in Hbig. exact Hbig. }
      assert (2 ^ 52 * X <= V) as HVbig.
      { unfold V. fold T. rewrite <- HX.
        rewrite Zle_Qle in Hn. rewrite !inject_Z_mult in Hn.
        rewrite inject_Z_mult. set (nq := inject_Z n) in *.
        set (dk := inject_Z d * inject_Z K) in *.
        change (inject_Z (2 ^ 52)) with (2 ^ 52) in Hn.
        change (2 ^ 52) with (4503599627370496 # 1) in *. nra. }
      assert (u64 * (2 ^ 52 * X) == (1 # 2) * X) as Hu.
      { unfold u64. change (2 ^ (-53)) with (1 # 9007199254740992).
        change (2 ^ 52) with (4503599627370496 # 1). field. }
      assert (0 < u64) by done.
      split.
      + apply (Qle_trans _ _ _ Hhalf). rewrite <- Hu.
        apply Qmult_le_l; [done|done].
      + apply (Qle_trans _ _ _ Hhalf). rewrite <- Hu.
        apply Qmult_le_l; [done|done].
    - right. right. split; [|done].
      apply (Qle_trans _ _ _ Hhalf). unfold X, eta64. done. }
  destruct r as [s|s| |s m3 e3]; try done.
  - exists R. by destruct Hsign as [Hs|[]].
  - exists R. by destruct Hsign as [Hs|[]].
Qed.

End RoundingQ.

Module OpErrors.
Import Binary64 Binary64Arith Rounding RoundingQ.
Local Open Scope Q_scope.

(** The magnitude of a finite value. *)
Lemma sf_exact_finite s m e :
  sf_exact (S754_finite s m e) ==
  (if s then - (inject_Z (Zpos m) * 2 ^ e) else inject_Z (Zpos m) * 2 ^ e).
Proof. unfold sf_exact. apply cond_sign. Qed.

Lemma mag_pos m e : 0 < inject_Z (Zpos m) * 2 ^ e.
Proof.
  apply Qmult_lt_0_compat; [|apply pow2_pos].
  change 0 with (inject_Z 0). by rewrite <- Zlt_Qlt.
Qed.

Lemma Qabs_cond (s : bool) (R : Q) : 0 <= R → Qabs (if s then - R else R) == R.
Proof. intros HR. destruct s; [rewrite Qabs_opp|]; by apply Qabs_pos. Qed.



(** ** Multiplication *)


(** ** Subtraction *)








(** ** Division *)

Lemma new_location_located q d r :
  (0 ≤ q)%Z → (0 ≤ r < d)%Z →
  rec_located (q * d + r) d (shr_record_of_loc q (new_location d r)).
Proof.
  intros Hq Hr. unfold new_location, new_location_even, new_location_odd.
  destruct (Z.even d) eqn:Hev.
  - destruct (Z.eqb_spec r 0) as [->|Hne]; [unfold rec_located; simpl; lia|].
    destruct (Z.compare_spec (2 * r) d); unfold rec_located; simpl; lia.
  - assert (Z.odd d = true) as Hodd by (by rewrite <- Z.negb_even, Hev).
    apply Z.odd_spec in Hodd as [k Hk].
    destruct (Z.eqb_spec r 0) as [->|Hne]; [unfold rec_located; simpl; lia|].
    destruct (Z.compare_spec (2 * r + 1) d); unfold rec_located; simpl; lia.
Qed.

Lemma div_core_spec mx ex my ey :
  ∃ q r e',
    SFdiv_core_binary prec emax (Zpos mx) ex (Zpos my) ey
      = (q, e', new_location (Zpos my) r) ∧
    (e' ≤ ex - ey)%Z ∧
    (Zpos mx * 2 ^ (ex - ey - e') = q * Zpos my + r)%Z ∧
    (0 ≤ r < Zpos my)%Z ∧ (0 ≤ q)%Z ∧
    (e' ≤ fexp64 (Zdigits2 q + e'))%Z.
Proof.
  unfold SFdiv_core_binary.
  set (d1 := Zdigits2 (Zpos mx)). set (d2 := Zdigits2 (Zpos my)).
  set (D0 := (d1 + ex - (d2 + ey))%Z).
  set (e' := Z.min (fexp64 D0) (ex - ey)).
  set (s := (ex - ey - e')%Z).
  assert (0 ≤ s)%Z as Hs by (unfold s, e'; lia).
  set (m' := match s with Zpos _ => Z.shiftl (Zpos mx) s | Z0 => Zpos mx | Zneg _ => 0%Z end).
  assert (m' = Zpos mx * 2 ^ s)%Z as Hm'.
  { unfold m'. destruct s as [|p|p] eqn:Hsp; [simpl; lia| |lia].
    by rewrite Z.shiftl_mul_pow2. }
  pose proof (Z_div_mod m' (Zpos my) ltac:(lia)) as Hdm.
  destruct (Z.div_eucl m' (Zpos my)) as [q r]. destruct Hdm as [Hqr Hr].
  exists q, r, e'.
  assert (0 < 2 ^ s)%Z as Hpow by (apply Z.pow_pos_nonneg; lia).
  assert (0 ≤ q)%Z as Hq by nia.
  split; [done|]. split; [unfold e'; lia|]. split; [fold s; lia|].
  split; [done|]. split; [done|].
  rewrite fexp64_eq.
  destruct (Z.le_gt_cases e' (-1074)) as [|Hbig]; [lia|].
  assert (e' ≤ D0 - 53)%Z as HD0 by (unfold e' in *; rewrite fexp64_eq in *; lia).
  pose proof (Zdigits2_bounds (Zpos mx) ltac:(lia)) as [Hmx _].
  pose proof (Zdigits2_bounds (Zpos my) ltac:(lia)) as [_ Hmy].
  fold d1 in Hmx. fold d2 in Hmy.
  pose proof (Zdigits2_nonneg (Zpos my)) as Hd2. fold d2 in Hd2.
  set (t := (d1 - 1 + s - d2)%Z).
  assert (52 ≤ t)%Z as Ht.
  { unfold t, s, D0 in *. lia. }
  assert (1 ≤ d1)%Z as Hd1 by (unfold d1; simpl; lia).
  assert (2 ^ (d1 - 1) * 2 ^ s = 2 ^ t * 2 ^ d2)%Z as Hpows.
  { rewrite <- (Z.pow_add_r 2 (d1 - 1) s), <- (Z.pow_add_r 2 t d2) by lia.
    f_equal. unfold t. lia. }
  assert (0 < 2 ^ t)%Z as HPt by (apply Z.pow_pos_nonneg; lia).
  assert (2 ^ t ≤ q)%Z as Hqbig by nia.
  assert (2 ^ 52 ≤ 2 ^ t)%Z by (apply Z.pow_le_mono_r; lia).
  pose proof (Zdigits2_ge q 52 ltac:(lia) ltac:(lia)). lia.
Qed.

Lemma zero_quotient_error (a b : Q) :
  a == 0 ∨ b == 0 → Qabs (0 - a / b) <= u64 * Qabs (a / b) + eta64.
Proof.
  intros Hab. assert (a / b == 0) as ->; [|by vm_compute].
  destruct Hab as [-> | ->]; [by unfold Qdiv; ring|].
  unfold Qdiv. assert (/ 0 == 0) as -> by reflexivity. ring.
Qed.

Lemma SFdiv_error x y :
  match SF64div x y with
  | S754_zero _ | S754_finite _ _ _ =>
      Qabs (sf_exact (SF64div x y) - sf_exact x / sf_exact y)
        <= u64 * Qabs (sf_exact x / sf_exact y) + eta64
  | _ => True
  end.
Proof.
  assert (0 <= eta64) as Heta by done. assert (0 <= u64) as Hu by done.
  destruct x as [sx|sx| |sx mx ex], y as [sy|sy| |sy my ey]; simpl SF64div; try done;
    try (apply zero_quotient_error; by (left + right)).
  unfold SF64div, SFdiv.
  destruct (div_core_spec mx ex my ey) as (q & r0 & e' & -> & He' & Hn & Hr0 & Hq & Hfexp).
  pose proof (round64_error (xorb sx sy) q e' (new_location (Zpos my) r0)
                (q * Zpos my + r0) (Zpos my)
                (new_location_located q (Zpos my) r0 Hq Hr0) (or_intror Hfexp)) as Hr.
  cbv zeta in Hr.
  set (r := round64 _ _ _ _) in *.
  set (X := inject_Z (Zpos mx) * 2 ^ ex). set (Y := inject_Z (Zpos my) * 2 ^ ey).
  assert (0 < X) as HX by apply mag_pos. assert (0 < Y) as HY by apply mag_pos.
  assert (0 < inject_Z (Zpos my)) as Hmy
    by (change 0 with (inject_Z 0); by rewrite <- Zlt_Qlt).
  assert (inject_Z (q * Zpos my + r0) * (2 ^ e' / inject_Z (Zpos my)) == X / Y) as HV.
  { rewrite <- Hn, inject_Z_mult, pow2_inject by lia. unfold X, Y.
    assert (2 ^ ex == 2 ^ (ex - ey - e') * 2 ^ e' * 2 ^ ey) as ->.
    { rewrite <- !pow2_add. by replace (ex - ey - e' + e' + ey)%Z with ex by lia. }
    pose proof (pow2_pos ey). field. split; lra. }
  assert (sf_exact (S754_finite sx mx ex) / sf_exact (S754_finite sy my ey) ==
          (if xorb sx sy then - (X / Y) else X / Y)) as Hquot.
  { rewrite !sf_exact_finite. fold X Y. destruct sx, sy; simpl; field; lra. }
  assert (0 < X / Y) as HXY.
  { apply Qlt_shift_div_l; [done|]. lra. }
  set (V := X / Y) in *.
  assert (0 <= u64 * V) as HuV by (apply Qmult_le_0_compat; lra).
  assert (∀ R, 0 <= R → sf_exact r == (if xorb sx sy then - R else R) →
    R == V ∨ (Qabs (R - V) <= u64 * V ∧ Qabs (R - V) <= u64 * R) ∨
    (Qabs (R - V) <= eta64 ∧
       ((e' < -1074)%Z ∨ new_location (Zpos my) r0 ≠ loc_Exact)) →
    Qabs (sf_exact r - sf_exact (S754_finite sx mx ex) / sf_exact (S754_finite sy my ey))
      <= u64 * Qabs (sf_exact (S754_finite sx mx ex) / sf_exact (S754_finite sy my ey))
         + eta64)
    as Hfin.
  { intros R HR Hs Hb. rewrite Hquot, Hs.
    rewrite (Qabs_cond _ V) by lra.
    assert (Qabs ((if xorb sx sy then - R else R) - (if xorb sx sy then - V else V))
            == Qabs (R - V)) as ->.
    { destruct (xorb sx sy); [|reflexivity].
      rewrite <- (Qabs_opp (R - V)). apply Qabs_wd. ring. }
    set (uV := u64 * V) in *.
    destruct Hb as [Heq|[[Hb _]|[Hb _]]].
    - apply Qabs_Qle_condition. split; lra.
    - lra.
    - lra. }
  clearbody r. destruct r as [s|s| |s m e]; try done.
  - destruct Hr as (R & HR & Hs & Hb). rewrite HV in Hb. by apply (Hfin R).
  - destruct Hr as (R & HR & Hs & Hb). rewrite HV in Hb. by apply (Hfin R).
Qed.

End OpErrors.

Module Binary64Errors.
Import Binary64 Binary64Arith Rounding RoundingQ OpErrors.
Local Open Scope Q_scope.

Lemma finite_class x :
  is_finite x = true →
  match Prim2SF x with S754_zero _ | S754_finite _ _ _ => True | _ => False end.
Proof. rewrite is_finite_spec. by destruct (Prim2SF x). Qed.


Lemma div_error x y :
  is_finite (x / y)%float = true →
  Qabs (exact (x / y)%float - exact x / exact y)
    <= u64 * Qabs (exact x / exact y) + eta64.
Proof.
  intros Hfin%finite_class. rewrite !exact_sf. rewrite div_spec in *.
  pose proof (SFdiv_error (Prim2SF x) (Prim2SF y)) as Herr.
  by destruct (SF64div (Prim2SF x) (Prim2SF y)).
Qed.


(** A finite result has finite operands. *)
Lemma mul_finite_inv x y :
  is_finite (x * y)%float = true → is_finite x = true ∧ is_finite y = true.
Proof.
  rewrite !is_finite_spec, mul_spec.
  by destruct (Prim2SF x) as [[|]|[|]| |[|] ? ?], (Prim2SF y) as [[|]|[|]| |[|] ? ?].
Qed.

Lemma sub_finite_inv x y :
  is_finite (x - y)%float = true → is_finite x = true ∧ is_finite y = true.
Proof.
  rewrite !is_finite_spec, sub_spec.
  by destruct (Prim2SF x) as [[|]|[|]| |[|] ? ?], (Prim2SF y) as [[|]|[|]| |[|] ? ?].
Qed.


(** ** Values and order *)

Lemma exact_abs x : exact (abs x) == Qabs (exact x).
Proof.
  rewrite !exact_sf, abs_spec.
  destruct (Prim2SF x) as [s|s| |s m e]; try reflexivity.
  cbn [SFabs]. rewrite !sf_exact_finite. pose proof (mag_pos m e).
  rewrite Qabs_cond by lra. reflexivity.
Qed.

Lemma exact_nonzero x : is_finite x = true → is_zero x = false → ¬ exact x == 0.
Proof.
  rewrite is_finite_spec, is_zero_spec, exact_sf.
  destruct (Prim2SF x) as [s|s| |s m e]; try done. intros _ _.
  rewrite sf_exact_finite. pose proof (mag_pos m e). destruct s; lra.
Qed.

(** On finite values the order of the keys is the order of the magnitudes. *)
Lemma key_le_exact x y :
  is_finite x = true → is_finite y = true →
  ¬ key_lt (fkey (abs y)) (fkey (abs x)) → Qabs (exact x) <= Qabs (exact y).
Proof.
  intros Hx Hy. rewrite <- !exact_abs. unfold fkey. rewrite !exact_sf, !abs_spec.
  pose proof (Prim2SF_valid x) as Hvx. pose proof (Prim2SF_valid y) as Hvy.
  rewrite is_finite_spec in Hx, Hy.
  destruct (Prim2SF x) as [sx|sx| |sx mx ex], (Prim2SF y) as [sy|sy| |sy my ey];
    try done; cbn [SFabs sf_key]; unfold key_lt; simpl fst; simpl snd; intros Hk.
  - rewrite sf_exact_finite. pose proof (mag_pos my ey). unfold sf_exact. lra.
  - exfalso. lia.
  - rewrite !sf_exact_finite.
    assert (ex < ey ∨ (ex = ey ∧ Zpos mx ≤ Zpos my))%Z as [Hlt|[-> Hle]] by lia.
    + unfold valid_binary, bounded, canonical_mantissa in Hvx, Hvy.
      apply andb_true_iff in Hvx as [Hcx _]. apply andb_true_iff in Hvy as [Hcy _].
      apply Z.eqb_eq in Hcx, Hcy. rewrite fexp64_eq in Hcx, Hcy.
      pose proof (digits2_pos_bounds mx) as [_ Hmx].
      pose proof (digits2_pos_bounds my) as [Hmy _].
      assert (Zpos (digits2_pos mx) ≤ 53)%Z as Hdx by lia.
      assert (Zpos (digits2_pos my) = 53)%Z as Hdy by lia.
      rewrite Hdy in Hmy.
      assert (Zpos mx < 2 ^ 53)%Z as Hmx'.
      { eapply Z.lt_le_trans; [exact Hmx|]. apply Z.pow_le_mono_r; lia. }
      assert (2 ^ ey == 2 ^ (ey - ex) * 2 ^ ex) as ->.
      { rewrite <- pow2_add. by replace (ey - ex + ex)%Z with ey by lia. }
      rewrite <- (pow2_inject (ey - ex)) by lia.
      rewrite Qmult_assoc, <- inject_Z_mult.
      apply Qmult_le_compat_r; [|apply Qlt_le_weak, pow2_pos].
      rewrite <- Zle_Qle.
      assert (2 ^ 1 ≤ 2 ^ (ey - ex))%Z by (apply Z.pow_le_mono_r; lia).
      change (2 ^ (53 - 1))%Z with 4503599627370496%Z in Hmy.
      change (2 ^ 53)%Z with 9007199254740992%Z in Hmx'.
      change (2 ^ 1)%Z with 2%Z in *. nia.
    + apply Qmult_le_compat_r; [|apply Qlt_le_weak, pow2_pos]. by rewrite <- Zle_Qle.
Qed.

End Binary64Errors.

(** * Sums of rationals *)

Section Sums.
Local Open Scope Q_scope.

Lemma qsum_nil f lo hi : (hi ≤ lo)%nat → qsum f lo hi == 0.
Proof. intros Hle. unfold qsum. by rewrite range_nil. Qed.

Lemma qsum_snoc f lo hi :
  (lo ≤ hi)%nat → qsum f lo (S hi) == qsum f lo hi + f hi.
Proof.
  intros Hle. unfold qsum. rewrite range_snoc by done.
  by rewrite fold_left_app.
Qed.






Lemma qsum_nonneg f lo hi :
  (∀ j, (lo ≤ j < hi)%nat → 0 <= f j) → 0 <= qsum f lo hi.
Proof.
  intros Hf. rewrite <- (qsum_nil (λ _, 0) lo lo) by lia.
  induction hi as [|hi IH]; [rewrite !qsum_nil by lia; lra|].
  destruct (decide (lo ≤ hi)%nat) as [Hle|Hgt].
  - rewrite qsum_snoc by done.
    pose proof (IH (λ j Hj, Hf j ltac:(lia))) as H1. pose proof (Hf hi ltac:(lia)).
    rewrite qsum_nil in * by lia. lra.
  - rewrite !qsum_nil by lia. lra.
Qed.

Lemma qsum_split f lo mid hi :
  (lo ≤ mid)%nat → (mid ≤ hi)%nat →
  qsum f lo hi == qsum f lo mid + qsum f mid hi.
Proof.
  intros Hlm. induction hi as [|hi IH]; intros Hmh.
  - assert (mid = 0 ∧ lo = 0)%nat as [-> ->] by lia. rewrite !qsum_nil by lia. ring.
  - destruct (decide (mid = S hi)) as [->|Hne].
    + rewrite (qsum_nil f (S hi) (S hi)) by lia. ring.
    + rewrite (qsum_snoc f lo hi), (qsum_snoc f mid hi) by lia.
      rewrite IH by lia. ring.
Qed.



Lemma qsum_mono_hi f lo hi hi' :
  (∀ j, 0 <= f j) → (hi ≤ hi')%nat → qsum f lo hi <= qsum f lo hi'.
Proof.
  intros Hf Hle. destruct (decide (lo ≤ hi)%nat) as [Hlo|Hlo].
  - rewrite (qsum_split f lo hi hi') by lia.
    pose proof (qsum_nonneg f hi hi' (λ j _, Hf j)). lra.
  - rewrite (qsum_nil f lo hi) by lia. apply qsum_nonneg. intros; apply Hf.
Qed.

End Sums.

(** * The residual of the vector returned *)

Section Accuracy.
Import Binary64 Binary64Arith Binary64Errors.
Implicit Types s : system float.
Local Open Scope Q_scope.

Lemma u64_val : u64 == 1 # 9007199254740992.
Proof. reflexivity. Qed.

Lemma eta64_le_u64 : eta64 <= u64.
Proof. by vm_compute. Qed.


Lemma g_pos g : 2 ^ (-1022) <= g → 0 < g.
Proof. intros Hg. assert (0 < 2 ^ (-1022)) by done. lra. Qed.



(** ** One update [a - f * c] of the elimination *)


(** ** The multiplier *)

Lemma factor_defect g (a d : float) :
  2 ^ (-1022) <= g →
  is_finite (a / d)%float = true → is_finite d = true → is_zero d = false →
  Qabs (exact a) <= Qabs (exact d) → Qabs (exact d) <= g →
  Qabs (exact (a / d)%float) <= 1 + 2 * u64 ∧
  Qabs (exact (a / d)%float * exact d - exact a) <= 2 * u64 * g.
Proof.
  intros Hg Hfin Hd Hnz Hle Hdg.
  pose proof (eta64_le_u64) as Heta. pose proof (g_pos g Hg) as Hgpos.
  pose proof (exact_nonzero d Hd Hnz) as Hd0.
  pose proof (div_error a d Hfin) as Hdiv.
  set (F := exact (a / d)%float) in *. set (A := exact a) in *. set (D := exact d) in *.
  assert (0 < Qabs D) as HDpos.
  { pose proof (Qabs_nonneg D). destruct (Qeq_dec (Qabs D) 0) as [Hz|Hz]; [|lra].
    exfalso. apply Hd0. revert Hz. apply Qabs_case; intros; lra. }
  assert (Qabs (A / D) <= 1) as Hq.
  { unfold Qdiv. rewrite Qabs_Qmult, Qabs_Qinv.
    apply Qle_shift_div_r; [done|]. lra. }
  assert (Qabs (A / D) * Qabs D == Qabs A) as HqD.
  { rewrite <- Qabs_Qmult. apply Qabs_wd. field. exact Hd0. }
  split.
  - assert (F == (F - A / D) + A / D) as -> by ring.
    eapply Qle_trans; [apply Qabs_triangle|].
    rewrite u64_val in *.
    set (x1 := Qabs (F - A / D)) in *. set (x2 := Qabs (A / D)) in *. lra.
  - assert (F * D - A == (F - A / D) * D) as -> by (field; exact Hd0).
    rewrite Qabs_Qmult.
    apply Qle_trans with ((u64 * Qabs (A / D) + eta64) * Qabs D).
    + apply Qmult_le_compat_r; [done|lra].
    + assert ((u64 * Qabs (A / D) + eta64) * Qabs D ==
              u64 * (Qabs (A / D) * Qabs D) + eta64 * Qabs D) as -> by ring.
      rewrite HqD.
      assert (eta64 * Qabs D <= u64 * g) as Heg.
      { apply Qmult_le_compat_nonneg; split; try done; lra. }
      rewrite u64_val in *.
      set (x1 := Qabs A) in *. set (x2 := Qabs D) in *.
      set (x3 := eta64 * x2) in *. lra.
Qed.

(** ** The bound on the entries *)





(** ** Residuals across a pivot step *)




(** A pivot that passed the test of line 33 and is finite is not a zero. *)
Lemma passed_not_zero (d : float) :
  PrimFloat.ltb (abs d) threshold = false → is_zero d = false.
Proof.
  intros Hpass. destruct (is_zero d) eqn:Hz; [|done].
  apply zero_near_zero in Hz. congruence.
Qed.

(** After the exchange the pivot has the largest magnitude of its column
    among the rows not yet used. *)
Lemma pivot_dominates s p i :
  (p < N)%nat → (p ≤ i < N)%nat →
  (∀ i', (i' < N)%nat → is_finite (ent s i' p) = true) →
  Qabs (entQ s i p) <= Qabs (entQ s (pivot_row s p) p).
Proof.
  intros Hp Hi Hfin.
  destruct (scan_first_max s p N) as [Hmax _]; [|done|done|].
  { intros i' Hi'. apply is_finite_not_nan, Hfin. lia. }
  pose proof (pivot_row_bounds s p Hp) as Hm.
  apply key_le_exact; [apply Hfin; lia|apply Hfin; lia|].
  apply (Hmax i). lia.
Qed.


(** ** Back substitution *)













End Accuracy.


(** * What the call does not depend on *)

Section Structure.
Context {F : Type} `{Scalar F}.
Implicit Types s : system F.

Lemma system_ext s s' :
  wf s → wf s' →
  (∀ i j, i < N → j < N → ent s i j = ent s' i j) →
  (∀ i, i < N → rhs s i = rhs s' i) → s = s'.
Proof.
  intros Hwf Hwf' Hent Hrhs.
  pose proof Hwf as (HA & _ & Hb). pose proof Hwf' as (HA' & _ & Hb').
  destruct s as [A b], s' as [A' b']. f_equal.
  - apply list_eq_same_length with N; [done|done|].
    intros i x y Hi Hx Hy.
    pose proof (row_ext _ _ i i Hwf Hwf' Hi Hi (λ j Hj, Hent i j Hi Hj)) as Hrow.
    simpl in *. congruence.
  - apply list_eq_same_length with N; [done|done|].
    intros i x y Hi Hx Hy.
    pose proof (rhs_ext _ _ i i Hwf Hwf' Hi Hi (Hrhs i Hi)) as Hrow.
    simpl in *. congruence.
Qed.

(** Exchanging the same two rows twice restores the arrays. *)
Theorem swap_rows_twice s p max_row s1 :
  wf s → p < N → max_row < N →
  swap_rows p max_row s = Some s1 → swap_rows p max_row s1 = Some s.
Proof.
  intros Hwf Hp Hm Hswap.
  destruct (swap_rows_spec s p max_row Hwf Hp Hm) as (s1' & Hs1 & Hwf1 & He1 & Hb1 & _).
  assert (s1' = s1) as -> by congruence.
  destruct (swap_rows_spec s1 p max_row Hwf1 Hp Hm) as (s2 & Hs2 & Hwf2 & He2 & Hb2 & _).
  rewrite Hs2. f_equal. apply system_ext; [done..| |].
  - intros i j _ _. by rewrite He2, He1, swap_idx_invol.
  - intros i _. by rewrite Hb2, Hb1, swap_idx_invol.
Qed.

Lemma pivot_step_same_matrix A b1 b2 p :
  wf (System A b1) → wf (System A b2) → p < N →
  ∃ r1 r2, pivot_step p (System A b1) = Some r1 ∧
           pivot_step p (System A b2) = Some r2 ∧ same_matrix r1 r2.
Proof.
  intros Hwf1 Hwf2 Hp.
  set (s1 := System A b1) in *. set (s2 := System A b2) in *.
  assert (near_zero_pivot s1 p = near_zero_pivot s2 p) as Hnz by reflexivity.
  assert (pivot_row s1 p = pivot_row s2 p) as Hrow by reflexivity.
  assert (∀ i j, ent s1 i j = ent s2 i j) as Hent by reflexivity.
  destruct (pivot_step_total s1 p Hwf1 Hp) as [[Hz1 Hr1]|[Hz1 (t1 & Hr1 & Hwt1)]];
  destruct (pivot_step_total s2 p Hwf2 Hp) as [[Hz2 Hr2]|[Hz2 (t2 & Hr2 & Hwt2)]];
    try congruence.
  - exists (Singular s1), (Singular s2). done.
  - exists (Next t1), (Next t2). split; [done|]. split; [done|]. simpl.
    destruct (pivot_step_Next_inv s1 p t1 Hwf1 Hp Hr1)
      as (_ & u1 & _ & _ & _ & _ & He1 & _ & Ht1 & _).
    destruct (pivot_step_Next_inv s2 p t2 Hwf2 Hp Hr2)
      as (_ & u2 & _ & _ & _ & _ & He2 & _ & Ht2 & _).
    assert (∀ i j, ent u1 i j = ent u2 i j) as Hu
      by (intros; by rewrite He1, He2, Hrow, Hent).
    pose proof Hwt1 as (HA1 & _). pose proof Hwt2 as (HA2 & _).
    apply list_eq_same_length with N; [done|done|].
    intros i x y Hi Hx Hy.
    assert (sysA t1 !! i = sysA t2 !! i) as Hrw; [|congruence].
    apply row_ext; [done..|]. intros j Hj. rewrite Ht1, Ht2.
    case_decide; [|done]. by apply elim_ent_congr.
Qed.

Lemma forward_same_matrix A b1 b2 k :
  wf (System A b1) → wf (System A b2) → k ≤ N →
  ∃ r1 r2, forward (range 0 k) (System A b1) = Some r1 ∧
           forward (range 0 k) (System A b2) = Some r2 ∧ same_matrix r1 r2.
Proof.
  intros Hwf1 Hwf2. induction k as [|k IH]; intros Hk.
  - exists (Next (System A b1)), (Next (System A b2)). done.
  - destruct IH as (r1 & r2 & Hr1 & Hr2 & Hsame); [lia|].
    rewrite !forward_snoc, Hr1, Hr2. simpl.
    destruct (forward_wf (System A b1) k Hwf1) as (r1' & Hr1' & Hw1); [lia|].
    destruct (forward_wf (System A b2) k Hwf2) as (r2' & Hr2' & Hw2); [lia|].
    assert (r1' = r1) as -> by congruence. assert (r2' = r2) as -> by congruence.
    destruct r1 as [t1|t1], r2 as [t2|t2]; try done.
    + by exists (Singular t1), (Singular t2).
    + destruct t1 as [A1 c1], t2 as [A2 c2]. simpl in Hsame. subst A2.
      apply pivot_step_same_matrix; [done|done|lia].
Qed.

(** Whether the call succeeds, and the matrix it leaves in [A], do not
    depend on the right-hand side. *)
Theorem solveMatrix_rhs_independent (A : list (list F)) (b1 b2 : list F) :
  wf (System A b1) → wf (System A b2) →
  ∃ ok s1 s2, solveMatrix (System A b1) = Some (ok, s1) ∧
              solveMatrix (System A b2) = Some (ok, s2) ∧ sysA s1 = sysA s2.
Proof.
  intros Hwf1 Hwf2.
  destruct (forward_same_matrix A b1 b2 N Hwf1 Hwf2) as (r1 & r2 & Hr1 & Hr2 & Hsame);
    [lia|].
  destruct r1 as [t1|t1], r2 as [t2|t2]; try done; simpl in Hsame.
  - exists false, t1, t2. unfold solveMatrix. rewrite Hr1, Hr2. done.
  - destruct (solveMatrix_Next _ t1 Hwf1 Hr1) as (s1 & _ & Hs1 & _ & _ & HA1 & _).
    destruct (solveMatrix_Next _ t2 Hwf2 Hr2) as (s2 & _ & Hs2 & _ & _ & HA2 & _).
    exists true, s1, s2. split; [done|]. split; [done|]. congruence.
Qed.

(** A first column below the threshold is rejected at once. *)
Theorem solveMatrix_small_column s :
  wf s → (∀ i, i < N → flt (fabs (ent s i 0)) threshold = true) →
  solveMatrix s = Some (false, s).
Proof.
  intros Hwf Hsmall.
  assert (0 < N) as H0 by (unfold N; lia).
  pose proof (pivot_row_bounds s 0 H0) as Hm.
  assert (pivot_step 0 s = Some (Singular s)) as Hstep.
  { apply pivot_step_singular; [done..|]. unfold near_zero_pivot. apply Hsmall. lia. }
  unfold solveMatrix. rewrite (range_cons 0 N H0). cbn [forward].
  rewrite Hstep. done.
Qed.

End Structure.


(** * NaN in the matrix *)

Section Scan.
Context {F : Type} `{Scalar F}.
Implicit Types s : system F.

(** A scan during which no row beats row [p] ends on row [p]. *)
Lemma scan_stays s p :
  (∀ i, p < i < N → fgt (fabs (ent s i p)) (fabs (ent s p p)) = false) →
  pivot_row s p = p.
Proof.
  intros Hno. unfold pivot_row.
  assert (∀ k, k ≤ N → fold_left (scan_pure s p) (range (p + 1) k) p = p) as Hk.
  { induction k as [|k IH]; intros Hle; [by rewrite range_nil by lia|].
    destruct (decide (p + 1 ≤ k)) as [Hpk|Hpk]; [|by rewrite range_nil by lia].
    rewrite range_snoc by done. rewrite fold_left_app, IH by lia. simpl.
    unfold scan_pure. by rewrite Hno by lia. }
  by apply Hk.
Qed.

End Scan.

Section NaN.
Import Binary64 Binary64Arith.
Implicit Types s : system float.

Lemma ltb_nan_l x y : is_nan x = true → PrimFloat.ltb (abs x) y = false.
Proof.
  rewrite is_nan_spec, FloatAxioms.ltb_spec, FloatAxioms.abs_spec.
  by destruct (Prim2SF x).
Qed.

Lemma div_nan_r x y : is_nan y = true → is_nan (x / y)%float = true.
Proof.
  rewrite !is_nan_spec, div_spec.
  by destruct (Prim2SF y), (Prim2SF x) as [[|]|[|]| |[|] ? ?].
Qed.

Lemma mul_nan_l x y : is_nan x = true → is_nan (x * y)%float = true.
Proof.
  rewrite !is_nan_spec, mul_spec.
  by destruct (Prim2SF x), (Prim2SF y) as [[|]|[|]| |[|] ? ?].
Qed.

Lemma mul_nan_r x y : is_nan y = true → is_nan (x * y)%float = true.
Proof.
  rewrite !is_nan_spec, mul_spec.
  by destruct (Prim2SF y), (Prim2SF x) as [[|]|[|]| |[|] ? ?].
Qed.

Lemma sub_nan_r x y : is_nan y = true → is_nan (x - y)%float = true.
Proof.
  rewrite !is_nan_spec, sub_spec.
  by destruct (Prim2SF y), (Prim2SF x) as [[|]|[|]| |[|] ? ?].
Qed.

Lemma nan_pivot s p :
  (p < N)%nat → is_nan (ent s p p) = true →
  pivot_row s p = p ∧ near_zero_pivot s p = false.
Proof.
  intros Hp Hnan.
  assert (pivot_row s p = p) as Hrow.
  { apply scan_stays. intros i Hi. unfold fgt. by apply ltb_nan_l. }
  split; [done|]. unfold near_zero_pivot. rewrite Hrow. by apply ltb_nan_l.
Qed.

Lemma nan_pivot_goes_on s p :
  wf s → (p < N)%nat → is_nan (ent s p p) = true →
  ∃ s', pivot_step p s = Some (Next s').
Proof.
  intros Hwf Hp Hnan. destruct (nan_pivot s p Hp Hnan) as [_ Hnz].
  destruct (pivot_step_total s p Hwf Hp) as [[Hz _]|[_ (s' & Hs' & _)]];
    [congruence|by exists s'].
Qed.

(** A NaN on the diagonal at step [p] is selected as the pivot and passes
    the test of line 33: the step does not fail. *)
Theorem pivot_step_nan s p :
  wf s → (p < N)%nat → is_nan (ent s p p) = true →
  find_pivot s p = Some p ∧ ∃ s', pivot_step p s = Some (Next s').
Proof.
  intros Hwf Hp Hnan. split; [|by apply nan_pivot_goes_on].
  rewrite find_pivot_wf by done. by destruct (nan_pivot s p Hp Hnan) as [-> _].
Qed.

Lemma nan_block_diag k s i :
  nan_block k s → (i < N)%nat → (i ≤ k)%nat → is_nan (ent s i i) = true.
Proof.
  intros [H0 Hblk] Hi Hik. destruct (decide (i = 0)%nat) as [->|Hne]; [done|].
  apply Hblk; lia.
Qed.

Lemma nan_block_step k s s' :
  wf s → (k < N)%nat → nan_block k s → pivot_step k s = Some (Next s') →
  nan_block (S k) s'.
Proof.
  intros Hwf Hk Hblk Hstep.
  pose proof (nan_block_diag k s k Hblk Hk ltac:(lia)) as Hkk.
  destruct (nan_pivot s k Hk Hkk) as [Hrow _].
  destruct (pivot_step_Next_inv s k s' Hwf Hk Hstep)
    as (_ & s1 & _ & _ & _ & _ & He1 & _ & He' & _).
  rewrite Hrow in He1.
  assert (∀ i j, ent s1 i j = ent s i j) as HE1
    by (intros; by rewrite He1, swap_idx_same).
  destruct Hblk as [H0 Hblk]. split.
  - rewrite He'. rewrite decide_False by lia. by rewrite HE1.
  - intros _ i j Hi Hj. rewrite He'. case_decide as Hik.
    + unfold elim_ent. rewrite decide_False, decide_True by lia.
      apply sub_nan_r. rewrite !HE1.
      destruct (decide (k = 0)%nat) as [->|Hk0].
      * apply mul_nan_l. unfold factor. apply div_nan_r. by rewrite HE1.
      * apply mul_nan_r. apply Hblk; lia.
    + rewrite HE1. apply Hblk; lia.
Qed.

(** A NaN in [A[0][0]] is never reported: the call returns [true] and every
    entry of the vector it returns is NaN. *)
Theorem solveMatrix_nan_corner s :
  wf s → is_nan (ent s 0 0) = true →
  ∃ s', solveMatrix s = Some (true, s') ∧
        ∀ i, (i < N)%nat → is_nan (rhs s' i) = true.
Proof.
  intros Hwf Hnan.
  assert (∀ k sk, (k ≤ N)%nat → forward (range 0 k) s = Some (Next sk) →
            wf sk ∧ nan_block k sk) as Hinv.
  { apply (forward_inv nan_block s Hwf).
    - split; [done|lia].
    - intros k st st' Hk Hwfst Hblk Hstep.
      exact (nan_block_step k st st' Hwfst Hk Hblk Hstep). }
  destruct (forward_wf s N Hwf) as (r & Hrun & Hwfr); [lia|].
  assert (∃ sN, r = Next sN) as [sN ->].
  { destruct r as [sp|sN]; [|eauto].
    destruct (forward_Singular_inv s N sp Hrun) as (p & Hp & Hrunp & Hstep).
    destruct (Hinv p sp ltac:(lia) Hrunp) as [Hwfp Hblk].
    pose proof (nan_block_diag p sp p Hblk Hp ltac:(lia)) as Hpp.
    destruct (nan_pivot_goes_on sp p Hwfp Hp Hpp) as (s' & Hs'). congruence. }
  destruct (Hinv N sN ltac:(lia) Hrun) as [HwfN Hblk].
  destruct (solveMatrix_Next s sN Hwf Hrun) as (s' & _ & Hs & _ & _ & _ & Hb').
  exists s'. split; [done|]. intros i Hi. rewrite Hb' by done.
  unfold back_val. apply div_nan_r. apply (nan_block_diag N sN i Hblk Hi). lia.
Qed.

End NaN.


(** * The size of the multipliers *)

Section Multipliers.
Import Binary64 Binary64Arith Binary64Errors.
Implicit Types s : system float.
Local Open Scope Q_scope.

(** Partial pivoting keeps the multipliers small: at a step that goes on
    without overflow every [factor] is finite and at most [1 + 2^-52] in
    magnitude. *)
Theorem multipliers_bounded s p s' :
  wf s → (p < N)%nat → finite_matrix s = true → finite_matrix s' = true →
  pivot_step p s = Some (Next s') →
  ∃ s1, swap_rows p (pivot_row s p) s = Some s1 ∧
    ∀ i, (p < i < N)%nat →
      is_finite (factor s1 p i) = true ∧
      Qabs (exact (factor s1 p i)) <= 1 + 2 ^ (-52).
Proof.
  intros Hwf Hp Hfin Hfin' Hstep.
  destruct (pivot_step_Next_inv s p s' Hwf Hp Hstep)
    as (Hnz & s1 & Hswap & _ & Hwf1 & Hwf' & He1 & _ & He' & _).
  exists s1. split; [done|]. intros i Hi.
  pose proof (pivot_row_bounds s p Hp) as Hm. set (m := pivot_row s p) in *.
  set (d := ent s1 p p).
  assert (d = ent s m p) as Hd.
  { unfold d. rewrite He1. unfold swap_idx. by rewrite decide_True. }
  assert (∀ i' j, (i' < N)%nat → (j < N)%nat → is_finite (ent s1 i' j) = true) as HA1.
  { intros i' j Hi' Hj. rewrite He1. apply finite_matrix_ent; [done..| |done].
    apply swap_idx_lt; lia. }
  assert (is_finite (factor s1 p i) = true) as Hffin.
  { pose proof (finite_matrix_ent s' i (N - 1) Hwf' Hfin' ltac:(lia)
                  ltac:(unfold N; lia)) as Hent.
    rewrite He' in Hent. rewrite decide_True in Hent by done.
    unfold elim_ent in Hent.
    rewrite decide_False, decide_True in Hent by (unfold N in *; lia).
    apply sub_finite_inv in Hent as [_ Hent].
    by apply mul_finite_inv in Hent as [Hent _]. }
  split; [done|].
  set (g := Qabs (exact d) + 2 ^ (-1022)).
  pose proof (Qabs_nonneg (exact d)) as Hd0.
  destruct (factor_defect g (ent s1 i p) d) as [HF _].
  - unfold g. lra.
  - exact Hffin.
  - apply HA1; lia.
  - apply passed_not_zero. rewrite Hd. exact Hnz.
  - rewrite He1, Hd. apply (pivot_dominates s p); [done| |].
    + split; [apply swap_idx_ge; lia|apply swap_idx_lt; lia].
    + intros i' Hi'. apply finite_matrix_ent; [done..|lia].
  - unfold g. assert (0 < 2 ^ (-1022)) by done. lra.
  - eapply Qle_trans; [exact HF|]. by vm_compute.
Qed.

End Multipliers.


(** * Runs on which the unrestricted statements fail *)

Section Counterexamples.

(** C3 does not hold for every column: two steps into the run on
    [A_overflow] column 2 holds NaN in row 2 and 5 in row 3; the scan keeps
    row 2, whose entry is not the largest. *)
Lemma find_pivot_nan_counterexample :
  finite_matrix (System A_overflow b_ones) = true ∧
  ∃ s2, forward (range 0 2) (System A_overflow b_ones) = Some (Next s2) ∧
        is_nan (ent s2 2 2) = true ∧ ent s2 3 2 = 5%float ∧
        find_pivot s2 2 = Some 2 ∧ ¬ first_max s2 2 2.
Proof.
  split; [vm_compute; reflexivity|].
  eexists. split; [vm_compute; reflexivity|].
  split; [vm_compute; reflexivity|]. split; [vm_compute; reflexivity|].
  split; [vm_compute; reflexivity|].
  intros (_ & Hmax & _). specialize (Hmax 3 ltac:(unfold N; lia)).
  vm_compute in Hmax. discriminate.
Qed.

(** C10 does not hold without the NaN case: the run on [A_overflow]
    reaches back substitution with NaN on the diagonal of row 2, and NaN is
    not at least [1e-10]. *)
Lemma diagonal_nan_counterexample :
  finite_matrix (System A_overflow b_ones) = true ∧
  ∃ sN s', forward (range 0 N) (System A_overflow b_ones) = Some (Next sN) ∧
           solveMatrix (System A_overflow b_ones) = Some (true, s') ∧
           sysA s' = sysA sN ∧
           is_nan (ent sN 2 2) = true ∧
           PrimFloat.leb threshold (abs (ent sN 2 2)) = false.
Proof.
  split; [vm_compute; reflexivity|].
  do 2 eexists. split; [vm_compute; reflexivity|].
  split; [vm_compute; reflexivity|]. split; [vm_compute; reflexivity|].
  split; vm_compute; reflexivity.
Qed.

Local Open Scope float_scope.


(** C6 does not hold when elimination overflows: [A_overflow] has a zero
    row and two identical rows, all its entries are finite, and the call
    returns [true]. *)
Lemma singular_counterexample :
  (∀ j, (j < N)%nat → is_zero (ent (System A_overflow b_ones) 9 j) = true) ∧
  A_overflow !! 1%nat = A_overflow !! 2%nat ∧
  finite_matrix (System A_overflow b_ones) = true ∧
  ∃ s', solveMatrix (System A_overflow b_ones) = Some (true, s').
Proof.
  split.
  { intros j Hj. do 10 (destruct j as [|j]; [reflexivity|]). unfold N in Hj. lia. }
  split; [reflexivity|]. split; [vm_compute; reflexivity|].
  eexists. vm_compute. reflexivity.
Qed.

(** C7 does not hold when [v] holds an infinity: [b[1]] enters as [1]
    and leaves as NaN. *)
Lemma identity_counterexample :
  ∃ A' x, solveMatrix (System identity_matrix b_infinite) = Some (true, System A' x) ∧
          b_infinite !! 1%nat = Some 1 ∧ x !! 1%nat = Some nan ∧
          PrimFloat.eqb nan 1 = false.
Proof.
  do 2 eexists. split; [vm_compute; reflexivity|].
  split; [reflexivity|]. split; reflexivity.
Qed.

End Counterexamples.

(** * Instances of the theorems *)

Section Witnesses.
Local Open Scope float_scope.

(** The scenario of the specification: on the tridiagonal system with
    [b = (1, ..., 10)] the call returns [true] and the residual, computed
    without rounding, is below [10^-12] in every row. *)
Example tridiagonal_scenario :
  ∃ A' x,
    solveMatrix (System tridiagonal b_count) = Some (true, System A' x) ∧
    forallb (λ r, Qle_bool (Qabs r) (1 # 1000000000000))
      (exact_residual tridiagonal b_count x) = true.
Proof.
  do 2 eexists. split; [vm_compute; reflexivity|]. vm_compute. reflexivity.
Qed.

Lemma all_below_N (P : nat → Prop) :
  P 0%nat → P 1%nat → P 2%nat → P 3%nat → P 4%nat → P 5%nat → P 6%nat →
  P 7%nat → P 8%nat → P 9%nat → ∀ i, (i < N)%nat → P i.
Proof.
  intros H0 H1 H2 H3 H4 H5 H6 H7 H8 H9 i Hi.
  do 10 (destruct i as [|i]; [assumption|]). unfold N in Hi. lia.
Defined.


Lemma solveMatrix_false_iff_witness :
  wf (System zero_column b_count) ∧
  (∀ s', solveMatrix (System zero_column b_count) = Some (false, s') ↔
         ∃ p, fails_at (System zero_column b_count) p s') ∧
  ((∃ s', solveMatrix (System zero_column b_count) = Some (true, s')) ↔
   ¬ ∃ p sp, fails_at (System zero_column b_count) p sp) ∧
  (∃ ok s', solveMatrix (System zero_column b_count) = Some (ok, s')).
Proof.
  assert (wf (System zero_column b_count)) as Hwf by wf_concrete.
  split; [exact Hwf|]. exact (solveMatrix_false_iff _ Hwf).
Defined.

Lemma find_pivot_first_max_witness :
  wf (System tridiagonal b_count) ∧ (0 < N)%nat ∧
  (∀ i, (0 ≤ i < N)%nat → is_nan (ent (System tridiagonal b_count) i 0) = false) ∧
  ∃ max_row, find_pivot (System tridiagonal b_count) 0 = Some max_row ∧
             first_max (System tridiagonal b_count) 0 max_row.
Proof.
  assert (wf (System tridiagonal b_count)) as Hwf by wf_concrete.
  assert (0 < N)%nat as Hp by (unfold N; lia).
  assert (∀ i, (0 ≤ i < N)%nat → is_nan (ent (System tridiagonal b_count) i 0) = false)
    as Hnan.
  { intros i [_ Hi]. revert i Hi. apply all_below_N; reflexivity. }
  split; [exact Hwf|]. split; [exact Hp|]. split; [exact Hnan|].
  exact (find_pivot_first_max _ 0%nat Hwf Hp Hnan).
Defined.

Lemma swap_rows_exchange_witness :
  wf (System tridiagonal b_count) ∧ (0 < N)%nat ∧ (1 < N)%nat ∧
  ∃ s', swap_rows 0 1 (System tridiagonal b_count) = Some s' ∧
        sysA s' !! 0%nat = tridiagonal !! 1%nat ∧
        sysA s' !! 1%nat = tridiagonal !! 0%nat ∧
        sysb s' !! 0%nat = Some 2 ∧ sysb s' !! 1%nat = Some 1.
Proof.
  assert (wf (System tridiagonal b_count)) as Hwf by wf_concrete.
  assert (0 < N)%nat as Hp by (unfold N; lia).
  assert (1 < N)%nat as Hm by (unfold N; lia).
  split; [exact Hwf|]. split; [exact Hp|]. split; [exact Hm|].
  destruct (swap_rows_exchange (System tridiagonal b_count) 0 1 Hwf Hp Hm)
    as [(s' & Hs' & Hne & _) _].
  destruct (Hne ltac:(lia)) as (HAp & HAm & Hbp & Hbm & _).
  exists s'. split; [exact Hs'|]. split; [exact HAp|]. split; [exact HAm|].
  split; [exact Hbp|exact Hbm].
Defined.

Lemma solveMatrix_upper_triangular_witness :
  wf (System identity_matrix b_count) ∧
  solveMatrix (System identity_matrix b_count) =
    Some (true, System identity_matrix b_count) ∧
  ∀ i p, (p < i)%nat → (i < N)%nat →
    getA (System identity_matrix b_count) i p = Some 0.
Proof.
  assert (wf (System identity_matrix b_count)) as Hwf by wf_concrete.
  assert (solveMatrix (System identity_matrix b_count) =
          Some (true, System identity_matrix b_count)) as Hsolve
    by (vm_compute; reflexivity).
  split; [exact Hwf|]. split; [exact Hsolve|].
  exact (solveMatrix_upper_triangular _ _ Hwf Hsolve).
Defined.

Lemma solveMatrix_singular_witness :
  wf (System zero_last_row b_count) ∧
  no_overflow (System zero_last_row b_count) = true ∧
  (∀ j, (j < N)%nat → is_zero (ent (System zero_last_row b_count) 9 j) = true) ∧
  ∃ s', solveMatrix (System zero_last_row b_count) = Some (false, s').
Proof.
  assert (wf (System zero_last_row b_count)) as Hwf by wf_concrete.
  assert (no_overflow (System zero_last_row b_count) = true) as Hfin
    by (vm_compute; reflexivity).
  assert (∀ j, (j < N)%nat → is_zero (ent (System zero_last_row b_count) 9 j) = true)
    as Hzero by (apply all_below_N; reflexivity).
  split; [exact Hwf|]. split; [exact Hfin|]. split; [exact Hzero|].
  apply (solveMatrix_singular zero_last_row b_count Hwf Hfin).
  left. exists 9%nat. split; [unfold N; lia|exact Hzero].
Defined.

Lemma solveMatrix_identity_witness :
  length b_count = N ∧ all_finite b_count ∧
  ∃ x, solveMatrix (System identity_matrix b_count) =
         Some (true, System identity_matrix x) ∧
       length x = N ∧
       ∀ i vi xi, b_count !! i = Some vi → x !! i = Some xi →
         PrimFloat.eqb xi vi = true ∧ (xi = vi ∨ is_zero vi = true).
Proof.
  assert (length b_count = N) as Hlen by reflexivity.
  assert (all_finite b_count) as Hfin by (repeat constructor).
  split; [exact Hlen|]. split; [exact Hfin|].
  exact (solveMatrix_identity b_count Hlen Hfin).
Defined.

Lemma solveMatrix_deterministic_witness :
  Mem.separate 3 103 mem_one ∧ Mem.separate 12 0 mem_two ∧
  (∀ i j, (i < N)%nat → (j < N)%nat →
     mem_one !! Mem.cellA 3 i j = mem_two !! Mem.cellA 12 i j) ∧
  (∀ i, (i < N)%nat → mem_one !! Mem.cellb 103 i = mem_two !! Mem.cellb 0 i) ∧
  ∃ ok h1' h2',
    Mem.solveMatrix 3 103 mem_one = Some (ok, h1') ∧
    Mem.solveMatrix 12 0 mem_two = Some (ok, h2') ∧
    (∀ i j, (i < N)%nat → (j < N)%nat →
       h1' !! Mem.cellA 3 i j = h2' !! Mem.cellA 12 i j) ∧
    (∀ i, (i < N)%nat → h1' !! Mem.cellb 103 i = h2' !! Mem.cellb 0 i) ∧
    Mem.frame 3 103 mem_one h1' ∧ Mem.frame 12 0 mem_two h2'.
Proof.
  assert (Mem.separate 3 103 mem_one) as Hsep1 by (vm_compute; lia).
  assert (Mem.separate 12 0 mem_two) as Hsep2 by (vm_compute; lia).
  assert (∀ i j, (i < N)%nat → (j < N)%nat →
            mem_one !! Mem.cellA 3 i j = mem_two !! Mem.cellA 12 i j) as HA.
  { intros i j Hi Hj.
    do 10 (destruct i as [|i];
      [do 10 (destruct j as [|j]; [reflexivity|]); unfold N in *; lia|]).
    unfold N in *; lia. }
  assert (∀ i, (i < N)%nat → mem_one !! Mem.cellb 103 i = mem_two !! Mem.cellb 0 i)
    as Hb by (apply all_below_N; reflexivity).
  split; [exact Hsep1|]. split; [exact Hsep2|]. split; [exact HA|]. split; [exact Hb|].
  exact (solveMatrix_deterministic 3 103 12 0 mem_one mem_two Hsep1 Hsep2 HA Hb).
Defined.

Lemma solveMatrix_failure_safe_witness :
  wf (System zero_column b_count) ∧
  fails_at (System zero_column b_count) 0 (System zero_column b_count) ∧
  solveMatrix (System zero_column b_count) = Some (false, System zero_column b_count).
Proof.
  assert (wf (System zero_column b_count)) as Hwf by wf_concrete.
  assert (fails_at (System zero_column b_count) 0 (System zero_column b_count))
    as Hfail.
  { split; [unfold N; lia|]. split; [reflexivity|].
    exists 0%nat, 0. split; [vm_compute; reflexivity|].
    split; [reflexivity|vm_compute; reflexivity]. }
  split; [exact Hwf|]. split; [exact Hfail|].
  destruct (solveMatrix_failure_safe (System zero_column b_count) Hwf) as [_ Hsafe].
  destruct (Hsafe 0%nat (System zero_column b_count) Hfail) as [Hsolve _].
  exact Hsolve.
Defined.

Lemma diagonal_divisors_witness :
  wf (System tridiagonal b_count) ∧
  ∃ sN s', forward (range 0 N) (System tridiagonal b_count) = Some (Next sN) ∧
    solveMatrix (System tridiagonal b_count) = Some (true, s') ∧
    ∀ i, (i < N)%nat →
      PrimFloat.ltb (abs (ent sN i i)) threshold = false ∧
      (is_nan (ent sN i i) = true ∨
       PrimFloat.leb threshold (abs (ent sN i i)) = true).
Proof.
  assert (wf (System tridiagonal b_count)) as Hwf by wf_concrete.
  split; [exact Hwf|].
  destruct (diagonal_divisors (System tridiagonal b_count) Hwf) as [_ Hdiv].
  assert (∃ sN, forward (range 0 N) (System tridiagonal b_count) = Some (Next sN))
    as [sN Hrun] by (eexists; vm_compute; reflexivity).
  destruct (Hdiv sN Hrun) as (s' & Hsolve & _ & Hd).
  exists sN, s'. split; [exact Hrun|]. split; [exact Hsolve|].
  intros i Hi. destruct (Hd i Hi) as (_ & Hlt & Hle). split; [exact Hlt|exact Hle].
Defined.

Lemma swap_rows_twice_witness :
  wf (System tridiagonal b_count) ∧ (0 < N)%nat ∧ (1 < N)%nat ∧
  ∃ s1, swap_rows 0 1 (System tridiagonal b_count) = Some s1 ∧
        swap_rows 0 1 s1 = Some (System tridiagonal b_count).
Proof.
  assert (wf (System tridiagonal b_count)) as Hwf by wf_concrete.
  assert (0 < N)%nat as Hp by (unfold N; lia).
  assert (1 < N)%nat as Hm by (unfold N; lia).
  assert (∃ s1, swap_rows 0 1 (System tridiagonal b_count) = Some s1)
    as [s1 Hs1] by (eexists; vm_compute; reflexivity).
  split; [exact Hwf|]. split; [exact Hp|]. split; [exact Hm|].
  exists s1. split; [exact Hs1|].
  exact (swap_rows_twice (System tridiagonal b_count) 0 1 s1 Hwf Hp Hm Hs1).
Defined.

Lemma solveMatrix_rhs_independent_witness :
  wf (System tridiagonal b_count) ∧ wf (System tridiagonal b_ones) ∧
  ∃ ok s1 s2, solveMatrix (System tridiagonal b_count) = Some (ok, s1) ∧
              solveMatrix (System tridiagonal b_ones) = Some (ok, s2) ∧
              sysA s1 = sysA s2.
Proof.
  assert (wf (System tridiagonal b_count)) as Hwf1 by wf_concrete.
  assert (wf (System tridiagonal b_ones)) as Hwf2 by wf_concrete.
  split; [exact Hwf1|]. split; [exact Hwf2|].
  exact (solveMatrix_rhs_independent tridiagonal b_count b_ones Hwf1 Hwf2).
Defined.

Lemma solveMatrix_small_column_witness :
  wf (System zero_column b_count) ∧
  (∀ i, (i < N)%nat →
     flt (fabs (ent (System zero_column b_count) i 0)) threshold = true) ∧
  solveMatrix (System zero_column b_count) = Some (false, System zero_column b_count).
Proof.
  assert (wf (System zero_column b_count)) as Hwf by wf_concrete.
  assert (∀ i, (i < N)%nat →
     flt (fabs (ent (System zero_column b_count) i 0)) threshold = true) as Hsmall
    by (apply all_below_N; reflexivity).
  split; [exact Hwf|]. split; [exact Hsmall|].
  exact (solveMatrix_small_column (System zero_column b_count) Hwf Hsmall).
Defined.

Lemma pivot_step_nan_witness :
  wf (System nan_corner b_count) ∧ (0 < N)%nat ∧
  is_nan (ent (System nan_corner b_count) 0 0) = true ∧
  find_pivot (System nan_corner b_count) 0 = Some 0%nat ∧
  ∃ s', pivot_step 0 (System nan_corner b_count) = Some (Next s').
Proof.
  assert (wf (System nan_corner b_count)) as Hwf by wf_concrete.
  assert (0 < N)%nat as Hp by (unfold N; lia).
  assert (is_nan (ent (System nan_corner b_count) 0 0) = true) as Hnan
    by reflexivity.
  split; [exact Hwf|]. split; [exact Hp|]. split; [exact Hnan|].
  exact (pivot_step_nan (System nan_corner b_count) 0 Hwf Hp Hnan).
Defined.

Lemma solveMatrix_nan_corner_witness :
  wf (System nan_corner b_count) ∧
  is_nan (ent (System nan_corner b_count) 0 0) = true ∧
  ∃ s', solveMatrix (System nan_corner b_count) = Some (true, s') ∧
        ∀ i, (i < N)%nat → is_nan (rhs s' i) = true.
Proof.
  assert (wf (System nan_corner b_count)) as Hwf by wf_concrete.
  assert (is_nan (ent (System nan_corner b_count) 0 0) = true) as Hnan
    by reflexivity.
  split; [exact Hwf|]. split; [exact Hnan|].
  exact (solveMatrix_nan_corner (System nan_corner b_count) Hwf Hnan).
Defined.

Lemma multipliers_bounded_witness :
  ∃ s', wf (System tridiagonal b_count) ∧ (0 < N)%nat ∧
    finite_matrix (System tridiagonal b_count) = true ∧
    finite_matrix s' = true ∧
    pivot_step 0 (System tridiagonal b_count) = Some (Next s') ∧
    ∃ s1, swap_rows 0 (pivot_row (System tridiagonal b_count) 0)
            (System tridiagonal b_count) = Some s1 ∧
      ∀ i, (0 < i < N)%nat →
        is_finite (factor s1 0 i) = true ∧
        (Qabs (exact (factor s1 0 i)) <= 1 + 2 ^ (-52))%Q.
Proof.
  assert (wf (System tridiagonal b_count)) as Hwf by wf_concrete.
  assert (0 < N)%nat as Hp by (unfold N; lia).
  assert (finite_matrix (System tridiagonal b_count) = true) as Hfin
    by (vm_compute; reflexivity).
  assert (∃ s', pivot_step 0 (System tridiagonal b_count) = Some (Next s'))
    as [s' Hstep] by (eexists; vm_compute; reflexivity).
  assert (finite_matrix s' = true) as Hfin'.
  { revert Hstep. vm_compute. intros [= <-]. reflexivity. }
  exists s'. split; [exact Hwf|]. split; [exact Hp|]. split; [exact Hfin|].
  split; [exact Hfin'|]. split; [exact Hstep|].
  exact (multipliers_bounded (System tridiagonal b_count) 0 s' Hwf Hp Hfin Hfin' Hstep).
Defined.

End Witnesses.
